(** * Glauka orchestration core: shallow embedding and verified properties

    The development follows the Python sources:

    - [core/http_client.py]     retrying HTTP executor          (module [HttpClient])
    - [core/models.py]          execution context and [emit]    (module [Models])
    - [core/decision_engine.py] rule table of the reactive model (module [DecisionEngine])
    - [apps/recon.py]           reactive task queue             (module [TaskQueue])
    - [core/recon.py]           layer resolution of the scheduler (module [Recon])
    - [state_manager.py]        snapshot save / load            (module [StateManager])
    - [core/recon.py]           the run of the layers, the guard and the
                                module chain     (modules [Scheduler], [Setup])
    - [config.py]               defaults and their merge        (module [Config])
    - [core/probe.py]           the probe of one URL            (module [Probe])
    - [modules/bypass.py], [modules/fuzzer.py]
                                two tasks of the queue          (module [TaskModules])
    - [core/http_client.py]     the two delays, in floating point
                                                 (modules [PyFloat], [HttpDelays])

    Part I holds the embedding, Part II the theory.

    Conventions.  Python [str] is [string] (ASCII text), [int] is [Z], a
    finite [float] is the rational it denotes ([Q]) where only the control
    flow matters, and a binary64 number with its rounding ([PyFloat.float])
    where the value computed does, [Optional[T]] is
    [option T], a [dict] whose iteration order is observable is an
    association list in insertion order, a [dict] or [set] that is only
    looked up is a [gmap] / [gset].  Calls into the outside world (HTTP
    transport, random numbers, callbacks, file appends, sub-modules) are
    either oracles passed as arguments or events collected in a trace. *)

From Stdlib Require Import Ascii String DecimalString DecimalPos DecimalZ QArith Qpower
  Qround Lqa.
From Stdlib Require Floats Uint63.
From stdpp Require Import gmap strings list fin_maps relations sorting.

Open Scope string_scope.
Open Scope list_scope.
Open Scope Z_scope.

(* stdpp's solvers clear hypotheses that an earlier step may have used up. *)
Set Warnings "-clear-no-such-hyp".

(* ===================================================================== *)
(** * Part I.  Embedding                                                  *)
(* ===================================================================== *)

(** ** Python built-ins used by the sources *)

Module Py.

(** [str.isspace] on one ASCII character. *)
Definition is_space (a : ascii) : bool :=
  let n := nat_of_ascii a in
  ((9 <=? n)%nat && (n <=? 13)%nat) || ((28 <=? n)%nat && (n <=? 32)%nat).

Definition lower_char (a : ascii) : ascii :=
  let n := nat_of_ascii a in
  if ((65 <=? n)%nat && (n <=? 90)%nat) then ascii_of_nat (n + 32) else a.

Definition upper_char (a : ascii) : ascii :=
  let n := nat_of_ascii a in
  if ((97 <=? n)%nat && (n <=? 122)%nat) then ascii_of_nat (n - 32) else a.

Fixpoint map_chars (f : ascii → ascii) (s : string) : string :=
  match s with
  | EmptyString => EmptyString
  | String a s' => String (f a) (map_chars f s')
  end.

(** [s.lower()] and [s.upper()]. *)
Definition lower : string → string := map_chars lower_char.
Definition upper : string → string := map_chars upper_char.

(** [s.lstrip(chars)] and [s.rstrip(chars)], the character set given as a
    predicate. *)
Fixpoint lstrip_by (p : ascii → bool) (s : string) : string :=
  match s with
  | EmptyString => EmptyString
  | String a s' => if p a then lstrip_by p s' else s
  end.

Fixpoint rstrip_by (p : ascii → bool) (s : string) : string :=
  match s with
  | EmptyString => EmptyString
  | String a s' =>
      match rstrip_by p s' with
      | EmptyString => if p a then EmptyString else String a EmptyString
      | t => String a t
      end
  end.

(** [s.strip()]. *)
Definition strip (s : string) : string := rstrip_by is_space (lstrip_by is_space s).

(** [s.isspace()]: at least one character, and whitespace only. *)
Fixpoint all_chars (p : ascii → bool) (s : string) : bool :=
  match s with
  | EmptyString => true
  | String a s' => p a && all_chars p s'
  end.

Definition isspace (s : string) : bool :=
  match s with
  | EmptyString => false
  | _ => all_chars is_space s
  end.

(** [s.rstrip("/")]. *)
Definition is_slash (a : ascii) : bool := bool_decide (a = "/"%char).
Definition rstrip_slash : string → string := rstrip_by is_slash.

(** [s.startswith(p)]. *)
Definition startswith (s p : string) : bool := String.prefix p s.

(** [needle in s] on strings: [needle] occurs somewhere in [s]. *)
Fixpoint contains (needle s : string) : bool :=
  String.prefix needle s
  || match s with
     | EmptyString => false
     | String _ s' => contains needle s'
     end.

(** [sorted(l)] on strings: by code points, which for ASCII text is the
    order of [String.leb]. *)
Definition str_le (a b : string) : Prop := String.leb a b = true.

#[global] Instance str_le_dec (a b : string) : Decision (str_le a b) :=
  decide (String.leb a b = true).

Definition sorted (l : list string) : list string := merge_sort str_le l.

(** [s.lstrip("/")]. *)
Definition lstrip_slash : string → string := lstrip_by is_slash.

(** [s.split()[0]]: the first stretch of [s] without whitespace, [None]
    where the subscript raises [IndexError] because there is none. *)
Fixpoint until_space (s : string) : string :=
  match s with
  | EmptyString => EmptyString
  | String a s' => if is_space a then EmptyString else String a (until_space s')
  end.

Definition first_token (s : string) : option string :=
  match lstrip_by is_space s with
  | EmptyString => None
  | t => Some (until_space t)
  end.

(** [s.replace(old, new)] for a pattern [old] that is not empty: the
    occurrences of [old] are found from the left, without overlap.
    [skip] counts the characters of an occurrence that are still to be
    passed over. *)
Fixpoint replace_from (old new : string) (skip : nat) (s : string) : string :=
  match s with
  | EmptyString => EmptyString
  | String a s' =>
      match skip with
      | S k => replace_from old new k s'
      | O =>
          if String.prefix old s
          then new +:+ replace_from old new (String.length old - 1) s'
          else String a (replace_from old new 0 s')
      end
  end.

Definition replace (old new s : string) : string := replace_from old new 0 s.

(** [sep.join(parts)]. *)
Definition join (sep : string) (parts : list string) : string := String.concat sep parts.

(** [max(a, b)] on numbers: the first argument unless the second is
    strictly greater. *)
Definition max (a b : Q) : Q := if Qlt_le_dec a b then b else a.

(** [random.uniform(a, b)] is [a + (b - a) * random.random()]; the value
    of [random.random()], a number of [[0, 1)], is the argument [r]. *)
Definition uniform (a b r : Q) : Q := (a + (b - a) * r)%Q.

(** [str(n)] for an [int], and the reading of a decimal integer literal
    (an optional minus sign and digits). *)
Definition str_of_int (n : Z) : string := NilZero.string_of_int (Z.to_int n).
Definition int_of_str (s : string) : option Z :=
  option_map Z.of_int (NilZero.int_of_string s).

(** An opaque object reference (a callable, a client object). *)
Definition handle := nat.

(** A raised exception: its class name and message. *)
Record exn := Exn { exn_class : string; exn_message : string }.

(** A value of type [Any] that the snapshot can hold: what [json.loads]
    produces.  Objects keep their keys in document order. *)
#[warnings="-register-all"]
Inductive json :=
| JNull
| JBool (b : bool)
| JInt (z : Z)
| JFloat (q : Q)
| JStr (s : string)
| JArr (items : list json)
| JObj (members : list (string * json)).

End Py.

(** ** [core/models.py] *)

Module Models.

Record ScopeInfo := {
  host : string;
  ip : string;
  url : string;
  mode : string;
}.

Record ReconContext := {
  scope : ScopeInfo;
  config : list (string * Py.json);
  log : Py.handle;
  http_client : option Py.handle;
  session_manager : option Py.handle;
  findings : list string;
  screenshots : list string;
  state_path : option string;
  subdomains : list string;
  base_ports : list (Z * string);
  web_ports : list (string * list Z);
  nuclei_raw : string;
  nuclei_urls : list string;
  extra : list (string * Py.json);
  timings : list (string * Q);
  progress_cb : option Py.handle;
  _progress_seen : gmap string (gset string);
  verbose_logs : bool;
  event_path : option string;
}.

Definition with_progress_seen (ctx : ReconContext) (ps : gmap string (gset string))
  : ReconContext :=
  {| scope := scope ctx; config := config ctx; log := log ctx;
     http_client := http_client ctx; session_manager := session_manager ctx;
     findings := findings ctx; screenshots := screenshots ctx;
     state_path := state_path ctx; subdomains := subdomains ctx;
     base_ports := base_ports ctx; web_ports := web_ports ctx;
     nuclei_raw := nuclei_raw ctx; nuclei_urls := nuclei_urls ctx;
     extra := extra ctx; timings := timings ctx; progress_cb := progress_cb ctx;
     _progress_seen := ps;
     verbose_logs := verbose_logs ctx; event_path := event_path ctx |}.

(** What [emit] does to the outside world.  [EventLogWrite p c v] is the
    guarded block that appends the record [{"ts": time.time(),
    "category": c, "value": v}] as one line to the file [p] (an
    exception inside the block is swallowed and changes nothing of what
    follows); [ProgressCall cb c v] is the guarded call [cb(c, v)]. *)
Inductive Effect :=
| EventLogWrite (path category value : string)
| ProgressCall (cb : Py.handle) (category value : string).

(** [seen = self._progress_seen.setdefault(cat, set())]: the map after
    the call and the set it returns. *)
Definition setdefault (cat : string) (ps : gmap string (gset string))
  : gmap string (gset string) * gset string :=
  match ps !! cat with
  | Some seen => (ps, seen)
  | None => (<[cat := ∅]> ps, ∅)
  end.

(** [if self.event_path:] -- set and not the empty string. *)
Definition event_sink (ctx : ReconContext) : option string :=
  match event_path ctx with
  | Some p => if bool_decide (p = "") then None else Some p
  | None => None
  end.

(** [ReconContext.emit]: the context after the call and the effects of
    the call, in order. *)
Definition emit (ctx : ReconContext) (category value : string)
  : ReconContext * list Effect :=
  if bool_decide (category = "") || bool_decide (value = "") then (ctx, [])
  else
    let cat := Py.strip (Py.lower category) in
    let '(ps, seen) := setdefault cat (_progress_seen ctx) in
    if bool_decide (value ∈ seen) then (with_progress_seen ctx ps, [])
    else
      let ps' := <[cat := {[value]} ∪ seen]> ps in
      (with_progress_seen ctx ps',
       (match event_sink ctx with
        | Some p => [EventLogWrite p cat value]
        | None => []
        end ++
        match progress_cb ctx with
        | Some cb => [ProgressCall cb cat value]
        | None => []
        end)%list).

(** A sequence of [emit] calls on the same context, as the units of one
    run issue them: the final context and all effects in order. *)
Fixpoint emit_all (ctx : ReconContext) (calls : list (string * string))
  : ReconContext * list Effect :=
  match calls with
  | [] => (ctx, [])
  | (category, value) :: rest =>
      let '(ctx1, e1) := emit ctx category value in
      let '(ctx2, e2) := emit_all ctx1 rest in
      (ctx2, (e1 ++ e2)%list)
  end.

(** The context a run starts with holds no de-duplication state
    ([field(default_factory=dict)]). *)
Definition fresh (ctx : ReconContext) : Prop := _progress_seen ctx = ∅.

(** Counting effects of one kind for one (category, value) pair. *)
Definition is_log_write (c v : string) (e : Effect) : bool :=
  match e with
  | EventLogWrite _ c' v' => bool_decide (c' = c) && bool_decide (v' = v)
  | ProgressCall _ _ _ => false
  end.

Definition is_progress_call (c v : string) (e : Effect) : bool :=
  match e with
  | ProgressCall _ c' v' => bool_decide (c' = c) && bool_decide (v' = v)
  | EventLogWrite _ _ _ => false
  end.

Definition count_effects (p : Effect → bool) (es : list Effect) : nat :=
  length (List.filter p es).

(** The key under which [emit] files a category: [category.lower().strip()]. *)
Definition category_key (category : string) : string := Py.strip (Py.lower category).

(** The value [v] has been surfaced under the key [key]. *)
Definition seen_pair (ctx : ReconContext) (key v : string) : Prop :=
  ∃ s, _progress_seen ctx !! key = Some s ∧ v ∈ s.

(** A context at the start of a run, with an event log and one progress
    observer configured. *)
Definition demo_context : ReconContext :=
  {| scope := {| host := "example.test"; ip := "192.0.2.10";
                 url := "http://example.test"; mode := "passive" |};
     config := []; log := 0%nat; http_client := None; session_manager := None;
     findings := []; screenshots := []; state_path := None; subdomains := [];
     base_ports := []; web_ports := []; nuclei_raw := ""; nuclei_urls := [];
     extra := []; timings := []; progress_cb := Some 7%nat; _progress_seen := ∅;
     verbose_logs := false; event_path := Some "events.jsonl" |}.

End Models.

(** ** [core/decision_engine.py] *)

Module DecisionEngine.

(** [core/probe.py]: [ProbeResult]. *)
Record ProbeResult := {
  status_code : option Z;
  title : option string;
  server : option string;
  content_length : option Z;
  technologies : list string;
}.

Record ScanTask := {
  task_type : string;
  args : option (list string);
}.

Definition task (ty : string) : ScanTask := {| task_type := ty; args := None |}.

(** [tasks.append(t)] under a condition. *)
Definition append_if (c : bool) (t : ScanTask) (tasks : list ScanTask) : list ScanTask :=
  if c then (tasks ++ [t])%list else tasks.

(** [DecisionEngine.evaluate]. *)
Definition evaluate (probe_result : ProbeResult) : list ScanTask :=
  let tasks := [] in
  let status := status_code probe_result in
  let techs := technologies probe_result in
  let content_length := default 0 (content_length probe_result) in
  let tasks := append_if (bool_decide (status = Some 403)) (task "403_BYPASS") tasks in
  let tasks := append_if (bool_decide ("Jenkins" ∈ techs))
                 {| task_type := "NUCLEI_SCAN"; args := Some ["jenkins-cves"] |} tasks in
  let tasks := append_if (bool_decide ("WordPress" ∈ techs)) (task "WP_SCAN") tasks in
  let tasks := append_if (bool_decide (status = Some 200) && (0 <? content_length))
                 (task "JS_ANALYSIS") tasks in
  let tasks := append_if (bool_decide (status = Some 200)) (task "FUZZING") tasks in
  tasks.

End DecisionEngine.

(** ** [core/http_client.py] *)

Module HttpClient.

Record HttpRequest := {
  method : string;
  url : string;
  headers : list (string * string);
  params : list (string * Py.json);
  data : option Py.json;
  json : option Py.json;
  auth : option (string * string);
  cookies : option (list (string * string));
  proxies : option (list (string * string));
  verify : bool;
  timeout : option Q;
  max_retries : option Z;
  backoff_factor : option Q;
  jitter : option Q;
}.

Record HttpResponse := {
  status_code : Z;
  resp_headers : list (string * string);
  text : string;
  resp_url : string;
}.

(** The attributes of an [HttpClient] object. *)
Record Client := {
  session : Py.handle;
  log_cb : option Py.handle;
  client_proxies : list (string * string);
  default_headers : list (string * string);
  debug : bool;
  client_max_retries : Z;
  client_backoff_factor : Q;
  client_jitter : Q;
  default_timeout : Q;
  throttle_on_429 : bool;
}.

(** [HttpClient(...)] with the constructor's default arguments. *)
Definition default_client : Client :=
  {| session := 0%nat; log_cb := None; client_proxies := []; default_headers := [];
     debug := false; client_max_retries := 3; client_backoff_factor := 1 # 2;
     client_jitter := 1 # 5; default_timeout := 20; throttle_on_429 := true |}.

(** [headers.get(key)] on a [Dict[str, str]]. *)
Fixpoint dict_get (key : string) (d : list (string * string)) : option string :=
  match d with
  | [] => None
  | (k, v) :: d' => if bool_decide (k = key) then Some v else dict_get key d'
  end.

(** What [request] does besides computing its result: the delays it
    sleeps and the messages it hands to [_log], the latter by their
    format and arguments. *)
Inductive Event :=
| Sleep (delay : Q)
| LogServerError (status : Z) (delay : Q)
| LogThrottled (delay : Q)
| LogAttemptFailed (attempt : Z) (exc : Py.exn)
| LogRetrying (delay : Q) (next attempts : Z).

(** How a call ends. *)
Inductive Outcome :=
| Return (resp : HttpResponse)
| Raise (exc : Py.exn).

(** [RuntimeError("HTTP request failed with no response")]. *)
Definition no_response : Py.exn :=
  Py.Exn "RuntimeError" "HTTP request failed with no response".

(** [HttpClient._compute_backoff]; [r] is the value [random.random()]
    yields inside [random.uniform]. *)
Definition _compute_backoff (attempt : Z) (backoff_factor jitter : Q) (r : Q) : Q :=
  let base := (backoff_factor * Qpower 2 (attempt - 1))%Q in
  (base + Py.uniform 0 (Py.max 0 jitter) r)%Q.

Section Builtins.

(** The built-in [float] applied to a header value: the number it
    denotes, or [None] where it raises [ValueError]. *)
Variable float : string → option Q.

(** [HttpClient._retry_after_delay]. *)
Definition _retry_after_delay (headers : list (string * string)) (attempt : Z)
    (backoff_factor jitter : Q) (r : Q) : Q :=
  let retry_after := dict_get "Retry-After" headers in
  match retry_after with
  | Some s =>
      if bool_decide (s = "") then _compute_backoff attempt backoff_factor jitter r
      else
        match float s with
        | Some x => Py.max x (1 # 10)
        | None => _compute_backoff attempt backoff_factor jitter r
        end
  | None => _compute_backoff attempt backoff_factor jitter r
  end.

(** The transport: what [_send_once] does at each attempt, a response or
    a raised exception.  [draw k] is the value of [random.random()] at
    the backoff computed during attempt [k]. *)
Variable send : Z → Py.exn + HttpResponse.
Variable draw : Z → Q.

Variable self : Client.
Variable req : HttpRequest.

(** [max(1, req.max_retries or self.max_retries)]. *)
Definition attempts : Z :=
  Z.max 1 (match max_retries req with
           | Some n => if n =? 0 then client_max_retries self else n
           | None => client_max_retries self
           end).

Definition backoff : Q := default (client_backoff_factor self) (backoff_factor req).
Definition jitter_ : Q := default (client_jitter self) (jitter req).

(** The body of [for attempt in range(1, attempts + 1)], [todo]
    iterations being left, followed by the two [raise] statements after
    the loop. *)
Fixpoint request_loop (todo : nat) (attempt : Z) (last_exc : option Py.exn)
  : Outcome * list Event :=
  match todo with
  | O =>
      (match last_exc with
       | Some exc => Raise exc
       | None => Raise no_response
       end, [])
  | S todo' =>
      match send attempt with
      | inr resp =>
          if (500 <=? status_code resp) && (attempt <? attempts) then
            let delay := _compute_backoff attempt backoff jitter_ (draw attempt) in
            let '(out, evs) := request_loop todo' (attempt + 1) last_exc in
            (out, LogServerError (status_code resp) delay :: Sleep delay :: evs)
          else if (status_code resp =? 429) && throttle_on_429 self then
            let delay :=
              _retry_after_delay (resp_headers resp) attempt backoff jitter_ (draw attempt) in
            let '(out, evs) := request_loop todo' (attempt + 1) last_exc in
            (out, LogThrottled delay :: Sleep delay :: evs)
          else (Return resp, [])
      | inl exc =>
          let last_exc := Some exc in
          if attempt <? attempts then
            let delay := _compute_backoff attempt backoff jitter_ (draw attempt) in
            let '(out, evs) := request_loop todo' (attempt + 1) last_exc in
            (out, LogAttemptFailed attempt exc
                  :: LogRetrying delay (attempt + 1) attempts :: Sleep delay :: evs)
          else
            let '(out, evs) := request_loop todo' (attempt + 1) last_exc in
            (out, LogAttemptFailed attempt exc :: evs)
      end
  end.

(** [HttpClient.request]. *)
Definition request : Outcome * list Event :=
  request_loop (Z.to_nat attempts) 1 None.

End Builtins.

(** [float] on the plain decimal spellings [[-]digits[.digits]]; other
    spellings are not decided here ([None]).  It serves the concrete
    examples only: the theorems hold for every [float]. *)
Definition digit_value (a : ascii) : option Z :=
  let n := nat_of_ascii a in
  if ((48 <=? n)%nat && (n <=? 57)%nat) then Some (Z.of_nat (n - 48)) else None.

Fixpoint read_digits (s : string) (acc : Z) (count : nat) : option (Z * nat * string) :=
  match s with
  | EmptyString => Some (acc, count, EmptyString)
  | String a s' =>
      match digit_value a with
      | Some d => read_digits s' (10 * acc + d) (S count)
      | None => Some (acc, count, s)
      end
  end.

Definition decimal_float (s : string) : option Q :=
  let '(neg, body) :=
    match s with
    | String "-"%char s' => (true, s')
    | _ => (false, s)
    end in
  match read_digits body 0 0 with
  | Some (int_part, n_int, rest) =>
      let signed (q : Q) : Q := if neg then Qopp q else q in
      match rest with
      | EmptyString =>
          if (0 <? n_int)%nat then Some (signed (inject_Z int_part)) else None
      | String "."%char frac =>
          match read_digits frac 0 0 with
          | Some (frac_part, n_frac, EmptyString) =>
              if (0 <? n_int + n_frac)%nat
              then Some (signed (inject_Z int_part
                                 + inject_Z frac_part / inject_Z (10 ^ Z.of_nat n_frac))%Q)
              else None
          | _ => None
          end
      | _ => None
      end
  | None => None
  end.

(** [HttpRequest(method="GET", url=url)] with the dataclass defaults. *)
Definition get_request (url : string) : HttpRequest :=
  {| method := "GET"; url := url; headers := []; params := []; data := None;
     json := None; auth := None; cookies := None; proxies := None; verify := true;
     timeout := None; max_retries := None; backoff_factor := None; jitter := None |}.

(** A response that carries only a status and headers. *)
Definition bare_response (status : Z) (hdrs : list (string * string)) : HttpResponse :=
  {| status_code := status; resp_headers := hdrs; text := ""; resp_url := "" |}.

(** *** Vocabulary of the claims *)

(** The attempt [k] ends with a response that makes the loop go on to
    the next attempt, if there is one. *)
Definition retryable_response (throttle : bool) (resp : HttpResponse) : Prop :=
  500 ≤ status_code resp ∨ (status_code resp = 429 ∧ throttle = true).

(** *** Vocabulary of the attempt loop *)

(** The response [resp] of attempt [k] sends the loop on to the next
    iteration: a server error before the last attempt, or a 429 while
    throttling is on. *)
Definition retried (self : Client) (attempts k : Z) (resp : HttpResponse) : bool :=
  (500 <=? status_code resp) && (k <? attempts)
  || (status_code resp =? 429) && throttle_on_429 self.

(** Attempt [k] does not end the call: it raises, or its response is
    retried. *)
Definition goes_on (self : Client) (attempts : Z) (send : Z → Py.exn + HttpResponse)
    (k : Z) : Prop :=
  match send k with
  | inl _ => True
  | inr resp => retried self attempts k resp = true
  end.

(** The delays slept, in order. *)
Definition sleeps (evs : list Event) : list Q :=
  omap (λ e, match e with Sleep d => Some d | _ => None end) evs.


End HttpClient.

(** ** [apps/recon.py]: the task-queue driven loop *)

Module TaskQueue.

Import DecisionEngine.

(** [TaskContext]; [logged] collects the messages handed to [log_cb]. *)
Record TaskContext := {
  logged : list string;
  findings : list string;
  new_endpoints : list string;
}.

Definition empty_context : TaskContext :=
  {| logged := []; findings := []; new_endpoints := [] |}.

(** [TaskContext.log]. *)
Definition log (ctx : TaskContext) (message : string) : TaskContext :=
  {| logged := logged ctx ++ [message]; findings := findings ctx;
     new_endpoints := new_endpoints ctx |}.

(** [ctx.new_endpoints.clear()]. *)
Definition clear_endpoints (ctx : TaskContext) : TaskContext :=
  {| logged := logged ctx; findings := findings ctx; new_endpoints := [] |}.

(** [_normalize_target]. *)
Definition _normalize_target (target : string) : string :=
  if Py.startswith target "http://" || Py.startswith target "https://"
  then Py.rstrip_slash target
  else Py.rstrip_slash ("http://" +:+ target).

(** The state of [run_task_queue] between two iterations of its [while]
    loop.  [queue], [seen] and [ctx] are the local variables; [popped]
    records the results of [queue.pop(0)] and [probed] the arguments of
    [probe.probe_url], both in order. *)
Record LoopState := {
  queue : list string;
  seen : gset string;
  ctx : TaskContext;
  popped : list string;
  probed : list string;
}.

(** The [for ep in ctx.new_endpoints] loop. *)
Definition enqueue (seen : gset string) (queue : list string) (eps : list string)
  : list string :=
  fold_left
    (λ q ep, if bool_decide (ep ∉ seen) && bool_decide (ep ∉ q) then q ++ [ep] else q)
    eps queue.

(** The block under [if ctx.new_endpoints:]. *)
Definition collect (seen : gset string) (queue : list string) (ctx : TaskContext)
  : list string * TaskContext :=
  match new_endpoints ctx with
  | [] => (queue, ctx)
  | eps => (enqueue seen queue eps, clear_endpoints ctx)
  end.

(** [f"{probe_result.status_code}"]. *)
Definition show_status (status : option Z) : string :=
  match status with
  | Some n => Py.str_of_int n
  | None => "None"
  end.

Section Loop.

(** The collaborators: [SmartProbe.probe_url] and the [run] methods of
    the three task modules, each constructed on the target. *)
Variable probe_url : string → ProbeResult.
Variable bypass_run : string → TaskContext → TaskContext.
Variable fuzzer_run : string → TaskContext → TaskContext.
Variable js_spider_run : string → TaskContext → TaskContext.

(** [_execute_task]. *)
Definition _execute_task (task : ScanTask) (target : string) (ctx : TaskContext)
  : TaskContext :=
  let ttype := Py.upper (task_type task) in
  if bool_decide (ttype = "403_BYPASS") then bypass_run target ctx
  else if bool_decide (ttype = "FUZZING") then fuzzer_run target ctx
  else if bool_decide (ttype = "JS_ANALYSIS") then js_spider_run target ctx
  else log ctx ("[Task] " +:+ ttype +:+ " not implemented in Task Queue; skipping.").

(** The [for task in tasks] loop. *)
Fixpoint run_tasks (tasks : list ScanTask) (target : string) (seen : gset string)
    (queue : list string) (ctx : TaskContext) : list string * TaskContext :=
  match tasks with
  | [] => (queue, ctx)
  | task :: rest =>
      let ctx := _execute_task task target ctx in
      let '(queue, ctx) := collect seen queue ctx in
      run_tasks rest target seen queue ctx
  end.

(** One iteration of [while queue:], the queue being non-empty. *)
Definition iteration (st : LoopState) : LoopState :=
  match queue st with
  | [] => st
  | target :: rest =>
      if bool_decide (target ∈ seen st) then
        {| queue := rest; seen := seen st; ctx := ctx st;
           popped := popped st ++ [target]; probed := probed st |}
      else
        let seen' := {[target]} ∪ seen st in
        let c := log (ctx st) ("[Queue] Probing " +:+ target) in
        let probe_result := probe_url target in
        let c := log c (Py.strip ("[Probe] " +:+ target +:+ " -> "
                                  +:+ show_status (status_code probe_result) +:+ " "
                                  +:+ default "" (title probe_result))) in
        let tasks := evaluate probe_result in
        let c := log c ("[Queue] " +:+ Py.str_of_int (Z.of_nat (length tasks))
                        +:+ " follow-up tasks for " +:+ target) in
        let '(q, c) := run_tasks tasks target seen' rest c in
        {| queue := q; seen := seen'; ctx := c;
           popped := popped st ++ [target]; probed := probed st ++ [target] |}
  end.

(** The state before the loop. *)
Definition initial (initial_targets : list string) : LoopState :=
  {| queue := _normalize_target <$> initial_targets; seen := ∅;
     ctx := empty_context; popped := []; probed := [] |}.

(** The state after [n] iterations. *)
Fixpoint after (n : nat) (st : LoopState) : LoopState :=
  match n with
  | O => st
  | S n' => after n' (iteration st)
  end.

(** [while queue:] with a bound on the number of iterations; [None] when
    the bound is reached with targets still queued. *)
Fixpoint while_queue (fuel : nat) (st : LoopState) : option LoopState :=
  match queue st with
  | [] => Some st
  | _ :: _ =>
      match fuel with
      | O => None
      | S fuel' => while_queue fuel' (iteration st)
      end
  end.

(** [run_task_queue]. *)
Definition run_task_queue (fuel : nat) (initial_targets : list string)
  : option TaskContext :=
  ctx <$> while_queue fuel (initial initial_targets).

End Loop.

(** Removing repeated elements, the first occurrence being kept. *)
Fixpoint first_occurrences (seen : gset string) (l : list string) : list string :=
  match l with
  | [] => []
  | x :: l' =>
      if bool_decide (x ∈ seen) then first_occurrences seen l'
      else x :: first_occurrences ({[x]} ∪ seen) l'
  end.

(** Everything that has been in the queue so far, in the order in which
    it entered: what was popped, then what still waits. *)
Definition enqueued (st : LoopState) : list string := popped st ++ queue st.

(** What holds between any two iterations: the seen-set holds the
    targets popped so far, and the probes are the pops without their
    repetitions, in the same order. *)
Definition loop_invariant_holds (st : LoopState) : Prop :=
  seen st = list_to_set (popped st)
  ∧ probed st = first_occurrences ∅ (popped st).

(** A task module that reports endpoints of the finite collection [U]
    only. *)
Definition reports_within (U : list string)
    (module_run : string → TaskContext → TaskContext) : Prop :=
  ∀ target ctx ep, ep ∈ new_endpoints (module_run target ctx) →
                   ep ∈ new_endpoints ctx ∨ ep ∈ U.

(** The number of iterations still to come, when the endpoints that can
    be discovered are those of [U]: the targets queued and the endpoints
    of [U] neither seen nor queued. *)
Definition remaining (U : list string) (st : LoopState) : nat :=
  (length (queue st)
   + size (list_to_set U ∖ (seen st ∪ list_to_set (queue st)) : gset string))%nat.

Section Discovery.

Variable probe_url : string → ProbeResult.
Variable bypass_run fuzzer_run js_spider_run : string → TaskContext → TaskContext.

(** The endpoints that the tasks of a target report, task after task:
    what each task leaves in [ctx.new_endpoints], the list being emptied
    before the next task runs. *)
Fixpoint reported (tasks : list ScanTask) (target : string) (ctx : TaskContext)
  : list string :=
  match tasks with
  | [] => []
  | task :: rest =>
      let ctx := _execute_task bypass_run fuzzer_run js_spider_run task target ctx in
      new_endpoints ctx ++ reported rest target (clear_endpoints ctx)
  end.

(** The endpoints discovered during the iteration that starts in [st],
    in the order of their discovery: those reported by the follow-up
    tasks of the target at the head of the queue, which find the context
    with the three messages of the iteration logged.  A target seen
    before has no tasks run. *)
Definition discovered (st : LoopState) : list string :=
  match queue st with
  | [] => []
  | target :: _ =>
      if bool_decide (target ∈ seen st) then []
      else
        let probe_result := probe_url target in
        let tasks := evaluate probe_result in
        let c := log (ctx st) ("[Queue] Probing " +:+ target) in
        let c := log c (Py.strip ("[Probe] " +:+ target +:+ " -> "
                                  +:+ show_status (status_code probe_result) +:+ " "
                                  +:+ default "" (title probe_result))) in
        let c := log c ("[Queue] " +:+ Py.str_of_int (Z.of_nat (length tasks))
                        +:+ " follow-up tasks for " +:+ target) in
        reported tasks target c
  end.

End Discovery.

(** *** Collaborators of the examples *)

(** A probe that answers every URL with status 200 and an empty body:
    the decision engine proposes one task, [FUZZING]. *)
Definition demo_probe (url : string) : ProbeResult :=
  {| status_code := Some 200; title := None; server := None;
     content_length := Some 0; technologies := [] |}.

(** A task module that does nothing. *)
Definition idle_run (target : string) (ctx : TaskContext) : TaskContext := ctx.

(** A fuzzer run that reports the endpoint [hit] when it is run on
    [origin], and nothing elsewhere ([FuzzerModule.run]: each hit not yet
    in [ctx.new_endpoints] is appended to it and recorded as a finding). *)
Definition demo_fuzzer (origin hit : string) (target : string) (ctx : TaskContext)
  : TaskContext :=
  if bool_decide (target = origin) then
    {| logged := logged ctx;
       findings := findings ctx ++ ["[Fuzzer] Found endpoint " +:+ hit];
       new_endpoints :=
         if bool_decide (hit ∈ new_endpoints ctx) then new_endpoints ctx
         else new_endpoints ctx ++ [hit] |}
  else ctx.

End TaskQueue.

(** ** [core/recon.py]: resolution of the module layers *)

Module Recon.

(** What the scheduler reads of a module object ([modules/base_module.py]):
    its name, its [enabled] flag, its declared dependencies, and the
    object itself, which carries [run]. *)
Record BaseModule := {
  name : string;
  enabled : bool;
  depends_on : list string;
  run : Py.handle;
}.

(** A [dict] with string keys, in insertion order. *)
Abbreviation odict V := (list (string * V)).

(** [d.get(k)]. *)
Fixpoint od_get {V} (k : string) (d : odict V) : option V :=
  match d with
  | [] => None
  | (k', v) :: d' => if bool_decide (k' = k) then Some v else od_get k d'
  end.

(** [d[k] = v]: an existing key keeps its place, a new one goes last. *)
Fixpoint od_set {V} (k : string) (v : V) (d : odict V) : odict V :=
  match d with
  | [] => [(k, v)]
  | (k', v') :: d' =>
      if bool_decide (k' = k) then (k, v) :: d' else (k', v') :: od_set k v d'
  end.

(** The keys, in iteration order; [k in d] is [k ∈ od_keys d]. *)
Definition od_keys {V} (d : odict V) : list string := fst <$> d.

(** How the function ends: with a value, with the [KeyError] of a failed
    subscript, or (for the bounded [while] loop) without an answer. *)
Inductive outcome (A : Type) :=
| Ok (a : A)
| KeyError (key : string)
| OutOfFuel.

Arguments Ok {A} a.
Arguments KeyError {A} key.
Arguments OutOfFuel {A}.

(** [{m.name: m for m in modules if getattr(m, "enabled", True)}]. *)
Definition build_active (modules : list BaseModule) : odict BaseModule :=
  fold_left (λ d m, od_set (name m) m d) (filter (λ m, enabled m) modules) [].

Definition missing_deps_message (name : string) (missing : list string) : string :=
  "[Module] " +:+ name +:+ " missing deps " +:+ Py.join ", " missing
  +:+ "; continuing without them.".

Definition fallback_message : string :=
  "[Module] Dependency cycle or unresolved modules detected; using original order fallback.".

(** The first [for] loop: [deps_map] and the messages logged. *)
Definition deps_step (active : odict BaseModule)
    (acc : odict (list string) * list string) (item : string * BaseModule)
  : odict (list string) * list string :=
  let '(deps_map, logs) := acc in
  let '(name, module) := item in
  let deps := depends_on module in
  let missing := filter (λ d, d ∉ od_keys active) deps in
  let logs :=
    match missing with
    | [] => logs
    | _ :: _ => logs ++ [missing_deps_message name missing]
    end in
  (od_set name (filter (λ d, d ∈ od_keys active) deps) deps_map, logs).

Definition build_deps_map (active : odict BaseModule)
  : odict (list string) * list string :=
  fold_left (deps_step active) active ([], []).

(** [{name: len(deps) for name, deps in deps_map.items()}]. *)
Definition build_indegree (deps_map : odict (list string)) : odict Z :=
  fold_left (λ d item, od_set item.1 (Z.of_nat (length item.2)) d) deps_map [].

(** [graph[dep].append(name)] on a [defaultdict(list)]. *)
Definition graph_append (graph : gmap string (list string)) (dep name : string)
  : gmap string (list string) :=
  <[dep := default [] (graph !! dep) ++ [name]]> graph.

Definition build_graph (deps_map : odict (list string)) : gmap string (list string) :=
  fold_left (λ g item, fold_left (λ g dep, graph_append g dep item.1) item.2 g) deps_map ∅.

(** [[name for name, deg in indegree.items() if deg == 0]]. *)
Definition initial_ready (indegree : odict Z) : list string :=
  fst <$> filter (λ item, item.2 = 0) indegree.

(** The loop [for dep in graph.get(name, [])]. *)
Fixpoint release (deps : list string) (indegree : odict Z) (next_ready : list string)
  : outcome (odict Z * list string) :=
  match deps with
  | [] => Ok (indegree, next_ready)
  | dep :: rest =>
      match od_get dep indegree with
      | None => KeyError dep
      | Some deg =>
          let indegree := od_set dep (deg - 1) indegree in
          if bool_decide (deg - 1 = 0)
          then release rest indegree (next_ready ++ [dep])
          else release rest indegree next_ready
      end
  end.

(** The variables the loop [for name in ready] updates. *)
Record Sweep := {
  indegree : odict Z;
  visited : gset string;
  current_layer : list BaseModule;
  next_ready : list string;
}.

Section Resolve.

Variable active : odict BaseModule.
Variable graph : gmap string (list string).

(** The loop [for name in ready]. *)
Fixpoint sweep (ready : list string) (s : Sweep) : outcome Sweep :=
  match ready with
  | [] => Ok s
  | name :: rest =>
      if bool_decide (name ∈ visited s) then sweep rest s
      else
        let visited' := {[name]} ∪ visited s in
        let layer :=
          match od_get name active with
          | Some module => current_layer s ++ [module]
          | None => current_layer s
          end in
        match release (default [] (graph !! name)) (indegree s) (next_ready s) with
        | Ok (indegree', next_ready') =>
            sweep rest {| indegree := indegree'; visited := visited';
                          current_layer := layer; next_ready := next_ready' |}
        | KeyError k => KeyError k
        | OutOfFuel => OutOfFuel
        end
  end.

(** [while ready:], at most [fuel] iterations. *)
Fixpoint while_ready (fuel : nat) (indegree : odict Z) (visited : gset string)
    (layers : list (list BaseModule)) (ready : list string)
  : outcome (gset string * list (list BaseModule)) :=
  match ready with
  | [] => Ok (visited, layers)
  | _ :: _ =>
      match fuel with
      | O => OutOfFuel
      | S fuel' =>
          match sweep ready {| indegree := indegree; visited := visited;
                               current_layer := []; next_ready := [] |} with
          | Ok s =>
              let layers :=
                match current_layer s with
                | [] => layers
                | _ :: _ => layers ++ [current_layer s]
                end in
              while_ready fuel' (Recon.indegree s) (Recon.visited s) layers (next_ready s)
          | KeyError k => KeyError k
          | OutOfFuel => OutOfFuel
          end
      end
  end.

End Resolve.

(** [_resolve_module_layers]: the layers returned and the messages
    logged.  The [while] loop is given one iteration per active module
    and one more. *)
Definition _resolve_module_layers (modules : list BaseModule)
  : outcome (list (list BaseModule) * list string) :=
  let active := build_active modules in
  let '(deps_map, logs) := build_deps_map active in
  let indegree := build_indegree deps_map in
  let graph := build_graph deps_map in
  let ready := initial_ready indegree in
  match while_ready active graph (S (length active)) indegree ∅ [] ready with
  | Ok (visited, layers) =>
      if bool_decide (size visited ≠ length active)
      then Ok ((λ m, [m]) <$> filter (λ m, enabled m) modules, logs ++ [fallback_message])
      else Ok (layers, logs)
  | KeyError k => KeyError k
  | OutOfFuel => OutOfFuel
  end.

(** [_execute_layers] creates one task running [_run_module] for each
    module of each layer: the modules launched, in order. *)
Definition launched (layers : list (list BaseModule)) : list BaseModule := concat layers.

(** *** Vocabulary of the claims *)

Definition enabled_units (modules : list BaseModule) : list BaseModule :=
  filter (λ m, enabled m) modules.

Definition enabled_names (modules : list BaseModule) : list string :=
  name <$> enabled_units modules.

(** Names are unique keys among the enabled units. *)
Definition unique_names (modules : list BaseModule) : Prop :=
  NoDup (enabled_names modules).

(** [depends modules a b]: the enabled unit [a] declares a dependency on
    the enabled unit [b]. *)
Definition depends (modules : list BaseModule) (a b : string) : Prop :=
  ∃ m, m ∈ enabled_units modules ∧ name m = a ∧ b ∈ depends_on m
       ∧ b ∈ enabled_names modules.

Definition acyclic (modules : list BaseModule) : Prop :=
  ∀ n, ¬ tc (depends modules) n n.

Definition has_cycle (modules : list BaseModule) : Prop :=
  ∃ n, tc (depends modules) n n.

(** The unit [m] sits in the layer of index [i]. *)
Definition in_layer (layers : list (list BaseModule)) (m : BaseModule) (i : nat) : Prop :=
  ∃ layer, layers !! i = Some layer ∧ m ∈ layer.

(** A module with its dependencies on disabled or absent units removed. *)
Definition drop_missing (modules : list BaseModule) (m : BaseModule) : BaseModule :=
  {| name := name m; enabled := enabled m;
     depends_on := filter (λ d, d ∈ enabled_names modules) (depends_on m);
     run := run m |}.

(** The dependencies of [m] on disabled or absent units. *)
Definition missing_deps (modules : list BaseModule) (m : BaseModule) : list string :=
  filter (λ d, d ∉ enabled_names modules) (depends_on m).

(** *** The module chain of the repository *)

Definition unit_ (n : string) (on : bool) (deps : list string) (obj : Py.handle)
  : BaseModule :=
  {| name := n; enabled := on; depends_on := deps; run := obj |}.

(** [_build_module_chain(config)], as far as the scheduler reads it: the
    eleven modules in construction order, with the dependencies their
    classes declare.  The screenshotter is off unless configured; the
    switch of the subdomain module is the argument. *)
Definition module_chain (subdomains_enabled : bool) : list BaseModule :=
  [ unit_ "subdomains" subdomains_enabled [] 1;
    unit_ "base_ports" true [] 2;
    unit_ "endpoint_collector" true ["subdomains"] 3;
    unit_ "web_services" true ["subdomains"] 4;
    unit_ "web_probe" true ["web_services"] 5;
    unit_ "secrets_scanner" true ["web_services"] 6;
    unit_ "nuclei" true ["web_services"] 7;
    unit_ "lfi_scanner" true ["web_services"] 8;
    unit_ "sqli_scanner" true ["web_services"] 9;
    unit_ "redirect_tester" true ["web_services"] 10;
    unit_ "screenshotter" false ["web_services"] 11 ]%nat.

(** A height for the names of the chain: a unit is higher than what it
    depends on. *)
Definition chain_rank (n : string) : nat :=
  if bool_decide (n ∈ ["subdomains"; "base_ports"]) then 0
  else if bool_decide (n ∈ ["endpoint_collector"; "web_services"]) then 1
  else 2.

(** Two units that depend on each other, and a third one. *)
Definition cyclic_chain : list BaseModule :=
  [ unit_ "web_services" true ["web_probe"] 4;
    unit_ "base_ports" true [] 2;
    unit_ "web_probe" true ["web_services"] 5 ]%nat.

End Recon.

(** ** Invariants of the layer resolution *)

Module ReconInv.

Import Recon.

(** The number of occurrences of [x] in [l]. *)
Definition occ (x : string) (l : list string) : nat :=
  length (filter (λ y, y = x) l).

Section Invariants.

(** The dependency table the loops work on, and the active modules. *)
Variable deps_map : odict (list string).
Variable active : odict BaseModule.

(** The dependencies kept for a name. *)
Definition deps_of (n : string) : list string := default [] (od_get n deps_map).

(** The dependencies of [n], counted with repetitions, that are not yet
    visited. *)
Definition pending (V : gset string) (n : string) : nat :=
  length (filter (λ d, d ∉ V) (deps_of n)).

(** The table is well formed: each name once, the same names as the
    active modules, every dependency a name of the table. *)
Record well_formed : Prop := {
  wf_nodup : NoDup (od_keys deps_map);
  wf_active : od_keys active = od_keys deps_map;
  wf_active_name : ∀ n m, od_get n active = Some m → name m = n;
  wf_closed : ∀ n d, d ∈ deps_of n → d ∈ od_keys deps_map;
}.

(** During [for dep in graph.get(name, [])], [todo] being the dependents
    still to come and [V] the visited set, [name] included; [V0] is the
    visited set at the start of the current layer. *)
Record release_inv (V0 V : gset string) (todo : list string)
    (indegree : odict Z) (next_ready : list string) : Prop := {
  ri_keys : od_keys indegree = od_keys deps_map;
  ri_count : ∀ n, n ∈ od_keys deps_map →
               od_get n indegree = Some (Z.of_nat (pending V n + occ n todo));
  ri_nodup : NoDup next_ready;
  ri_next : ∀ n, n ∈ next_ready ↔
               n ∈ od_keys deps_map ∧ pending V0 n ≠ 0%nat
               ∧ (pending V n + occ n todo = 0)%nat;
}.

(** During [for name in ready], [done] being the names already handled
    and [todo] those still to come. *)
Record sweep_inv (V0 : gset string) (done todo : list string) (s : Sweep) : Prop := {
  si_release : release_inv V0 (visited s) [] (indegree s) (next_ready s);
  si_visited : visited s = V0 ∪ list_to_set done;
  si_layer : name <$> current_layer s = done;
  si_layer_active : ∀ m, m ∈ current_layer s → od_get (name m) active = Some m;
}.

(** Between two iterations of [while ready]. *)
Record outer_inv (indegree : odict Z) (V : gset string)
    (layers : list (list BaseModule)) (ready : list string) : Prop := {
  oi_keys : od_keys indegree = od_keys deps_map;
  oi_count : ∀ n, n ∈ od_keys deps_map →
               od_get n indegree = Some (Z.of_nat (pending V n));
  oi_ready_nodup : NoDup ready;
  oi_ready : ∀ n, n ∈ ready ↔ n ∈ od_keys deps_map ∧ (n ∉ V) ∧ pending V n = 0%nat;
  oi_visited : V = list_to_set (name <$> concat layers);
  oi_nodup : NoDup (name <$> concat layers);
  oi_names : ∀ n, n ∈ V → n ∈ od_keys deps_map;
  oi_active : ∀ m, m ∈ concat layers → od_get (name m) active = Some m;
  oi_edges : ∀ i layer m d, layers !! i = Some layer → m ∈ layer →
               d ∈ deps_of (name m) →
               ∃ j layer' m', (j < i)%nat ∧ layers !! j = Some layer'
                              ∧ m' ∈ layer' ∧ name m' = d;
}.

End Invariants.

(** Replacing each module of a layer, of a sweep, of a table. *)
Definition relabel_sweep (f : BaseModule → BaseModule) (s : Sweep) : Sweep :=
  {| indegree := indegree s; visited := visited s;
     current_layer := f <$> current_layer s; next_ready := next_ready s |}.

Definition relabel_layers (f : BaseModule → BaseModule)
    (layers : list (list BaseModule)) : list (list BaseModule) :=
  (λ layer : list BaseModule, f <$> layer) <$> layers.

End ReconInv.

(** ** [core/recon.py]: running the layers *)

Module Scheduler.

Import Recon.

(** What [_run_module] does that can be observed: the log lines
    [<name> disabled; skipping.], [<name> failed: <exc>] and
    [<name> finished in <duration>s], by their arguments, and the moment
    [module.run(ctx)] is entered. *)
Inductive Event :=
| Skipped (m : BaseModule)
| Started (m : BaseModule)
| Failed (m : BaseModule) (error : string)
| Finished (m : BaseModule) (duration : Q).

Definition module_of (e : Event) : BaseModule :=
  match e with
  | Skipped m | Started m | Failed m _ | Finished m _ => m
  end.

(** What [_execute_layers] and its tasks share: [ctx.timings], the list
    [errors] of (module, error) records, and the events so far.  The
    writes of the modules themselves go to other parts of the context
    and are left out. *)
Record State := {
  timings : odict Q;
  errors : list (string * string);
  events : list Event;
}.

Section Run.

(** [run_result m] is what [module.run(ctx)] comes to: [None] when it
    returns, [Some msg] when it raises an [Exception] whose [str] is
    [msg].  [elapsed m] is the difference of the two readings of
    [time.perf_counter()]. *)
Variable run_result : BaseModule → option string.
Variable elapsed : BaseModule → Q.

(** [_run_module] up to its [await]: a disabled module is finished by
    then, an enabled one is left running ([true]). *)
Definition begin_module (m : BaseModule) (st : State) : State * bool :=
  if enabled m then
    ({| timings := timings st; errors := errors st;
        events := events st ++ [Started m] |}, true)
  else
    ({| timings := od_set (name m) 0%Q (timings st); errors := errors st;
        events := events st ++ [Skipped m] |}, false).

(** [_run_module] from the end of [module.run] on: the [except] block
    and the [finally] block. *)
Definition end_module (m : BaseModule) (st : State) : State :=
  let '(errs, evs) :=
    match run_result m with
    | Some error => (errors st ++ [(name m, error)], events st ++ [Failed m error])
    | None => (errors st, events st)
    end in
  {| timings := od_set (name m) (elapsed m) (timings st); errors := errs;
     events := evs ++ [Finished m (elapsed m)] |}.

(** The tasks of one layer under [asyncio.gather]: those created and
    not yet started, in creation order, and those suspended in
    [module.run].  The event loop starts the tasks in creation order and
    lets any suspended task run to its end. *)
Record Gather := {
  created : list BaseModule;
  running : list BaseModule;
  state : State;
}.

Inductive Choice :=
| StartNext
| Complete (k : nat).

Definition step (c : Choice) (g : Gather) : option Gather :=
  match c with
  | StartNext =>
      match created g with
      | [] => None
      | m :: rest =>
          let '(st, suspended) := begin_module m (state g) in
          Some {| created := rest;
                  running := if suspended then running g ++ [m] else running g;
                  state := st |}
      end
  | Complete k =>
      match running g !! k with
      | None => None
      | Some m =>
          Some {| created := created g; running := delete k (running g);
                  state := end_module m (state g) |}
      end
  end.

Fixpoint steps (schedule : list Choice) (g : Gather) : option Gather :=
  match schedule with
  | [] => Some g
  | c :: rest =>
      match step c g with
      | Some g' => steps rest g'
      | None => None
      end
  end.

(** [await asyncio.gather] on the tasks of [layer], the event
    loop following [schedule]: the state once every task is done, or
    [None] when the schedule is not one of this layer (it asks for a
    task that does not exist, or leaves one unfinished). *)
Definition gather (layer : list BaseModule) (schedule : list Choice) (st : State)
  : option State :=
  match steps schedule {| created := layer; running := []; state := st |} with
  | Some {| created := []; running := []; state := st' |} => Some st'
  | _ => None
  end.

(** The loop [for layer in layers], one schedule per layer.  For a layer
    without modules nothing is awaited, which is [gather] on the empty
    schedule. *)
Fixpoint run_layers (layers : list (list BaseModule)) (schedules : list (list Choice))
    (st : State) : option State :=
  match layers, schedules with
  | [], [] => Some st
  | layer :: layers', schedule :: schedules' =>
      match gather layer schedule st with
      | Some st' => run_layers layers' schedules' st'
      | None => None
      end
  | _, _ => None
  end.

(** [_execute_layers]: [ctx.timings] afterwards, the value assigned to
    [ctx.extra["module_errors"]] if one is assigned, and the events. *)
Definition _execute_layers (layers : list (list BaseModule))
    (schedules : list (list Choice)) (timings0 : odict Q)
  : option (odict Q * option (list (string * string)) * list Event) :=
  match run_layers layers schedules {| timings := timings0; errors := []; events := [] |} with
  | Some st =>
      Some (timings st,
            match errors st with
            | [] => None
            | _ :: _ => Some (errors st)
            end,
            events st)
  | None => None
  end.

(** The record [_run_module] appends to [errors] for a module. *)
Definition failure (m : BaseModule) : option (string * string) :=
  if enabled m then (λ error, (name m, error)) <$> run_result m else None.

(** What [_run_module] writes to [ctx.timings] for a module. *)
Definition recorded (m : BaseModule) : Q := if enabled m then elapsed m else 0%Q.

(** The schedule that starts every task of a layer and then lets them
    end in creation order. *)
Definition in_turn (layer : list BaseModule) : list Choice :=
  ((λ _, StartNext) <$> layer) ++ ((λ _, Complete 0) <$> enabled_units layer).

End Run.

(** *** Vocabulary *)

Definition started (evs : list Event) : list BaseModule :=
  omap (λ e, match e with Started m => Some m | _ => None end) evs.

Definition finished (evs : list Event) : list BaseModule :=
  omap (λ e, match e with Finished m _ => Some m | _ => None end) evs.

Definition skipped (evs : list Event) : list BaseModule :=
  omap (λ e, match e with Skipped m => Some m | _ => None end) evs.

(** The events of one layer: they concern modules of the layer only,
    every enabled module of the layer is entered and left, every
    disabled one is skipped. *)
Definition block_of_layer (layer : list BaseModule) (block : list Event) : Prop :=
  (∀ e, e ∈ block → module_of e ∈ layer)
  ∧ (∀ m, m ∈ layer → enabled m = true →
       Started m ∈ block ∧ ∃ d, Finished m d ∈ block)
  ∧ (∀ m, m ∈ layer → enabled m = false → Skipped m ∈ block).

(** *** Invariants of a run

    [order] lists the modules whose task is done, in the order in which
    they came to their end. *)

Section Invariants.

Variable run_result : BaseModule → option string.
Variable elapsed : BaseModule → Q.

(** The state [st] when the tasks of [order] are done and those of
    [active] are suspended, [st0] being the state before any of them was
    created and [block] the events since. *)
Record progress (st0 : State) (order active : list BaseModule) (block : list Event)
    (st : State) : Prop := {
  pr_events : events st = events st0 ++ block;
  pr_modules : ∀ e, e ∈ block → module_of e ∈ order ++ active;
  pr_started : started block ≡ₚ enabled_units (order ++ active);
  pr_finished : finished block = enabled_units order;
  pr_skipped : skipped block = filter (λ m, ¬ enabled m) order;
  pr_errors : errors st = errors st0 ++ omap (failure run_result) order;
  pr_untouched : ∀ n, n ∉ name <$> order → od_get n (timings st) = od_get n (timings st0);
  pr_timings : ∀ m, m ∈ order →
                 ∃ m', m' ∈ order ∧ name m' = name m
                       ∧ od_get (name m) (timings st) = Some (recorded elapsed m');
}.

(** During [gather] on [layer]. *)
Record gather_inv (layer : list BaseModule) (st0 : State) (order : list BaseModule)
    (block : list Event) (g : Gather) : Prop := {
  gi_split : layer ≡ₚ order ++ running g ++ created g;
  gi_running : ∀ m, m ∈ running g → enabled m = true;
  gi_progress : progress st0 order (running g) block (state g);
}.

End Invariants.

End Scheduler.

(** ** [state_manager.py]: the snapshot of a run *)

Module StateManager.

Import Py Models.

(** [ScopeState] and [ReconStateModel], the schema of a snapshot. *)
Record ScopeState := {
  s_host : string;
  s_ip : string;
  s_url : string;
  s_mode : string;
}.

Record ReconStateModel := {
  m_scope : ScopeState;
  m_config : list (string * json);
  m_subdomains : list string;
  m_base_ports : list (Z * string);
  m_web_ports : list (string * list Z);
  m_nuclei_raw : string;
  m_nuclei_urls : list string;
  m_findings : list string;
  m_screenshots : list string;
  m_extra : list (string * json);
  m_timings : list (string * Q);
}.

(** What [load_state] returns: the empty dictionary, the dictionary
    [model_dump()] makes of a validated model, or the parsed document as
    it stands. *)
Inductive Loaded :=
| NoSnapshot
| Dumped (model : ReconStateModel)
| Parsed (members : list (string * json)).

Inductive Outcome :=
| Return (state : Loaded)
| Raise (exc : exn).

(** The exception raised when [ReconStateModel] is called on the unpacking
    of something that is not a mapping. *)
Definition not_a_mapping : exn :=
  Exn "TypeError" "argument after ** must be a mapping".

(** The document [json.dumps] writes for the dictionary [state] that
    [save_state] builds: integer keys become their decimal strings. *)
Definition strings (l : list string) : json := JArr (JStr <$> l).

Definition state_members (ctx : ReconContext) : list (string * json) :=
  [ ("scope", JObj [ ("host", JStr (host (scope ctx))); ("ip", JStr (ip (scope ctx)));
                     ("url", JStr (url (scope ctx))); ("mode", JStr (mode (scope ctx))) ]);
    ("config", JObj (config ctx));
    ("subdomains", strings (subdomains ctx));
    ("base_ports", JObj ((λ item, (str_of_int item.1, JStr item.2)) <$> base_ports ctx));
    ("web_ports", JObj ((λ item, (item.1, JArr (JInt <$> item.2))) <$> web_ports ctx));
    ("nuclei_raw", JStr (nuclei_raw ctx));
    ("nuclei_urls", strings (nuclei_urls ctx));
    ("findings", strings (findings ctx));
    ("screenshots", strings (screenshots ctx));
    ("extra", JObj (extra ctx));
    ("timings", JObj ((λ item, (item.1, JFloat item.2)) <$> timings ctx)) ].

Definition state_document (ctx : ReconContext) : json := JObj (state_members ctx).

(** The model whose fields are those of the context. *)
Definition model_of (ctx : ReconContext) : ReconStateModel :=
  {| m_scope := {| s_host := host (scope ctx); s_ip := ip (scope ctx);
                   s_url := url (scope ctx); s_mode := mode (scope ctx) |};
     m_config := config ctx; m_subdomains := subdomains ctx;
     m_base_ports := base_ports ctx; m_web_ports := web_ports ctx;
     m_nuclei_raw := nuclei_raw ctx; m_nuclei_urls := nuclei_urls ctx;
     m_findings := findings ctx; m_screenshots := screenshots ctx;
     m_extra := extra ctx; m_timings := timings ctx |}.

(** A file of the file system: its bytes, or something [read_bytes]
    fails on. *)
Inductive File (bytes : Type) :=
| Readable (content : bytes)
| Unreadable.

Arguments Readable {bytes} content.
Arguments Unreadable {bytes}.

Section Libraries.

(** The libraries [save_state] and [load_state] call.  The text of a
    document and the bytes of a file only pass from one call to the
    next, so their types are left open.  A decoder yields [None] where
    the Python function raises. *)
Variable text bytes : Type.
Variable gzip_compress : bytes → bytes.
Variable gzip_decompress : bytes → option bytes.
Variable utf8_encode : text → bytes.
Variable utf8_decode : bytes → option text.
Variable json_dumps : json → text.
Variable json_loads : text → option json.

(** [_HAS_PYDANTIC], and the validation that the call of [ReconStateModel]
    on the unpacked mapping performs, given the members of the mapping
    ([None] for [ValidationError]). *)
Variable has_pydantic : bool.
Variable validate : list (string * json) → option ReconStateModel.

(** [save_state]: the file system after the call. *)
Definition save_state (ctx : ReconContext) (path : string)
    (fs : gmap string (File bytes)) : gmap string (File bytes) :=
  let payload := json_dumps (state_document ctx) in
  let compressed := gzip_compress (utf8_encode payload) in
  <[path := Readable compressed]> fs.

(** The two nested [try] blocks that produce [text]. *)
Definition read_text (raw : bytes) : option text :=
  match gzip_decompress raw ≫= utf8_decode with
  | Some t => Some t
  | None => utf8_decode raw
  end.

(** [load_state]. *)
Definition load_state (path : string) (fs : gmap string (File bytes)) : Outcome :=
  match fs !! path with
  | None => Return NoSnapshot
  | Some Unreadable => Return NoSnapshot
  | Some (Readable raw) =>
      match read_text raw with
      | None => Return NoSnapshot
      | Some t =>
          match json_loads t with
          | None => Return NoSnapshot
          | Some data =>
              if has_pydantic then
                match data with
                | JObj members =>
                    match validate members with
                    | Some validated => Return (Dumped validated)
                    | None => Return NoSnapshot
                    end
                | _ => Raise not_a_mapping
                end
              else
                match data with
                | JObj members => Return (Parsed members)
                | _ => Return NoSnapshot
                end
          end
      end
  end.

(** The bytes of a file, by what the decoders make of them: no text or
    no JSON in it (a truncated or corrupted snapshot), a JSON object that
    validation rejects, a JSON object, a JSON value that is no object. *)
Definition corrupted (raw : bytes) : Prop :=
  read_text raw = None ∨ ∃ t, read_text raw = Some t ∧ json_loads t = None.

Definition holds_object (raw : bytes) (members : list (string * json)) : Prop :=
  ∃ t, read_text raw = Some t ∧ json_loads t = Some (JObj members).

Definition schema_invalid (raw : bytes) : Prop :=
  ∃ members, holds_object raw members ∧ validate members = None.

Definition holds_non_object (raw : bytes) : Prop :=
  ∃ t v, read_text raw = Some t ∧ json_loads t = Some v ∧ ∀ members, v ≠ JObj members.

End Libraries.

(** The accumulators of a loaded model are those of a context. *)
Definition same_accumulators (m : ReconStateModel) (ctx : ReconContext) : Prop :=
  m_subdomains m = subdomains ctx
  ∧ m_base_ports m = base_ports ctx
  ∧ m_web_ports m = web_ports ctx
  ∧ m_nuclei_raw m = nuclei_raw ctx
  ∧ m_findings m = findings ctx
  ∧ m_timings m = timings ctx
  ∧ m_extra m = extra ctx.

(** *** Vocabulary of the claims *)

(** Every object of a document holds each key once, as the dictionaries
    it comes from do. *)
Fixpoint well_keyed (v : json) : Prop :=
  match v with
  | JArr items =>
      (fix all (l : list json) : Prop :=
         match l with
         | [] => True
         | x :: l' => well_keyed x ∧ all l'
         end) items
  | JObj members =>
      NoDup (fst <$> members)
      ∧ (fix all (l : list (string * json)) : Prop :=
           match l with
           | [] => True
           | item :: l' => well_keyed item.2 ∧ all l'
           end) members
  | _ => True
  end.

(** The dictionaries of a context hold each key once. *)
Record well_formed (ctx : ReconContext) : Prop := {
  wf_config : well_keyed (JObj (config ctx));
  wf_extra : well_keyed (JObj (extra ctx));
  wf_base_ports : NoDup (fst <$> base_ports ctx);
  wf_web_ports : NoDup (fst <$> web_ports ctx);
  wf_timings : NoDup (fst <$> timings ctx);
}.

(** What the libraries are relied on for: decompressing what was
    compressed, decoding what was encoded, parsing what was written, and
    accepting a document of the declared shape, its integer keys read
    back from their decimal strings. *)
Record library_laws {text bytes : Type}
    (gzip_compress : bytes → bytes) (gzip_decompress : bytes → option bytes)
    (utf8_encode : text → bytes) (utf8_decode : bytes → option text)
    (json_dumps : json → text) (json_loads : text → option json)
    (validate : list (string * json) → option ReconStateModel) : Prop := {
  gzip_round_trip : ∀ b, gzip_decompress (gzip_compress b) = Some b;
  utf8_round_trip : ∀ t, utf8_decode (utf8_encode t) = Some t;
  json_round_trip : ∀ v, well_keyed v → json_loads (json_dumps v) = Some v;
  validate_accepts : ∀ ctx, well_formed ctx →
                            validate (state_members ctx) = Some (model_of ctx);
}.

(** *** A reference instance of the libraries

    Bytes and texts by what the decoders make of them: the bytes are a
    compressed payload, an encoded text, or neither; a text is a written
    document or not JSON. *)
Inductive ref_text :=
| Written (v : json)
| NotJson (what : string).

Inductive ref_bytes :=
| Compressed (payload : ref_bytes)
| Encoded (t : ref_text)
| Junk (what : string).

Definition ref_decompress (b : ref_bytes) : option ref_bytes :=
  match b with
  | Compressed payload => Some payload
  | _ => None
  end.

Definition ref_decode (b : ref_bytes) : option ref_text :=
  match b with
  | Encoded t => Some t
  | _ => None
  end.

Definition ref_loads (t : ref_text) : option json :=
  match t with
  | Written v => Some v
  | NotJson _ => None
  end.

(** A validator for the schema that accepts values of exactly the
    declared types (an [int] where a [float] is declared, and the decimal
    string of an integer as a key of [base_ports]), fills in the
    defaults, requires [scope] and ignores other members. *)
Definition as_str (v : json) : option string :=
  match v with
  | JStr s => Some s
  | _ => None
  end.

Definition as_int (v : json) : option Z :=
  match v with
  | JInt z => Some z
  | _ => None
  end.

Definition as_float (v : json) : option Q :=
  match v with
  | JFloat q => Some q
  | JInt z => Some (inject_Z z)
  | _ => None
  end.

Definition as_any (v : json) : option json := Some v.

Definition as_list {A} (item : json → option A) (v : json) : option (list A) :=
  match v with
  | JArr items => mapM item items
  | _ => None
  end.

Definition as_dict {K A} (key : string → option K) (value : json → option A) (v : json)
  : option (list (K * A)) :=
  match v with
  | JObj members =>
      mapM (λ member, k ← key member.1; x ← value member.2; Some (k, x)) members
  | _ => None
  end.

Fixpoint member (key : string) (members : list (string * json)) : option json :=
  match members with
  | [] => None
  | (k, v) :: rest => if bool_decide (k = key) then Some v else member key rest
  end.

Definition field {A} (key : string) (read : json → option A) (dflt : A)
    (members : list (string * json)) : option A :=
  match member key members with
  | Some v => read v
  | None => Some dflt
  end.

Definition ref_validate_scope (v : json) : option ScopeState :=
  match v with
  | JObj members =>
      h ← field "host" as_str "" members;
      i ← field "ip" as_str "" members;
      u ← field "url" as_str "" members;
      m ← field "mode" as_str "passive" members;
      Some {| s_host := h; s_ip := i; s_url := u; s_mode := m |}
  | _ => None
  end.

Definition ref_validate (members : list (string * json)) : option ReconStateModel :=
  sc ← member "scope" members ≫= ref_validate_scope;
  cf ← field "config" (as_dict Some as_any) [] members;
  sd ← field "subdomains" (as_list as_str) [] members;
  bp ← field "base_ports" (as_dict int_of_str as_str) [] members;
  wp ← field "web_ports" (as_dict Some (as_list as_int)) [] members;
  nr ← field "nuclei_raw" as_str "" members;
  nu ← field "nuclei_urls" (as_list as_str) [] members;
  fi ← field "findings" (as_list as_str) [] members;
  ss ← field "screenshots" (as_list as_str) [] members;
  ex ← field "extra" (as_dict Some as_any) [] members;
  tm ← field "timings" (as_dict Some as_float) [] members;
  Some {| m_scope := sc; m_config := cf; m_subdomains := sd; m_base_ports := bp;
          m_web_ports := wp; m_nuclei_raw := nr; m_nuclei_urls := nu;
          m_findings := fi; m_screenshots := ss; m_extra := ex; m_timings := tm |}.

(** [save_state] and [load_state] on the reference instance. *)
Definition ref_save_state :=
  save_state ref_text ref_bytes Compressed Encoded Written.

Definition ref_load_state (has_pydantic : bool) :=
  load_state ref_text ref_bytes ref_decompress ref_decode ref_loads
    has_pydantic ref_validate.

(** A context with something in each accumulator. *)
Definition sample_context : ReconContext :=
  {| scope := {| host := "example.test"; ip := "192.0.2.10";
                 url := "http://example.test"; mode := "active" |};
     config := [("http", JObj [("retries", JInt 3)])]; log := 0%nat;
     http_client := None; session_manager := None;
     findings := ["[Fuzzer] Found endpoint http://example.test/admin"];
     screenshots := []; state_path := Some ".recon-state.json.gz";
     subdomains := ["api.example.test"; "www.example.test"];
     base_ports := [(80, "http"); (443, "https")];
     web_ports := [("api.example.test", [443; 8443])];
     nuclei_raw := "[info] tech-detect"; nuclei_urls := ["https://api.example.test"];
     extra := [("module_errors", JArr [])];
     timings := [("subdomains", 3 # 2); ("total", 7 # 2)];
     progress_cb := None; _progress_seen := ∅; verbose_logs := false;
     event_path := None |}.

End StateManager.

(** ** [config.py]: the configuration and its defaults *)

Module Config.

Import Py.
Import Recon (od_get, od_set, od_keys).

(** A call that returns a value or raises. *)
Inductive result (A : Type) :=
| Value (a : A)
| Raises (exc : exn).

Arguments Value {A} a.
Arguments Raises {A} exc.

#[global] Instance result_ret : MRet result := λ A, Value.
#[global] Instance result_bind : MBind result :=
  λ A B f m, match m with
             | Value a => f a
             | Raises exc => Raises exc
             end.

(** [type(v).__name__]. *)
Definition type_name (v : json) : string :=
  match v with
  | JNull => "NoneType"
  | JBool _ => "bool"
  | JInt _ => "int"
  | JFloat _ => "float"
  | JStr _ => "str"
  | JArr _ => "list"
  | JObj _ => "dict"
  end.

(** [bool(v)], the truth value of [v] in [if v], [v or d], [not v]. *)
Definition truthy (v : json) : bool :=
  match v with
  | JNull => false
  | JBool b => b
  | JInt z => negb (z =? 0)
  | JFloat q => negb (Qeq_bool q 0)
  | JStr s => negb (bool_decide (s = ""))
  | JArr items => negb (bool_decide (items = []))
  | JObj members => negb (bool_decide (members = []))
  end.

(** [d.get(key, dflt)] on a dictionary. *)
Definition get (key : string) (dflt : json) (d : Recon.odict json) : json :=
  default dflt (od_get key d).

(** [v.get(key, dflt)] on whatever value a dictionary holds: the
    [AttributeError] of a value that is no dictionary. *)
Definition no_get (v : json) : exn :=
  Exn "AttributeError" ("'" +:+ type_name v +:+ "' object has no attribute 'get'").

Definition get_of (v : json) (key : string) (dflt : json) : result json :=
  match v with
  | JObj d => Value (get key dflt d)
  | _ => Raises (no_get v)
  end.

(** [merge_dicts].  [json.loads(json.dumps(base))] rebuilds [base]
    value by value: on the values of [json] it is the identity.  The
    recursion goes through the dictionaries held by [override]. *)
Fixpoint merge_into (override : json) (base : Recon.odict json) {struct override}
  : Recon.odict json :=
  match override with
  | JObj members =>
      (fix items (ms : list (string * json)) (result : Recon.odict json)
         : Recon.odict json :=
         match ms with
         | [] => result
         | (key, value) :: ms' =>
             items ms'
               match value, od_get key result with
               | JObj _, Some (JObj sub) => od_set key (JObj (merge_into value sub)) result
               | _, _ => od_set key value result
               end
         end) members base
  | _ => base
  end.

Definition merge_dicts (base override : Recon.odict json) : Recon.odict json :=
  merge_into (JObj override) base.

(** One iteration of [for key, value in override.items()]. *)
Definition merge_item (result : Recon.odict json) (item : string * json)
  : Recon.odict json :=
  match item.2, od_get item.1 result with
  | JObj o, Some (JObj sub) => od_set item.1 (JObj (merge_dicts sub o)) result
  | _, _ => od_set item.1 item.2 result
  end.

Definition enabled_only (on : bool) : json := JObj [("enabled", JBool on)].

Definition DEFAULT_CONFIG : Recon.odict json :=
  [ ("modules",
     JObj [ ("subdomains", enabled_only true);
            ("base_ports",
             JObj [ ("enabled", JBool true);
                    ("ports", JArr (JInt <$> [21; 22; 25; 53; 80; 110; 143; 443; 3306;
                                              5432; 6379; 8080; 8443])) ]);
            ("web_services", enabled_only true);
            ("endpoint_collector", JObj [("enabled", JBool true); ("limit", JInt 500)]);
            ("web_probe", enabled_only true);
            ("nuclei",
             JObj [ ("enabled", JBool true);
                    ("severity", JStr "low,medium,high,critical");
                    ("templates", JArr []);
                    ("tags", JStr "sqli,xss,lfi,rce,takeover");
                    ("exclude_tags", JStr "ssl,tls,info,tech");
                    ("disable_etags", JBool false);
                    ("update_templates", JBool true);
                    ("concurrency", JNull);
                    ("rate_limit", JNull) ]);
            ("lfi_scanner", enabled_only true);
            ("sqli_scanner", enabled_only true);
            ("redirect_tester", enabled_only true);
            ("screenshotter",
             JObj [("enabled", JBool false); ("output_dir", JStr "screenshots")]) ]);
    ("logging",
     JObj [("verbose", JBool false); ("event_path", JStr "reports/live_events.jsonl")]);
    ("concurrency", JObj [("max_connections", JInt 200)]);
    ("http",
     JObj [ ("proxies", JObj []); ("headers", JObj []); ("debug", JBool false);
            ("timeout", JInt 20); ("retries", JInt 3);
            ("backoff_factor", JFloat (3 # 5)); ("jitter", JFloat (3 # 10));
            ("throttle_on_429", JBool true) ]);
    ("state", JObj [("path", JStr ".recon-state.json.gz")]);
    ("safety", JObj [("allow_internal", JBool false)]) ].

Section Files.

(** The file system and the YAML parser: whether a path exists, and
    what [yaml.safe_load] makes of the file ([None] when opening or
    parsing raises; an empty document is [JNull]).  Documents are taken
    to hold the values of [json], with strings for keys; dates and the
    other values YAML has beyond them are left out. *)
Variable path_exists : string → bool.
Variable safe_load : string → option json.

(** [load_config].  A document that is no mapping makes [merge_dicts]
    raise [AttributeError] at [override.items()], which the [except]
    clause turns into the defaults. *)
Definition load_config (config_path : option string) : Recon.odict json :=
  let path :=
    match config_path with
    | Some p => if bool_decide (p = "") then "config.yaml" else p
    | None => "config.yaml"
    end in
  if path_exists path then
    match safe_load path with
    | Some loaded =>
        let data := if truthy loaded then loaded else JObj [] in
        match data with
        | JObj override => merge_dicts DEFAULT_CONFIG override
        | _ => DEFAULT_CONFIG
        end
    | None => DEFAULT_CONFIG
    end
  else DEFAULT_CONFIG.

End Files.

(** *** Vocabulary *)

(** The number of constructors of a value. *)
Fixpoint weight (v : json) : nat :=
  match v with
  | JArr items => S ((fix sum (l : list json) : nat :=
                        match l with
                        | [] => 0
                        | x :: l' => weight x + sum l'
                        end) items)
  | JObj members => S ((fix sum (l : list (string * json)) : nat :=
                          match l with
                          | [] => 0
                          | item :: l' => weight item.2 + sum l'
                          end) members)
  | _ => 1
  end%nat.

End Config.

(** ** [core/recon.py]: what [run_full_recon] does before the layers run *)

Module Setup.

Import Py Recon Config.

Definition blocked_message : string :=
  "[Safety] Target resolves to localhost/link-local; blocking scan. Set safety.allow_internal=true to override.".

Definition proceeding_message : string :=
  "[Safety] Target is local; proceeding because allow_internal is set.".

(** The test [blocked] of [_guard_internal_target]. *)
Definition blocked (scope : Models.ScopeInfo) : bool :=
  let ip := Models.ip scope in
  let host := lower (Models.host scope) in
  startswith ip "127." || startswith ip "169.254."
  || bool_decide (host ∈ ["localhost"; "127.0.0.1"]).

(** [_guard_internal_target]: how it ends, and the messages logged. *)
Definition _guard_internal_target (scope : Models.ScopeInfo) (config : odict json)
  : result unit * list string :=
  match get_of (get "safety" (JObj []) config) "allow_internal" (JBool false) with
  | Raises exc => (Raises exc, [])
  | Value v =>
      let allow_internal := truthy v in
      if blocked scope && negb allow_internal then
        (Raises (Exn "ValueError" blocked_message), [blocked_message])
      else if blocked scope then (Value (), [proceeding_message])
      else (Value (), [])
  end.

(** [x_cfg = module_cfg.get(key, {})] followed by
    [x_cfg.get("enabled", dflt)], as a truth value: the constructors
    store the value and the scheduler tests it. *)
Definition section_enabled (module_cfg : json) (key : string) (dflt : bool) : result bool :=
  cfg ← get_of module_cfg key (JObj []);
  v ← get_of cfg "enabled" (JBool dflt);
  mret (truthy v).

(** [Path(output_dir)] in the constructor of [ScreenshotModule] (the
    message is that of CPython 3.11). *)
Definition as_path (v : json) : result string :=
  match v with
  | JStr s => Value s
  | _ => Raises (Exn "TypeError"
                   ("expected str, bytes or os.PathLike object, not " +:+ type_name v))
  end.

(** The eleven module objects in construction order, by their names,
    their switches and the dependencies their classes declare. *)
Definition chain (sub bp ep web probe sec nuc lfi sqli redir shot : bool)
  : list BaseModule :=
  [ unit_ "subdomains" sub [] 1;
    unit_ "base_ports" bp [] 2;
    unit_ "endpoint_collector" ep ["subdomains"] 3;
    unit_ "web_services" web ["subdomains"] 4;
    unit_ "web_probe" probe ["web_services"] 5;
    unit_ "secrets_scanner" sec ["web_services"] 6;
    unit_ "nuclei" nuc ["web_services"] 7;
    unit_ "lfi_scanner" lfi ["web_services"] 8;
    unit_ "sqli_scanner" sqli ["web_services"] 9;
    unit_ "redirect_tester" redir ["web_services"] 10;
    unit_ "screenshotter" shot ["web_services"] 11 ]%nat.

(** [_build_module_chain].  The constructor arguments other than the
    switches are read for the exceptions their reading can raise. *)
Definition _build_module_chain (config : odict json) : result (list BaseModule) :=
  let module_cfg := get "modules" (JObj []) config in
  sub ← section_enabled module_cfg "subdomains" true;
  bp ← section_enabled module_cfg "base_ports" true;
  _ ← get_of (get "concurrency" (JObj []) config) "max_connections" (JInt 200);
  ep ← section_enabled module_cfg "endpoint_collector" true;
  web ← section_enabled module_cfg "web_services" true;
  probe ← section_enabled module_cfg "web_probe" true;
  sec ← section_enabled module_cfg "secrets_scanner" true;
  nuc ← section_enabled module_cfg "nuclei" true;
  lfi ← section_enabled module_cfg "lfi_scanner" true;
  sqli ← section_enabled module_cfg "sqli_scanner" true;
  redir ← section_enabled module_cfg "redirect_tester" true;
  shot ← section_enabled module_cfg "screenshotter" false;
  shot_cfg ← get_of module_cfg "screenshotter" (JObj []);
  dir ← get_of shot_cfg "output_dir" (JStr "screenshots");
  _ ← as_path dir;
  mret (chain sub bp ep web probe sec nuc lfi sqli redir shot).

End Setup.

(** ** [core/probe.py]: the probe of the task queue *)

Module Probe.

Import Py DecisionEngine Config.

(** An [httpx.Response] as the probe reads it: the status, [resp.text],
    [resp.headers.get(name)] (which ignores the letter case of [name]),
    and [len(resp.content)], [None] when reading the content raises. *)
Record Response := {
  status : Z;
  text : string;
  headers : string → option string;
  content_size : option Z;
}.

(** What [client.get(url)] comes to: [httpx.TimeoutException], another
    [httpx.HTTPError], an exception of another class (which [probe_url]
    does not catch), or a response. *)
Inductive Fetched :=
| Timeout
| HttpError
| Crashed (exc : exn)
| Got (resp : Response).

(** [techs.add(x)] under a condition, [techs] being a set. *)
Definition add_if (c : bool) (x : string) (techs : list string) : list string :=
  if c && negb (bool_decide (x ∈ techs)) then techs ++ [x] else techs.

(** [if headers.get(name):] -- present and not empty. *)
Definition has_header (headers : string → option string) (name : string) : bool :=
  match headers name with
  | Some v => negb (bool_decide (v = ""))
  | None => false
  end.

(** [SmartProbe._detect_technologies]. *)
Definition _detect_technologies (body : string) (headers : string → option string)
  : list string :=
  let techs := [] in
  let body_l := lower body in
  let server_hdr := default "" (headers "Server") in
  let powered_by := default "" (headers "X-Powered-By") in
  let techs := add_if (contains "wp-content" body_l || contains "wp-json" body_l)
                 "WordPress" techs in
  let techs := add_if (has_header headers "X-Jenkins") "Jenkins" techs in
  let techs := add_if (contains "drupal.settings" body_l
                       || contains "drupal" (lower powered_by)) "Drupal" techs in
  let techs := add_if (contains "joomla" body_l) "Joomla" techs in
  let techs := add_if (contains "express" (lower powered_by)) "Express" techs in
  let techs := add_if (contains "laravel" body_l || contains "laravel" (lower powered_by))
                 "Laravel" techs in
  let techs := add_if (contains "nginx" (lower server_hdr)) "Nginx" techs in
  let techs := add_if (contains "apache" (lower server_hdr)) "Apache" techs in
  let techs := add_if (contains "cloudflare" (lower server_hdr)) "Cloudflare" techs in
  sorted techs.

Section Probe.

(** The built-in [int] on a header value ([None] where it raises
    [ValueError]), and [SmartProbe._extract_title], whose regular
    expressions are not modelled. *)
Variable int : string → option Z.
Variable _extract_title : string → option string.

(** [SmartProbe._extract_content_length]. *)
Definition _extract_content_length (resp : Response) : option Z :=
  match headers resp "Content-Length" with
  | Some header_len =>
      if bool_decide (header_len = "") then content_size resp
      else
        match int header_len with
        | Some n => Some n
        | None => content_size resp
        end
  | None => content_size resp
  end.

(** [SmartProbe.probe_url], [fetch] being the request it sends. *)
Definition probe_url (fetch : string → Fetched) (url : string) : result ProbeResult :=
  match fetch url with
  | Timeout =>
      Value {| status_code := None; title := None; server := None;
               content_length := None; technologies := ["timeout"] |}
  | HttpError =>
      Value {| status_code := None; title := None; server := None;
               content_length := None; technologies := [] |}
  | Crashed exc => Raises exc
  | Got resp =>
      Value {| status_code := Some (status resp);
               title := _extract_title (text resp);
               server := headers resp "Server";
               content_length := _extract_content_length resp;
               technologies := _detect_technologies (text resp) (headers resp) |}
  end.

End Probe.

(** The nine technology names, in the order in which [sorted] puts
    them. *)
Definition known_technologies : list string :=
  ["Apache"; "Cloudflare"; "Drupal"; "Express"; "Jenkins"; "Joomla"; "Laravel"; "Nginx";
   "WordPress"].

(** [l] holds elements of [k] in the order of [k]. *)
Fixpoint keeps_order (l k : list string) : bool :=
  match k with
  | [] => bool_decide (l = [])
  | y :: k' =>
      match l with
      | [] => true
      | x :: l' => if bool_decide (x = y) then keeps_order l' k' else keeps_order l k'
      end
  end.

End Probe.

(** ** [modules/bypass.py] and [modules/fuzzer.py]: two tasks of the queue *)

Module TaskModules.

Import Py Config TaskQueue.

(** [ctx.findings.append(msg)]. *)
Definition add_finding (ctx : TaskContext) (msg : string) : TaskContext :=
  {| logged := logged ctx; findings := findings ctx ++ [msg];
     new_endpoints := new_endpoints ctx |}.

(** [ctx.new_endpoints.append(hit)] unless [hit] is there. *)
Definition add_endpoint (ctx : TaskContext) (hit : string) : TaskContext :=
  if bool_decide (hit ∈ new_endpoints ctx) then ctx
  else {| logged := logged ctx; findings := findings ctx;
          new_endpoints := new_endpoints ctx ++ [hit] |}.

(** *** [BypassModule] *)

(** What [client.get(url, headers=headers)] comes to: an
    [httpx.HTTPError] with its text, or the status of the response.
    Exceptions of other classes, which [run] does not catch, are left
    out. *)
Inductive Answer :=
| HttpFailure (text : string)
| Status (code : Z).

(** The seven header tricks. *)
Definition headers_list (url : string) : list (string * string) :=
  [ ("X-Custom-IP-Authorization", "127.0.0.1");
    ("X-Original-URL", "/");
    ("X-Rewrite-URL", "/");
    ("X-Forwarded-For", "127.0.0.1");
    ("X-Forwarded-Host", "127.0.0.1");
    ("X-Forwarded-Proto", "https");
    ("Referer", url) ].

Section Bypass.

(** [repr] on strings, with which a dictionary is formatted, and the
    HTTP client. *)
Variable repr : string → string.
Variable client_get : string → string * string → Answer.

(** [f"{headers}"] for a dictionary with one entry. *)
Definition show_headers (h : string * string) : string :=
  "{" +:+ repr h.1 +:+ ": " +:+ repr h.2 +:+ "}".

Definition success_message (h : string * string) : string :=
  "[Bypass] 403 bypass success via headers " +:+ show_headers h.

(** The loop [for headers in headers_list]. *)
Fixpoint bypass_loop (url : string) (tricks : list (string * string)) (ctx : TaskContext)
  : TaskContext :=
  match tricks with
  | [] => ctx
  | h :: rest =>
      match client_get url h with
      | HttpFailure text =>
          bypass_loop url rest
            (log ctx ("[Bypass] " +:+ url +:+ " attempt " +:+ show_headers h
                      +:+ " failed: " +:+ text))
      | Status code =>
          let ctx := log ctx ("[Bypass] " +:+ url +:+ " " +:+ show_headers h +:+ " -> "
                              +:+ str_of_int code) in
          if code =? 200 then add_finding (log ctx (success_message h)) (success_message h)
          else bypass_loop url rest ctx
      end
  end.

(** [BypassModule(url).run(ctx)]. *)
Definition bypass_run (url : string) (ctx : TaskContext) : TaskContext :=
  if bool_decide (url = "") then ctx else bypass_loop url (headers_list url) ctx.

(** The first trick of a list that is answered with status 200, the
    tricks before it having been answered otherwise. *)
Fixpoint first_success (url : string) (tricks : list (string * string))
  : option (string * string) :=
  match tricks with
  | [] => None
  | h :: rest =>
      match client_get url h with
      | Status 200 => Some h
      | _ => first_success url rest
      end
  end.

End Bypass.

(** *** [FuzzerModule] *)

(** What [subprocess.Popen] and the process come to: an exception with
    its text, or the lines of the output and whether [proc.wait]
    returns in time. *)
Inductive Process :=
| StartFailure (text : string)
| Output (lines : list string) (in_time : bool).

Section Fuzzer.

(** [shutil.which(tool)] as a truth value, the name of the temporary
    file, and the process.  The word list written to the file is left
    out, and so are the failures of the file system and of decoding the
    output, which [run] does not catch. *)
Variable which : string → bool.
Variable tmp_name : string.
Variable popen : list string → Process.

(** [FuzzerModule._build_command]. *)
Definition _build_command : string * option (list string) :=
  if which "ffuf" then
    ("ffuf",
     Some ["ffuf"; "-u"; "{URL}/FUZZ"; "-w"; "{WORDLIST}"; "-mc";
           "200,204,301,302,307,401,403"; "-fs"; "0"])
  else if which "feroxbuster" then
    ("feroxbuster",
     Some ["feroxbuster"; "-u"; "{URL}"; "-w"; "{WORDLIST}"; "--quiet"; "--no-recursion";
           "--status-codes"; "200,204,301,302,307,401,403"])
  else ("", None).

(** [FuzzerModule._extract_endpoint], [url] being [self.url]. *)
Definition _extract_endpoint (url line : string) : result (option string) :=
  match first_token line with
  | None => Raises (Exn "IndexError" "list index out of range")
  | Some token =>
      if startswith token "http" then Value (Some token)
      else if startswith token "::" then Value None
      else
        let token := lstrip_slash token in
        if bool_decide (token = "") then Value None
        else Value (Some (url +:+ "/" +:+ token))
  end.

(** The loop [for line in proc.stdout]: the context and [discovered]. *)
Fixpoint read_lines (url : string) (lines : list string) (ctx : TaskContext)
    (discovered : list string) : result (TaskContext * list string) :=
  match lines with
  | [] => Value (ctx, discovered)
  | line :: rest =>
      let clean := strip line in
      if bool_decide (clean = "") then read_lines url rest ctx discovered
      else
        let ctx := log ctx ("[Fuzzer] " +:+ clean) in
        hit ← _extract_endpoint url clean;
        read_lines url rest ctx
          match hit with
          | Some h => if bool_decide (h = "") then discovered else discovered ++ [h]
          | None => discovered
          end
  end.

(** The block under [if discovered:]. *)
Definition report (discovered : list string) (ctx : TaskContext) : TaskContext :=
  let ctx := fold_left add_endpoint discovered ctx in
  fold_left (λ c hit, add_finding c ("[Fuzzer] Found endpoint " +:+ hit)) discovered ctx.

(** [FuzzerModule(target).run(ctx)], with the default word list.  The
    constructor strips the slashes at the end of the target. *)
Definition fuzzer_run (target : string) (ctx : TaskContext) : result TaskContext :=
  let url := rstrip_slash target in
  if bool_decide (url = "") then Value ctx
  else
    match _build_command with
    | (_, None) => Value (log ctx "[Fuzzer] Neither ffuf nor feroxbuster found; skipping.")
    | (tool, Some cmd) =>
        let cmd := (λ c, replace "{URL}" url (replace "{WORDLIST}" tmp_name c)) <$> cmd in
        let ctx := log ctx ("[Fuzzer] Running " +:+ tool +:+ ": " +:+ join " " cmd) in
        match popen cmd with
        | StartFailure text =>
            Value (log ctx ("[Fuzzer] Failed to start " +:+ tool +:+ ": " +:+ text))
        | Output lines in_time =>
            '(ctx, discovered) ← read_lines url lines ctx [];
            let ctx := if in_time then ctx
                       else log ctx ("[Fuzzer] " +:+ tool
                                     +:+ " timed out and was terminated.") in
            mret (report discovered ctx)
        end
    end.

(** *** Vocabulary of the fuzzing task *)

(** The lines the tool prints for a target: those of the process started
    on the command of [_build_command], with the word list and the
    target filled in.  There are none when the target is empty, no tool
    is installed or the process does not start. *)
Definition printed (target : string) : list string :=
  let url := rstrip_slash target in
  if bool_decide (url = "") then []
  else
    match _build_command with
    | (_, None) => []
    | (_, Some cmd) =>
        match popen ((λ c, replace "{URL}" url (replace "{WORDLIST}" tmp_name c)) <$> cmd)
        with
        | StartFailure _ => []
        | Output lines _ => lines
        end
    end.

(** The hit of one line of the output, if it has one: its first token
    as it stands when that starts with [http]; nothing for a token that
    starts with two colons; otherwise the token without the slashes at
    its front, appended to [url] and a slash, unless nothing is left of
    it.  A blank line has no token and no hit. *)
Definition hit_of_line (url line : string) : option string :=
  match first_token (strip line) with
  | None => None
  | Some token =>
      if startswith token "http" then Some token
      else if startswith token "::" then None
      else
        let rel := lstrip_slash token in
        if bool_decide (rel = "") then None else Some (url +:+ "/" +:+ rel)
  end.

(** The hits of the lines, in the order of the lines, repetitions
    included. *)
Definition hits (url : string) (lines : list string) : list string :=
  omap (hit_of_line url) lines.

End Fuzzer.

End TaskModules.

(** ** Python's [float]: IEEE 754 binary64 numbers, rounded to nearest *)

Module PyFloat.

(** A [float]: not a number, an infinity with its sign, or a finite
    number, given by the rational it denotes.  The sign of zero, which
    no comparison sees, is left out. *)
Inductive float :=
| NaN
| Inf (negative : bool)
| Fin (q : Q).

(** [2 ** e] as a rational, for an exponent of either sign. *)
Definition pow2 (e : Z) : Q := Qpower 2 e.

Arguments pow2 : simpl never.

(** The binary exponent of a positive rational: the [k] with
    [2^k <= x < 2^(k+1)]. *)
Definition ilog2 (x : Q) : Z :=
  let k := Z.log2 (Qnum x) - Z.log2 (Zpos (Qden x)) in
  if Qle_bool (pow2 k) x then k else k - 1.

(** The nearest integer, a tie going to the even one. *)
Definition rne (x : Q) : Z :=
  let f := Qfloor x in
  match (x - inject_Z f ?= 1 # 2)%Q with
  | Lt => f
  | Gt => f + 1
  | Eq => if Z.even f then f else f + 1
  end.

(** The weight of the last binary digit that a positive number keeps:
    53 digits, and none below [2^-1074]. *)
Definition fexp (x : Q) : Z := Z.max (-1074) (ilog2 x - 52).

(** A positive rational rounded to 53 binary digits, the exponent being
    unbounded above. *)
Definition round_pos (x : Q) : Q :=
  let e := fexp x in
  (inject_Z (rne (x / pow2 e)) * pow2 e)%Q.

(** The [float] nearest to a rational: rounding to nearest, ties to
    even, with gradual underflow, and an infinity from [2^1024] on. *)
Definition round (x : Q) : float :=
  let x := Qred x in
  match (x ?= 0)%Q with
  | Eq => Fin 0
  | Gt =>
      let v := round_pos x in
      if Qle_bool (pow2 1024) v then Inf false else Fin (Qred v)
  | Lt =>
      let v := round_pos (- x) in
      if Qle_bool (pow2 1024) v then Inf true else Fin (Qred (- v))
  end.

Arguments round : simpl never.

(** The values a [float] can hold: the results of rounding. *)
Definition is_float (x : float) : Prop :=
  match x with
  | Fin q => round q = Fin q
  | _ => True
  end.

(** [-x]. *)
Definition neg (x : float) : float :=
  match x with
  | NaN => NaN
  | Inf s => Inf (negb s)
  | Fin q => Fin (Qred (- q))
  end.

(** [x + y]. *)
Definition add (x y : float) : float :=
  match x, y with
  | NaN, _ | _, NaN => NaN
  | Inf s, Inf s' => if Bool.eqb s s' then Inf s else NaN
  | Inf s, Fin _ | Fin _, Inf s => Inf s
  | Fin a, Fin b => round (a + b)
  end.

(** [x - y]. *)
Definition sub (x y : float) : float := add x (neg y).

(** An infinity times a finite number. *)
Definition inf_times (s : bool) (q : Q) : float :=
  match (q ?= 0)%Q with
  | Eq => NaN
  | Gt => Inf s
  | Lt => Inf (negb s)
  end.

(** [x * y]. *)
Definition mul (x y : float) : float :=
  match x, y with
  | NaN, _ | _, NaN => NaN
  | Inf s, Inf s' => Inf (xorb s s')
  | Inf s, Fin q | Fin q, Inf s => inf_times s q
  | Fin a, Fin b => round (a * b)
  end.

(** [x < y] and [x <= y]: false as soon as one side is not a number. *)
Definition lt (x y : float) : bool :=
  match x, y with
  | NaN, _ | _, NaN => false
  | Inf s, Inf s' => s && negb s'
  | Inf s, Fin _ => s
  | Fin _, Inf s => negb s
  | Fin a, Fin b => negb (Qle_bool b a)
  end.

Definition le (x y : float) : bool :=
  match x, y with
  | NaN, _ | _, NaN => false
  | Inf s, Inf s' => s || negb s'
  | Inf s, Fin _ => s
  | Fin _, Inf s => negb s
  | Fin a, Fin b => Qle_bool a b
  end.

Definition is_nan (x : float) : bool :=
  match x with
  | NaN => true
  | _ => false
  end.

(** [max(a, b)]: the first argument unless the second is strictly
    greater, so that a first argument that is not a number stays. *)
Definition max (a b : float) : float := if lt a b then b else a.

(** [random.uniform(a, b)] is [a + (b - a) * self.random()]; [r] is the
    value of [random()]. *)
Definition uniform (a b r : float) : float := add a (mul (sub b a) r).

(** The conversion of an [int] operand to [float]: the nearest [float],
    and [OverflowError] where that is beyond the largest one. *)
Definition of_int (n : Z) : float + unit :=
  match round (inject_Z n) with
  | Fin q => inl (Fin q)
  | _ => inr ()
  end.

(** The floats [0.0] and [0.1]. *)
Definition zero : float := Fin 0.
Definition tenth : float := Eval vm_compute in round (1 # 10).

End PyFloat.

(** ** [core/http_client.py]: the two delays, in floating point *)

Module HttpDelays.

Import Py Config PyFloat.

(** The delays of module [HttpClient] are exact rationals, which is all
    that the control flow of [request] looks at.  Here
    [_compute_backoff] and [_retry_after_delay] are taken as Python
    computes them, on the [float] arguments their signatures name: with
    rounding, infinities, values that are not numbers, and the
    [OverflowError] of an [int] that is too large for a [float]. *)

Definition overflow : exn := Exn "OverflowError" "int too large to convert to float".

(** [2 ** e] on [int]s: an [int] for an exponent that is not negative,
    the [float] nearest to the power otherwise. *)
Definition two_to_the (e : Z) : Z + float :=
  if 0 <=? e then inl (2 ^ e) else inr (round (pow2 e)).

(** [x * y] for a [float] and an [int] or [float]: an [int] operand is
    converted first. *)
Definition times (x : float) (y : Z + float) : result float :=
  match y with
  | inl n =>
      match of_int n with
      | inl f => Value (mul x f)
      | inr _ => Raises overflow
      end
  | inr f => Value (mul x f)
  end.

(** [HttpClient._compute_backoff]; [r] is the value [random.random()]
    yields inside [random.uniform], whose first argument is the [int]
    zero. *)
Definition _compute_backoff (attempt : Z) (backoff_factor jitter : float) (r : float)
  : result float :=
  base ← times backoff_factor (two_to_the (attempt - 1));
  mret (add base (uniform zero (max zero jitter) r)).

Section Builtins.

(** The built-in [float] applied to a header value: the value it reads,
    which may be an infinity or not a number, or [None] where it raises
    [ValueError]. *)
Variable to_float : string → option float.

(** [HttpClient._retry_after_delay]. *)
Definition _retry_after_delay (headers : list (string * string)) (attempt : Z)
    (backoff_factor jitter : float) (r : float) : result float :=
  let retry_after := HttpClient.dict_get "Retry-After" headers in
  match retry_after with
  | Some s =>
      if bool_decide (s = "") then _compute_backoff attempt backoff_factor jitter r
      else
        match to_float s with
        | Some x => Value (max x tenth)
        | None => _compute_backoff attempt backoff_factor jitter r
        end
  | None => _compute_backoff attempt backoff_factor jitter r
  end.

(** *** Vocabulary *)

(** What the [Retry-After] header says, when it is there, not empty and
    read by [float]. *)
Definition retry_after (headers : list (string * string)) : option float :=
  match HttpClient.dict_get "Retry-After" headers with
  | Some s => if bool_decide (s = "") then None else to_float s
  | None => None
  end.

End Builtins.

(** A [float] for the examples: it reads [nan], [inf] and the decimal
    spellings of [HttpClient.decimal_float]. *)
Definition sample_float (s : string) : option float :=
  if bool_decide (s = "nan") then Some NaN
  else if bool_decide (s = "inf") then Some (Inf false)
  else round <$> HttpClient.decimal_float s.

End HttpDelays.

(** ** The machine's binary64 numbers, for comparison *)

Module Binary64.

Import PyFloat.

(** The [float] that a number of the machine denotes. *)
Definition of_spec (x : SpecFloat.spec_float) : float :=
  match x with
  | SpecFloat.S754_zero _ => Fin 0
  | SpecFloat.S754_infinity s => Inf s
  | SpecFloat.S754_nan => NaN
  | SpecFloat.S754_finite s m e =>
      Fin (Qred ((if s then -1 else 1) * inject_Z (Z.pos m) * pow2 e))
  end.

Definition machine (x : PrimFloat.float) : float := of_spec (FloatOps.Prim2SF x).

(** The machine's quotient of two integers below [2^63]. *)
Definition ratio (n d : Z) : PrimFloat.float :=
  PrimFloat.div (PrimFloat.of_uint63 (Uint63.of_Z n)) (PrimFloat.of_uint63 (Uint63.of_Z d)).

End Binary64.

(* ===================================================================== *)
(** * Part II.  Theory                                                    *)
(* ===================================================================== *)

(** ** The rule table of the decision engine *)

Module DecisionEngineTheory.

Import DecisionEngine.

Lemma elem_of_append_if c t tasks x :
  x ∈ append_if c t tasks ↔ x ∈ tasks ∨ (c = true ∧ x = t).
Proof.
  unfold append_if. destruct c.
  - rewrite elem_of_app, list_elem_of_singleton. naive_solver.
  - naive_solver.
Qed.

(** Each rule contributes its task exactly when its own condition holds,
    whatever the other rules do. *)
Lemma evaluate_spec (pr : ProbeResult) (t : ScanTask) :
  t ∈ evaluate pr ↔
    (status_code pr = Some 403 ∧ t = task "403_BYPASS")
    ∨ ("Jenkins" ∈ technologies pr
       ∧ t = {| task_type := "NUCLEI_SCAN"; args := Some ["jenkins-cves"] |})
    ∨ ("WordPress" ∈ technologies pr ∧ t = task "WP_SCAN")
    ∨ (status_code pr = Some 200 ∧ 0 < default 0 (content_length pr)
       ∧ t = task "JS_ANALYSIS")
    ∨ (status_code pr = Some 200 ∧ t = task "FUZZING").
Proof.
  unfold evaluate. rewrite !elem_of_append_if, elem_of_nil.
  rewrite andb_true_iff, !bool_decide_eq_true, Z.ltb_lt. naive_solver.
Qed.

(** C9.  The rules of [DecisionEngine.evaluate] fire independently: a
    probe result with status 403 yields a list containing the bypass
    task; one with status 200 and a positive content length yields both
    the content-analysis task ([JS_ANALYSIS]) and the fuzzing task; and
    in general a task is in the list exactly when the condition of its
    own rule holds. *)
Theorem evaluate_rules_fire (pr : ProbeResult) :
  (status_code pr = Some 403 → task "403_BYPASS" ∈ evaluate pr)
  ∧ (∀ n, status_code pr = Some 200 → content_length pr = Some n → 0 < n →
       task "JS_ANALYSIS" ∈ evaluate pr ∧ task "FUZZING" ∈ evaluate pr)
  ∧ (task "403_BYPASS" ∈ evaluate pr ↔ status_code pr = Some 403)
  ∧ (task "JS_ANALYSIS" ∈ evaluate pr ↔
       status_code pr = Some 200 ∧ 0 < default 0 (content_length pr))
  ∧ (task "FUZZING" ∈ evaluate pr ↔ status_code pr = Some 200).
Proof.
  split; [| split; [| split; [| split]]].
  - intros Hs. apply evaluate_spec. by left.
  - intros n Hs Hc Hn. split; apply evaluate_spec.
    + right; right; right; left. by rewrite Hc.
    + by repeat right.
  - rewrite evaluate_spec. unfold task. naive_solver.
  - rewrite evaluate_spec. unfold task. naive_solver.
  - rewrite evaluate_spec. unfold task. naive_solver.
Qed.

(** The two probe results of the specification's example. *)
Example evaluate_403 :
  evaluate {| status_code := Some 403; title := None; server := None;
              content_length := None; technologies := [] |}
  = [task "403_BYPASS"].
Proof. reflexivity. Qed.

Example evaluate_200_120 :
  evaluate {| status_code := Some 200; title := None; server := None;
              content_length := Some 120; technologies := [] |}
  = [task "JS_ANALYSIS"; task "FUZZING"].
Proof. reflexivity. Qed.

(** The tasks come in the order of the rules, none of them twice.  The
    bypass task and the fuzzing task exclude each other, the
    content-analysis task never comes without the fuzzing task, and no
    probe result yields more than four tasks. *)
Theorem evaluate_keeps_rule_order (pr : ProbeResult) :
  evaluate pr `sublist_of`
    [task "403_BYPASS"; {| task_type := "NUCLEI_SCAN"; args := Some ["jenkins-cves"] |};
     task "WP_SCAN"; task "JS_ANALYSIS"; task "FUZZING"]
  ∧ NoDup (evaluate pr)
  ∧ (task "403_BYPASS" ∈ evaluate pr → task "FUZZING" ∉ evaluate pr)
  ∧ (task "JS_ANALYSIS" ∈ evaluate pr → task "FUZZING" ∈ evaluate pr)
  ∧ (length (evaluate pr) ≤ 4)%nat.
Proof.
  assert (evaluate pr `sublist_of`
            [task "403_BYPASS";
             {| task_type := "NUCLEI_SCAN"; args := Some ["jenkins-cves"] |};
             task "WP_SCAN"; task "JS_ANALYSIS"; task "FUZZING"]) as Hsub.
  { unfold evaluate, append_if.
    repeat case_bool_decide; destruct (0 <? _); simpl; repeat constructor. }
  split; [exact Hsub|]. split; [|split; [|split]].
  - apply (sublist_NoDup _ _) in Hsub; [done|].
    unfold task. repeat (constructor; [set_solver|]). constructor.
  - rewrite !evaluate_spec. unfold task. naive_solver.
  - rewrite !evaluate_spec. unfold task. naive_solver.
  - unfold evaluate, append_if.
    repeat case_bool_decide; destruct (0 <? _); simpl; try lia; congruence.
Qed.

End DecisionEngineTheory.

(** ** The emission channel *)

Module ModelsTheory.

Import Models.

Lemma emit_keeps_observers ctx category value :
  progress_cb (emit ctx category value).1 = progress_cb ctx
  ∧ event_path (emit ctx category value).1 = event_path ctx.
Proof.
  unfold emit. destruct (bool_decide (category = "") || bool_decide (value = "")); [done|].
  destruct (setdefault _ _) as [ps seen]. by destruct (bool_decide (value ∈ seen)).
Qed.

Lemma emit_keeps_sink ctx category value :
  event_sink (emit ctx category value).1 = event_sink ctx.
Proof. unfold event_sink. by rewrite (proj2 (emit_keeps_observers _ _ _)). Qed.

Lemma setdefault_lookup cat ps :
  (setdefault cat ps).1 !! cat = Some (setdefault cat ps).2
  ∧ ∀ k, k ≠ cat → (setdefault cat ps).1 !! k = ps !! k.
Proof.
  unfold setdefault. destruct (ps !! cat) eqn:E; simpl.
  - done.
  - split; [by rewrite lookup_insert_eq|]. intros k Hk. by rewrite lookup_insert_ne.
Qed.

Lemma setdefault_seen cat ps key x :
  (∃ s, (setdefault cat ps).1 !! key = Some s ∧ x ∈ s) ↔ (∃ s, ps !! key = Some s ∧ x ∈ s).
Proof.
  unfold setdefault. destruct (ps !! cat) eqn:E; simpl; [done|].
  destruct (decide (cat = key)) as [->|Hne].
  - rewrite lookup_insert_eq, E. split; intros (s & Hs & Hx); simplify_eq.
    set_solver.
  - by rewrite lookup_insert_ne.
Qed.

(** The three ways a call of [emit] relates to a pair [(key, x)]. *)

Lemma count_effects_app p e1 e2 :
  count_effects p (e1 ++ e2) = (count_effects p e1 + count_effects p e2)%nat.
Proof. unfold count_effects. by rewrite List.filter_app, length_app. Qed.

(** Once the pair is recorded, no call surfaces it again. *)
Lemma emit_when_seen ctx category value key x :
  seen_pair ctx key x →
  seen_pair (emit ctx category value).1 key x
  ∧ count_effects (is_progress_call key x) (emit ctx category value).2 = 0%nat
  ∧ count_effects (is_log_write key x) (emit ctx category value).2 = 0%nat.
Proof.
  intros Hseen. unfold emit.
  destruct (bool_decide (category = "") || bool_decide (value = "")); [done|].
  pose proof (setdefault_lookup (Py.strip (Py.lower category)) (_progress_seen ctx)) as [Hl Ho].
  pose proof (setdefault_seen (Py.strip (Py.lower category)) (_progress_seen ctx) key x) as Hs.
  destruct (setdefault _ _) as [ps seen]; simpl in *.
  assert (∃ s, ps !! key = Some s ∧ x ∈ s) as Hseen' by (by apply Hs).
  destruct (bool_decide (value ∈ seen)) eqn:Hv; simpl; [done|].
  apply bool_decide_eq_false in Hv.
  assert (¬ (Py.strip (Py.lower category) = key ∧ value = x)) as Hne.
  { intros [Ek Ex]. destruct Hseen' as (s & Hs' & Hx).
    rewrite <- Ek, Hl in Hs'. simplify_eq. done. }
  split; [|split].
  - unfold seen_pair; simpl. destruct Hseen' as (s & Hs' & Hx).
    destruct (decide (Py.strip (Py.lower category) = key)) as [<-|Hk].
    + rewrite lookup_insert_eq. simplify_eq. eexists; split; [done|]. set_solver.
    + rewrite lookup_insert_ne by done. eauto.
  - destruct (event_sink ctx), (progress_cb ctx); simpl; unfold count_effects; simpl;
      try done; repeat case_bool_decide; simpl; try done; naive_solver.
  - destruct (event_sink ctx), (progress_cb ctx); simpl; unfold count_effects; simpl;
      try done; repeat case_bool_decide; simpl; try done; naive_solver.
Qed.

(** A call for another pair, or a call that the guard rejects, leaves the
    pair unrecorded and surfaces nothing for it. *)
Lemma emit_other ctx category value key x :
  ¬ seen_pair ctx key x →
  (category = "" ∨ value = "" ∨ category_key category ≠ key ∨ value ≠ x) →
  ¬ seen_pair (emit ctx category value).1 key x
  ∧ count_effects (is_progress_call key x) (emit ctx category value).2 = 0%nat
  ∧ count_effects (is_log_write key x) (emit ctx category value).2 = 0%nat.
Proof.
  intros Hfresh Hother. unfold emit, category_key in *.
  destruct (bool_decide (category = "") || bool_decide (value = "")) eqn:Hg; [done|].
  apply orb_false_iff in Hg as [Hc Hv0].
  apply bool_decide_eq_false in Hc, Hv0.
  assert (Py.strip (Py.lower category) ≠ key ∨ value ≠ x) as Hne by naive_solver.
  pose proof (setdefault_lookup (Py.strip (Py.lower category)) (_progress_seen ctx)) as [Hl Ho].
  pose proof (setdefault_seen (Py.strip (Py.lower category)) (_progress_seen ctx) key x) as Hs.
  destruct (setdefault _ _) as [ps seen]; simpl in *.
  assert (¬ ∃ s, ps !! key = Some s ∧ x ∈ s) as Hfresh'.
  { intros H. by apply Hfresh, Hs. }
  destruct (bool_decide (value ∈ seen)) eqn:Hv; simpl; [done|].
  split; [|split].
  - unfold seen_pair; simpl. intros (s & Hs' & Hx).
    destruct (decide (Py.strip (Py.lower category) = key)) as [<-|Hk].
    + rewrite lookup_insert_eq in Hs'. simplify_eq.
      apply elem_of_union in Hx as [Hx|Hx]; [set_solver|].
      apply Hfresh'. eauto.
    + rewrite lookup_insert_ne in Hs' by done. apply Hfresh'. eauto.
  - destruct (event_sink ctx), (progress_cb ctx); simpl; unfold count_effects; simpl;
      try done; repeat case_bool_decide; simpl; try done; naive_solver.
  - destruct (event_sink ctx), (progress_cb ctx); simpl; unfold count_effects; simpl;
      try done; repeat case_bool_decide; simpl; try done; naive_solver.
Qed.

(** The first call for a pair records it and surfaces it. *)
Lemma emit_first ctx category value :
  ¬ seen_pair ctx (category_key category) value →
  category ≠ "" → value ≠ "" →
  seen_pair (emit ctx category value).1 (category_key category) value
  ∧ (emit ctx category value).2
    = match event_sink ctx with
      | Some p => [EventLogWrite p (category_key category) value]
      | None => []
      end ++
      match progress_cb ctx with
      | Some cb => [ProgressCall cb (category_key category) value]
      | None => []
      end.
Proof.
  intros Hfresh Hc Hv. unfold emit, category_key in *.
  rewrite (bool_decide_eq_false_2 _ Hc), (bool_decide_eq_false_2 _ Hv). simpl.
  pose proof (setdefault_lookup (Py.strip (Py.lower category)) (_progress_seen ctx)) as [Hl Ho].
  pose proof (setdefault_seen (Py.strip (Py.lower category)) (_progress_seen ctx)
                (Py.strip (Py.lower category)) value) as Hs.
  destruct (setdefault _ _) as [ps seen]; simpl in *.
  destruct (bool_decide (value ∈ seen)) eqn:Hin; simpl.
  - apply bool_decide_eq_true in Hin. exfalso. apply Hfresh, Hs. eauto.
  - split; [|done]. unfold seen_pair; simpl. rewrite lookup_insert_eq.
    eexists; split; [done|]. set_solver.
Qed.

(** The same three facts for a sequence of calls. *)

Lemma emit_all_app ctx calls1 calls2 :
  emit_all ctx (calls1 ++ calls2)
  = ((emit_all (emit_all ctx calls1).1 calls2).1,
     (emit_all ctx calls1).2 ++ (emit_all (emit_all ctx calls1).1 calls2).2).
Proof.
  revert ctx. induction calls1 as [|[c v] calls1 IH]; intros ctx; simpl.
  - by destruct (emit_all ctx calls2).
  - destruct (emit ctx c v) as [ctx1 e1]. rewrite IH.
    destruct (emit_all ctx1 calls1) as [ctx2 e2]; simpl.
    destruct (emit_all ctx2 calls2) as [ctx3 e3]; simpl. by rewrite app_assoc.
Qed.

Lemma emit_all_keeps_observers ctx calls :
  progress_cb (emit_all ctx calls).1 = progress_cb ctx
  ∧ event_sink (emit_all ctx calls).1 = event_sink ctx.
Proof.
  revert ctx. induction calls as [|[c v] calls IH]; intros ctx; simpl; [done|].
  pose proof (emit_keeps_observers ctx c v) as [H1 _].
  pose proof (emit_keeps_sink ctx c v) as H2.
  destruct (emit ctx c v) as [ctx1 e1]. specialize (IH ctx1).
  destruct (emit_all ctx1 calls) as [ctx2 e2]; simpl in *. naive_solver congruence.
Qed.

Lemma emit_all_when_seen ctx calls key x :
  seen_pair ctx key x →
  count_effects (is_progress_call key x) (emit_all ctx calls).2 = 0%nat
  ∧ count_effects (is_log_write key x) (emit_all ctx calls).2 = 0%nat.
Proof.
  revert ctx. induction calls as [|[c v] calls IH]; intros ctx Hseen; simpl; [done|].
  pose proof (emit_when_seen ctx c v key x Hseen) as (H1 & H2 & H3).
  destruct (emit ctx c v) as [ctx1 e1]. specialize (IH ctx1 H1).
  destruct (emit_all ctx1 calls) as [ctx2 e2]; simpl in *.
  rewrite !count_effects_app. lia.
Qed.

Lemma emit_all_other ctx calls key x :
  ¬ seen_pair ctx key x →
  (∀ c v, (c, v) ∈ calls → c = "" ∨ v = "" ∨ category_key c ≠ key ∨ v ≠ x) →
  ¬ seen_pair (emit_all ctx calls).1 key x
  ∧ count_effects (is_progress_call key x) (emit_all ctx calls).2 = 0%nat
  ∧ count_effects (is_log_write key x) (emit_all ctx calls).2 = 0%nat.
Proof.
  revert ctx. induction calls as [|[c v] calls IH]; intros ctx Hfresh Hall; simpl; [done|].
  pose proof (emit_other ctx c v key x Hfresh) as (H1 & H2 & H3).
  { apply Hall. left. }
  destruct (emit ctx c v) as [ctx1 e1]. specialize (IH ctx1 H1).
  destruct (emit_all ctx1 calls) as [ctx2 e2]; simpl in *.
  rewrite !count_effects_app.
  destruct IH as (? & ? & ?); [intros; apply Hall; by right|]. split; [done|]. lia.
Qed.

Lemma fresh_not_seen ctx key x : fresh ctx → ¬ seen_pair ctx key x.
Proof. unfold fresh, seen_pair. intros -> (s & Hs & _). by rewrite lookup_empty in Hs. Qed.

(** C4 (amended).  In a run that starts with an empty de-duplication
    state, with an event log and a progress observer configured, consider
    any sequence of [emit] calls, from any number of callers, and in it
    the first call that carries a given non-empty value under a given
    non-empty category (categories being compared after lower-casing and
    trimming).  That call, and no other call of the sequence, writes the
    pair to the event log and hands it to the observer: both happen
    exactly once, however often the pair is emitted afterwards. *)
Theorem emit_exactly_once ctx pre category value post p cb :
  fresh ctx →
  event_sink ctx = Some p →
  progress_cb ctx = Some cb →
  category ≠ "" → value ≠ "" →
  (∀ c, (c, value) ∈ pre → c = "" ∨ category_key c ≠ category_key category) →
  let key := category_key category in
  let effects := (emit_all ctx (pre ++ (category, value) :: post)).2 in
  effects = (emit_all ctx pre).2
            ++ [EventLogWrite p key value; ProgressCall cb key value]
            ++ (emit_all (emit_all ctx (pre ++ [(category, value)])).1 post).2
  ∧ count_effects (is_log_write key value) effects = 1%nat
  ∧ count_effects (is_progress_call key value) effects = 1%nat.
Proof.
  intros Hfresh Hsink Hcb Hc Hv Hpre key effects. subst effects.
  pose proof (emit_all_other ctx pre key value (fresh_not_seen _ _ _ Hfresh)) as (Hn & Hp1 & Hp2).
  { intros c v Hin. destruct (decide (v = value)) as [->|]; [|by repeat right].
    destruct (Hpre c Hin); [by left|]. right; right; by left. }
  pose proof (emit_all_keeps_observers ctx pre) as [Ecb Esink].
  pose proof (emit_first (emit_all ctx pre).1 category value Hn Hc Hv) as [Hseen Heff].
  rewrite Esink, Hsink, Ecb, Hcb in Heff. simpl in Heff.
  assert ((emit_all ctx (pre ++ [(category, value)])).1
          = (emit (emit_all ctx pre).1 category value).1) as E1.
  { rewrite emit_all_app. simpl. by destruct (emit _ category value). }
  assert (emit_all ctx (pre ++ (category, value) :: post)
          = ((emit_all (emit (emit_all ctx pre).1 category value).1 post).1,
             (emit_all ctx pre).2 ++ (emit (emit_all ctx pre).1 category value).2
             ++ (emit_all (emit (emit_all ctx pre).1 category value).1 post).2)) as E2.
  { rewrite emit_all_app. simpl. destruct (emit _ category value) as [c1 e1]; simpl.
    by destruct (emit_all c1 post). }
  rewrite E2, E1, Heff. simpl.
  pose proof (emit_all_when_seen _ post key value Hseen) as [Hq1 Hq2].
  split; [done|].
  rewrite !count_effects_app.
  change (?a :: ?b :: ?l) with ([a; b] ++ l).
  rewrite !count_effects_app, Hp1, Hp2, Hq1, Hq2.
  unfold count_effects; simpl. rewrite !bool_decide_eq_true_2 by done. done.
Qed.

(** The claim's own setting: the same pair emitted four times, the
    category spelled in different cases and with surrounding blanks. *)
Lemma emit_exactly_once_witness :
  let effects :=
    (emit_all demo_context
       ([] ++ (" Subdomain", "api.example.test")
           :: [("subdomain", "api.example.test"); ("SUBDOMAIN ", "api.example.test");
               ("subdomain", "api.example.test")])).2 in
  effects = [] ++ [EventLogWrite "events.jsonl" "subdomain" "api.example.test";
                   ProgressCall 7%nat "subdomain" "api.example.test"] ++ []
  ∧ count_effects (is_log_write "subdomain" "api.example.test") effects = 1%nat
  ∧ count_effects (is_progress_call "subdomain" "api.example.test") effects = 1%nat.
Proof.
  apply (emit_exactly_once demo_context [] " Subdomain" "api.example.test"
           [("subdomain", "api.example.test"); ("SUBDOMAIN ", "api.example.test");
            ("subdomain", "api.example.test")] "events.jsonl" 7%nat).
  - reflexivity.
  - reflexivity.
  - reflexivity.
  - discriminate.
  - discriminate.
  - intros c Hc. by apply elem_of_nil in Hc.
Defined.

(** C4, as stated, at the empty category: three calls with a non-empty
    value and an observer and an event log in place surface nothing, so
    neither the observer call nor the log write happens exactly once. *)
Lemma emit_empty_category_never_fires :
  let effects :=
    (emit_all demo_context (replicate 3 ("", "api.example.test"))).2 in
  effects = []
  ∧ count_effects (is_log_write (category_key "") "api.example.test") effects ≠ 1%nat
  ∧ count_effects (is_progress_call (category_key "") "api.example.test") effects ≠ 1%nat.
Proof. vm_compute. repeat split; discriminate. Qed.

(** C10.  A call of [emit] with an empty category or an empty value
    returns at once: the context, the de-duplication state included, is
    the one it was given, and there is no effect, neither an event-log
    write nor an observer call. *)
Theorem emit_empty_is_noop (ctx : ReconContext) (category value : string) :
  emit ctx "" value = (ctx, [])
  ∧ emit ctx category "" = (ctx, []).
Proof.
  unfold emit. split; [done|].
  destruct (bool_decide (category = "")); done.
Qed.

(** *** The category key and the rest of the context *)

Lemma lower_char_space (a : ascii) : Py.is_space a = true → Py.lower_char a = a.
Proof.
  unfold Py.is_space, Py.lower_char. intros H.
  destruct ((65 <=? nat_of_ascii a)%nat && (nat_of_ascii a <=? 90)%nat) eqn:E; [|done].
  apply andb_true_iff in E as [E1 E2]. apply Nat.leb_le in E1, E2.
  apply orb_true_iff in H as [H|H]; apply andb_true_iff in H as [H1 H2];
    apply Nat.leb_le in H1, H2; lia.
Qed.

Lemma category_key_blank (category : string) :
  Py.all_chars Py.is_space category = true → category_key category = "".
Proof.
  unfold category_key, Py.strip, Py.lower.
  induction category as [|a s IH]; [done|]. simpl.
  intros [Ha Hs]%andb_true_iff. rewrite (lower_char_space a Ha), Ha. by apply IH.
Qed.

(** The guard of [emit] looks at the category as given, the key is
    taken afterwards: a category made of blanks only passes the guard
    and is surfaced under the empty key.  Observer and event log then
    receive an empty category. *)
Theorem emit_blank_category_surfaces_empty_key ctx category value p cb :
  Py.isspace category = true → value ≠ "" →
  event_sink ctx = Some p → progress_cb ctx = Some cb →
  ¬ seen_pair ctx "" value →
  (emit ctx category value).2 = [EventLogWrite p "" value; ProgressCall cb "" value]
  ∧ seen_pair (emit ctx category value).1 "" value.
Proof.
  intros Hblank Hv Hsink Hcb Hfresh.
  assert (category ≠ "") as Hc by (by destruct category).
  assert (category_key category = "") as Hkey.
  { apply category_key_blank. by destruct category. }
  destruct (emit_first ctx category value) as [Hseen Heff]; [by rewrite Hkey|done|done|].
  rewrite Hkey, Hsink, Hcb in *. done.
Qed.

Lemma emit_blank_category_surfaces_empty_key_witness :
  (emit demo_context "  " "api.example.test").2
  = [EventLogWrite "events.jsonl" "" "api.example.test";
     ProgressCall 7%nat "" "api.example.test"]
  ∧ seen_pair (emit demo_context "  " "api.example.test").1 "" "api.example.test".
Proof.
  apply (emit_blank_category_surfaces_empty_key demo_context "  " "api.example.test"
           "events.jsonl" 7%nat).
  - reflexivity.
  - discriminate.
  - reflexivity.
  - reflexivity.
  - apply fresh_not_seen. reflexivity.
Defined.

Lemma with_progress_seen_twice ctx ps ps' :
  with_progress_seen (with_progress_seen ctx ps) ps' = with_progress_seen ctx ps'.
Proof. done. Qed.

Lemma emit_frame ctx category value :
  ∃ ps, (emit ctx category value).1 = with_progress_seen ctx ps.
Proof.
  unfold emit. destruct (bool_decide (category = "") || bool_decide (value = "")).
  - exists (_progress_seen ctx). by destruct ctx.
  - destruct (setdefault _ _) as [ps seen]. destruct (bool_decide (value ∈ seen)); eauto.
Qed.

Lemma seen_pair_cases ctx key x : seen_pair ctx key x ∨ ¬ seen_pair ctx key x.
Proof.
  unfold seen_pair. destruct (_progress_seen ctx !! key) as [s|] eqn:E.
  - destruct (decide (x ∈ s)); [left; eauto|right]. intros (s' & [= <-] & ?). done.
  - right. by intros (s' & [=] & _).
Qed.

Lemma emit_all_seen ctx calls key x :
  seen_pair ctx key x → seen_pair (emit_all ctx calls).1 key x.
Proof.
  revert ctx. induction calls as [|[c v] calls IH]; intros ctx Hseen; simpl; [done|].
  pose proof (emit_when_seen ctx c v key x Hseen) as (H1 & _).
  destruct (emit ctx c v) as [ctx1 e1]. specialize (IH ctx1 H1).
  by destruct (emit_all ctx1 calls).
Qed.

(** Whatever is emitted, and however often, [emit] changes nothing of
    the context but the de-duplication state (scope, configuration,
    findings and the other accumulators stay as they are), and that
    state only grows: a pair once recorded stays recorded. *)
Theorem emit_only_grows_progress_seen ctx calls :
  (∃ ps, (emit_all ctx calls).1 = with_progress_seen ctx ps)
  ∧ (∀ key x, seen_pair ctx key x → seen_pair (emit_all ctx calls).1 key x)
  ∧ (∀ c v, (c, v) ∈ calls → c ≠ "" → v ≠ "" →
       seen_pair (emit_all ctx calls).1 (category_key c) v).
Proof.
  split; [|split].
  - revert ctx. induction calls as [|[c v] calls IH]; intros ctx; simpl.
    + exists (_progress_seen ctx). by destruct ctx.
    + destruct (emit_frame ctx c v) as [ps1 E1].
      destruct (emit ctx c v) as [ctx1 e1]. simpl in E1. subst ctx1.
      destruct (IH (with_progress_seen ctx ps1)) as [ps2 E2].
      destruct (emit_all _ calls) as [ctx2 e2]. simpl in *. subst ctx2. by exists ps2.
  - intros key x. apply emit_all_seen.
  - revert ctx. induction calls as [|[c' v'] calls IH]; intros ctx c v Hin Hc Hv.
    + by apply elem_of_nil in Hin.
    + apply elem_of_cons in Hin as [[= <- <-]|Hin]; simpl.
      * assert (seen_pair (emit ctx c v).1 (category_key c) v) as Hseen.
        { destruct (seen_pair_cases ctx (category_key c) v) as [Hs|Hs].
          - by apply emit_when_seen.
          - by apply emit_first. }
        pose proof (emit_all_seen (emit ctx c v).1 calls _ _ Hseen).
        destruct (emit ctx c v) as [ctx1 e1]. simpl in *.
        by destruct (emit_all ctx1 calls).
      * specialize (IH (emit ctx c' v').1 c v Hin Hc Hv).
        destruct (emit ctx c' v') as [ctx1 e1]. simpl in *.
        by destruct (emit_all ctx1 calls).
Qed.

End ModelsTheory.

(** ** The retrying HTTP client *)

Module HttpClientTheory.

Import HttpClient.



(** *** The attempt loop *)

Section Loop.

Variable float : string → option Q.
Variable send : Z → Py.exn + HttpResponse.
Variable draw : Z → Q.
Variable self : Client.
Variable req : HttpRequest.

Abbreviation N := (attempts self req).
Abbreviation loop := (request_loop float send draw self req).

Lemma attempts_positive : 1 ≤ N.
Proof. unfold attempts. lia. Qed.

(** The last attempt, answered by a response that is neither a server
    error nor a throttled 429, returns that response; answered by 5xx it
    returns it as well. *)
Lemma last_attempt_5xx (resp : HttpResponse) (last_exc : option Py.exn) :
  send N = inr resp → 500 ≤ status_code resp →
  (loop 1%nat N last_exc).1 = Return resp.
Proof.
  intros Hs H5. simpl. rewrite Hs.
  rewrite (proj2 (Z.ltb_ge N N)) by lia. rewrite andb_false_r.
  replace (status_code resp =? 429) with false by (symmetry; apply Z.eqb_neq; lia).
  done.
Qed.

(** The last attempt, answered by 429 while throttling is on, ends in a
    raised exception. *)
Lemma last_attempt_429 (resp : HttpResponse) (last_exc : option Py.exn) :
  send N = inr resp → status_code resp = 429 → throttle_on_429 self = true →
  (loop 1%nat N last_exc).1 = Raise (default no_response last_exc).
Proof.
  intros Hs H4 Ht. simpl. rewrite Hs, H4, Ht. simpl.
  by destruct last_exc.
Qed.

(** Attempts answered by retryable responses lead to the next attempt
    with [last_exc] untouched. *)
Lemma retryable_attempt_continues (todo : nat) (k : Z) (resp : HttpResponse)
    (last_exc : option Py.exn) :
  k < N → send k = inr resp → retryable_response (throttle_on_429 self) resp →
  (loop (S todo) k last_exc).1 = (loop todo (k + 1) last_exc).1.
Proof.
  intros Hk Hs Hr. simpl. rewrite Hs.
  rewrite (proj2 (Z.ltb_lt k N)) by done. rewrite andb_true_r.
  destruct (500 <=? status_code resp) eqn:E5.
  - by destruct (loop todo (k + 1) last_exc).
  - apply Z.leb_gt in E5. destruct Hr as [?|[H4 Ht]]; [lia|].
    rewrite H4, Ht. simpl. by destruct (loop todo (k + 1) last_exc).
Qed.

Lemma responses_reach_last_attempt (todo : nat) (k : Z) (last_exc : option Py.exn) :
  k + Z.of_nat todo = N →
  (∀ i, k ≤ i < N → ∃ resp, send i = inr resp
                            ∧ retryable_response (throttle_on_429 self) resp) →
  (loop (S todo) k last_exc).1 = (loop 1%nat N last_exc).1.
Proof.
  revert k. induction todo as [|todo IH]; intros k Hk Hall.
  - by replace k with N by lia.
  - destruct (Hall k) as (resp & Hs & Hr); [lia|].
    rewrite (retryable_attempt_continues _ _ resp) by (done || lia).
    apply IH; [lia|]. intros i Hi. apply Hall. lia.
Qed.

(** The part of C1 that the code keeps: a budget spent on 5xx and
    throttled 429 responses whose last response is a 5xx returns that
    last response. *)
Lemma exhaustion_ending_in_5xx_returns (resp : HttpResponse) :
  (∀ i, 1 ≤ i < N → ∃ r, send i = inr r ∧ retryable_response (throttle_on_429 self) r) →
  send N = inr resp → 500 ≤ status_code resp →
  (request float send draw self req).1 = Return resp.
Proof.
  intros Hall Hs H5. unfold request.
  pose proof attempts_positive.
  replace (Z.to_nat N) with (S (Z.to_nat (N - 1))) by lia.
  rewrite responses_reach_last_attempt; [by apply last_attempt_5xx|lia|done].
Qed.

(** The part that fails: a budget spent on such responses whose last
    response is a throttled 429 raises [RuntimeError]. *)
Lemma exhaustion_ending_in_429_raises (resp : HttpResponse) :
  (∀ i, 1 ≤ i < N → ∃ r, send i = inr r ∧ retryable_response (throttle_on_429 self) r) →
  send N = inr resp → status_code resp = 429 → throttle_on_429 self = true →
  (request float send draw self req).1 = Raise no_response.
Proof.
  intros Hall Hs H4 Ht. unfold request.
  pose proof attempts_positive.
  replace (Z.to_nat N) with (S (Z.to_nat (N - 1))) by lia.
  rewrite responses_reach_last_attempt; [by rewrite (last_attempt_429 resp)|lia|done].
Qed.

(** Transport failures on every attempt re-raise the last failure. *)
Lemma failures_reach_end (todo : nat) (k : Z) (last_exc : option Py.exn) :
  k + Z.of_nat todo = N + 1 →
  (∀ i, k ≤ i ≤ N → ∃ exc, send i = inl exc) →
  (loop todo k last_exc).1
  = Raise (match todo with
           | O => default no_response last_exc
           | S _ => match send N with inl exc => exc | inr _ => no_response end
           end).
Proof.
  revert k last_exc. induction todo as [|todo IH]; intros k last_exc Hk Hall.
  - simpl. by destruct last_exc.
  - destruct (Hall k) as (exc & Hs); [lia|].
    assert ((loop (S todo) k last_exc).1 = (loop todo (k + 1) (Some exc)).1) as ->.
    { simpl. rewrite Hs. destruct (k <? N); by destruct (loop todo (k + 1) (Some exc)). }
    rewrite IH; [|lia|intros; apply Hall; lia].
    destruct todo; [|done]. simpl. replace N with k by lia. by rewrite Hs.
Qed.

Lemma all_failures_raise_last :
  (∀ i, 1 ≤ i ≤ N → ∃ exc, send i = inl exc) →
  ∃ exc, send N = inl exc ∧ (request float send draw self req).1 = Raise exc.
Proof.
  intros Hall. pose proof attempts_positive.
  destruct (Hall N) as (exc & Hs); [lia|]. exists exc. split; [done|].
  unfold request. rewrite failures_reach_end; [|lia|done].
  destruct (Z.to_nat N) eqn:E; [lia|]. by rewrite Hs.
Qed.

End Loop.

(** C1, at the input where the code departs from it.  The default client
    (three attempts, throttling on) receives 429 at each of its three
    attempts: [request] sleeps three times and then raises
    [RuntimeError("HTTP request failed with no response")]; the last
    response is not returned. *)
Theorem request_429_exhaustion_raises :
  let send := λ _ : Z, inr (bare_response 429 []) in
  let draw := λ _ : Z, (1 # 2)%Q in
  request decimal_float send draw default_client (get_request "http://example.test/")
  = (Raise no_response,
     [LogThrottled (_compute_backoff 1 (1 # 2) (1 # 5) (1 # 2));
      Sleep (_compute_backoff 1 (1 # 2) (1 # 5) (1 # 2));
      LogThrottled (_compute_backoff 2 (1 # 2) (1 # 5) (1 # 2));
      Sleep (_compute_backoff 2 (1 # 2) (1 # 5) (1 # 2));
      LogThrottled (_compute_backoff 3 (1 # 2) (1 # 5) (1 # 2));
      Sleep (_compute_backoff 3 (1 # 2) (1 # 5) (1 # 2))]).
Proof. reflexivity. Qed.

(** The sibling path: 503 at each of the three attempts returns the last
    response. *)
Example request_503_exhaustion_returns :
  (request decimal_float (λ _, inr (bare_response 503 [])) (λ _, (1 # 2)%Q)
     default_client (get_request "http://example.test/")).1
  = Return (bare_response 503 []).
Proof. reflexivity. Qed.

(** *** What a call of [request] amounts to *)

Section Outcome.

Variable float : string → option Q.
Variable send : Z → Py.exn + HttpResponse.
Variable draw : Z → Q.
Variable self : Client.
Variable req : HttpRequest.

Lemma loop_returns (todo : nat) (k0 : Z) (last_exc : option Py.exn)
    (resp : HttpResponse) (evs : list Event) :
  k0 + Z.of_nat todo = attempts self req + 1 →
  request_loop float send draw self req todo k0 last_exc = (Return resp, evs) →
  ∃ k, k0 ≤ k ≤ attempts self req ∧ send k = inr resp
       ∧ retried self (attempts self req) k resp = false
       ∧ (∀ i, k0 ≤ i < k → goes_on self (attempts self req) send i)
       ∧ length (sleeps evs) = Z.to_nat (k - k0).
Proof.
  revert k0 last_exc evs. induction todo as [|todo IH]; intros k0 last_exc evs Hk.
  - simpl. by destruct last_exc.
  - assert (∀ evs' k,
      (k0 + 1 ≤ k ≤ attempts self req ∧ send k = inr resp
       ∧ retried self (attempts self req) k resp = false
       ∧ (∀ i, k0 + 1 ≤ i < k → goes_on self (attempts self req) send i)
       ∧ length (sleeps evs') = Z.to_nat (k - (k0 + 1))) →
      goes_on self (attempts self req) send k0 →
      k0 ≤ k ≤ attempts self req ∧ send k = inr resp
      ∧ retried self (attempts self req) k resp = false
      ∧ (∀ i, k0 ≤ i < k → goes_on self (attempts self req) send i)
      ∧ S (length (sleeps evs')) = Z.to_nat (k - k0)) as Hnext.
    { intros evs' k (Hr & Hs & Hn & Hall & Hlen) Hg.
      repeat split; [lia|lia|done|done| |lia].
      intros i Hi. destruct (decide (i = k0)) as [->|]; [done|]. apply Hall. lia. }
    simpl. destruct (send k0) as [exc|r] eqn:Hs.
    + destruct (k0 <? attempts self req) eqn:Hlt;
        destruct (request_loop float send draw self req todo (k0 + 1) (Some exc))
          as [out evs'] eqn:El; intros [= -> <-].
      * apply IH in El as (k & Hk'); [|lia]. exists k.
        apply Hnext; [done|]. unfold goes_on. by rewrite Hs.
      * apply Z.ltb_ge in Hlt. destruct todo; [|lia]. simpl in El. done.
    + destruct ((500 <=? status_code r) && (k0 <? attempts self req)) eqn:E5.
      { destruct (request_loop float send draw self req todo (k0 + 1) last_exc)
          as [out evs'] eqn:El; intros [= -> <-].
        apply IH in El as (k & Hk'); [|lia]. exists k.
        apply Hnext; [done|]. unfold goes_on, retried. by rewrite Hs, E5. }
      destruct ((status_code r =? 429) && throttle_on_429 self) eqn:E4.
      { destruct (request_loop float send draw self req todo (k0 + 1) last_exc)
          as [out evs'] eqn:El; intros [= -> <-].
        apply IH in El as (k & Hk'); [|lia]. exists k.
        apply Hnext; [done|]. unfold goes_on, retried.
        by rewrite Hs, E4, orb_true_r. }
      intros [= -> <-]. exists k0. repeat split; [lia|lia|done| |intros; lia|].
      * unfold retried. by rewrite E5, E4.
      * simpl. lia.
Qed.

(** A response that [request] returns is the response of one of its
    attempts, and the first one that was not retried: it is no throttled
    429, it is a server error only at the last attempt, and every
    earlier attempt raised or was retried.  One delay was slept after
    each earlier attempt. *)
Theorem request_returns_first_settled (resp : HttpResponse) (evs : list Event) :
  request float send draw self req = (Return resp, evs) →
  ∃ k, 1 ≤ k ≤ attempts self req
       ∧ send k = inr resp
       ∧ ¬ (status_code resp = 429 ∧ throttle_on_429 self = true)
       ∧ (500 ≤ status_code resp → k = attempts self req)
       ∧ (∀ i, 1 ≤ i < k → goes_on self (attempts self req) send i)
       ∧ length (sleeps evs) = Z.to_nat (k - 1).
Proof.
  intros Hreq. apply loop_returns in Hreq as (k & Hk & Hs & Hn & Hall & Hlen).
  - exists k. repeat split; try done; try lia.
    + intros [H4 Ht]. unfold retried in Hn. rewrite H4, Ht in Hn.
      by rewrite orb_true_r in Hn.
    + intros H5. unfold retried in Hn. apply orb_false_elim in Hn as [Hn _].
      apply andb_false_iff in Hn as [Hn|Hn]; [apply Z.leb_gt in Hn|apply Z.ltb_ge in Hn]; lia.
  - pose proof (attempts_positive self req). lia.
Qed.

Lemma loop_raises (todo : nat) (k0 : Z) (last_exc : option Py.exn)
    (exc : Py.exn) (evs : list Event) :
  k0 + Z.of_nat todo = attempts self req + 1 →
  request_loop float send draw self req todo k0 last_exc = (Raise exc, evs) →
  (∀ i, k0 ≤ i ≤ attempts self req → goes_on self (attempts self req) send i)
  ∧ ((∃ k, k0 ≤ k ≤ attempts self req ∧ send k = inl exc
           ∧ ∀ i, k < i ≤ attempts self req → ∃ r, send i = inr r)
     ∨ (exc = default no_response last_exc
        ∧ ∀ i, k0 ≤ i ≤ attempts self req → ∃ r, send i = inr r)).
Proof.
  revert k0 last_exc evs. induction todo as [|todo IH]; intros k0 last_exc evs Hk.
  - simpl. intros Hl. split; [intros; lia|]. right. split; [|intros; lia].
    destruct last_exc; by inversion Hl.
  - assert (∀ le evs',
      request_loop float send draw self req todo (k0 + 1) le = (Raise exc, evs') →
      goes_on self (attempts self req) send k0 →
      (∀ i, k0 ≤ i ≤ attempts self req → goes_on self (attempts self req) send i)
      ∧ ((∃ k, k0 + 1 ≤ k ≤ attempts self req ∧ send k = inl exc
               ∧ ∀ i, k < i ≤ attempts self req → ∃ r, send i = inr r)
         ∨ (exc = default no_response le
            ∧ ∀ i, k0 + 1 ≤ i ≤ attempts self req → ∃ r, send i = inr r))) as Hnext.
    { intros le evs' El Hg. apply IH in El as [Hall Hc]; [|lia]. split; [|done].
      intros i Hi. destruct (decide (i = k0)) as [->|]; [done|]. apply Hall. lia. }
    simpl. destruct (send k0) as [e|r] eqn:Hs.
    + assert (∀ evs',
        request_loop float send draw self req todo (k0 + 1) (Some e) = (Raise exc, evs') →
        (∀ i, k0 ≤ i ≤ attempts self req → goes_on self (attempts self req) send i)
        ∧ ((∃ k, k0 ≤ k ≤ attempts self req ∧ send k = inl exc
               ∧ ∀ i, k < i ≤ attempts self req → ∃ r, send i = inr r)
           ∨ (exc = default no_response last_exc
              ∧ ∀ i, k0 ≤ i ≤ attempts self req → ∃ r, send i = inr r))) as Hfail.
      { intros evs' El. apply Hnext in El as [Hall Hc]; [|unfold goes_on; by rewrite Hs].
        split; [done|]. left. destruct Hc as [(k & Hk' & Hsk & Hafter)|[-> Hafter]].
        - exists k. split; [lia|done].
        - exists k0. split; [lia|]. split; [done|]. intros i Hi. apply Hafter. lia. }
      destruct (k0 <? attempts self req);
        destruct (request_loop float send draw self req todo (k0 + 1) (Some e))
          as [out evs'] eqn:El; intros [= -> <-]; by eapply Hfail.
    + assert (∀ evs',
        retried self (attempts self req) k0 r = true →
        request_loop float send draw self req todo (k0 + 1) last_exc = (Raise exc, evs') →
        (∀ i, k0 ≤ i ≤ attempts self req → goes_on self (attempts self req) send i)
        ∧ ((∃ k, k0 ≤ k ≤ attempts self req ∧ send k = inl exc
               ∧ ∀ i, k < i ≤ attempts self req → ∃ r, send i = inr r)
           ∨ (exc = default no_response last_exc
              ∧ ∀ i, k0 ≤ i ≤ attempts self req → ∃ r, send i = inr r))) as Hresp.
      { intros evs' Hr El.
        apply Hnext in El as [Hall Hc]; [|unfold goes_on; by rewrite Hs].
        split; [done|]. destruct Hc as [(k & Hk' & Hsk & Hafter)|[-> Hafter]].
        - left. exists k. split; [lia|done].
        - right. split; [done|]. intros i Hi.
          destruct (decide (i = k0)) as [->|]; [by exists r|]. apply Hafter. lia. }
      destruct ((500 <=? status_code r) && (k0 <? attempts self req)) eqn:E5.
      { destruct (request_loop float send draw self req todo (k0 + 1) last_exc)
          as [out evs'] eqn:El; intros [= -> <-].
        eapply Hresp; [|done]. unfold retried. by rewrite E5. }
      destruct ((status_code r =? 429) && throttle_on_429 self) eqn:E4; [|done].
      destruct (request_loop float send draw self req todo (k0 + 1) last_exc)
        as [out evs'] eqn:El; intros [= -> <-].
      eapply Hresp; [|done]. unfold retried. by rewrite E4, orb_true_r.
Qed.

(** When [request] raises, no attempt settled the call: each one raised
    or was retried.  What it raises is the exception of the last attempt
    that raised, later attempts having been answered; when every attempt
    was answered it is the [RuntimeError] of the end of the function. *)
Theorem request_raises_last_failure (exc : Py.exn) (evs : list Event) :
  request float send draw self req = (Raise exc, evs) →
  (∀ i, 1 ≤ i ≤ attempts self req → goes_on self (attempts self req) send i)
  ∧ ((∃ k, 1 ≤ k ≤ attempts self req ∧ send k = inl exc
           ∧ ∀ i, k < i ≤ attempts self req → ∃ r, send i = inr r)
     ∨ (exc = no_response ∧ ∀ i, 1 ≤ i ≤ attempts self req → ∃ r, send i = inr r)).
Proof.
  intros Hreq. apply loop_raises in Hreq; [done|].
  pose proof (attempts_positive self req). lia.
Qed.

End Outcome.

Lemma request_returns_first_settled_witness :
  let send := λ i : Z, if decide (i = 3) then inr (bare_response 200 [])
                       else inr (bare_response 503 []) in
  let evs := (request decimal_float send (λ _, (1 # 2)%Q) default_client
                (get_request "http://example.test/")).2 in
  ∃ k, 1 ≤ k ≤ 3
       ∧ send k = inr (bare_response 200 [])
       ∧ ¬ (200 = 429 ∧ true = true)
       ∧ (500 ≤ 200 → k = 3)
       ∧ (∀ i, 1 ≤ i < k → goes_on default_client 3 send i)
       ∧ length (sleeps evs) = Z.to_nat (k - 1).
Proof.
  intros send evs.
  apply (request_returns_first_settled decimal_float send (λ _, (1 # 2)%Q)
           default_client (get_request "http://example.test/")).
  reflexivity.
Defined.

Lemma request_raises_last_failure_witness :
  let refused := Py.Exn "ConnectionError" "connection refused" in
  let send := λ i : Z, if decide (i = 1) then inl refused
                       else inr (bare_response 429 []) in
  (∀ i, 1 ≤ i ≤ 3 → goes_on default_client 3 send i)
  ∧ ((∃ k, 1 ≤ k ≤ 3 ∧ send k = inl refused ∧ ∀ i, k < i ≤ 3 → ∃ r, send i = inr r)
     ∨ (refused = no_response ∧ ∀ i, 1 ≤ i ≤ 3 → ∃ r, send i = inr r)).
Proof.
  intros refused send.
  apply (request_raises_last_failure decimal_float send (λ _, (1 # 2)%Q) default_client
           (get_request "http://example.test/") refused
           (request decimal_float send (λ _, (1 # 2)%Q) default_client
              (get_request "http://example.test/")).2).
  reflexivity.
Defined.

End HttpClientTheory.

(** ** The reactive task queue *)

Module TaskQueueTheory.

Import DecisionEngine TaskQueue.

(** *** Lists without repetitions *)

Lemma first_occurrences_elem (S : gset string) (l : list string) (x : string) :
  x ∈ first_occurrences S l ↔ x ∈ l ∧ x ∉ S.
Proof.
  revert S. induction l as [|y l IH]; intros S; simpl.
  - rewrite elem_of_nil. naive_solver.
  - case_bool_decide as Hy.
    + rewrite IH, elem_of_cons. naive_solver.
    + rewrite !elem_of_cons, IH. split.
      * intros [->|[? ?]]; [naive_solver|]. split; [by right|set_solver].
      * intros [[->|?] ?]; [by left|].
        destruct (decide (x = y)) as [->|]; [by left|]. right. set_solver.
Qed.

Lemma first_occurrences_NoDup (S : gset string) (l : list string) :
  NoDup (first_occurrences S l).
Proof.
  revert S. induction l as [|y l IH]; intros S; simpl; [constructor|].
  case_bool_decide; [done|]. constructor; [|done].
  rewrite first_occurrences_elem. set_solver.
Qed.

Lemma first_occurrences_snoc (S : gset string) (l : list string) (x : string) :
  first_occurrences S (l ++ [x])
  = first_occurrences S l
    ++ (if bool_decide (x ∈ S ∪ list_to_set l) then [] else [x]).
Proof.
  revert S. induction l as [|y l IH]; intros S; simpl.
  - rewrite (right_id_L ∅ (∪)). by case_bool_decide.
  - case_bool_decide as Hy.
    + rewrite IH. by replace (S ∪ ({[y]} ∪ list_to_set l)) with (S ∪ list_to_set l)
        by set_solver.
    + rewrite IH. simpl.
      by replace (S ∪ ({[y]} ∪ list_to_set l)) with ({[y]} ∪ S ∪ list_to_set l)
        by set_solver.
Qed.

Lemma first_occurrences_app (S : gset string) (l1 l2 : list string) :
  first_occurrences S (l1 ++ l2)
  = first_occurrences S l1 ++ first_occurrences (S ∪ list_to_set l1) l2.
Proof.
  revert S. induction l1 as [|y l1 IH]; intros S; simpl.
  - by rewrite (right_id_L ∅ (∪)).
  - case_bool_decide as Hy.
    + rewrite IH. by replace (S ∪ ({[y]} ∪ list_to_set l1)) with (S ∪ list_to_set l1)
        by set_solver.
    + rewrite IH. simpl.
      by replace (S ∪ ({[y]} ∪ list_to_set l1)) with ({[y]} ∪ S ∪ list_to_set l1)
        by set_solver.
Qed.

Lemma size_list_to_set_le (l : list string) :
  (size (list_to_set l : gset string) ≤ length l)%nat.
Proof.
  induction l as [|x l IH]; simpl.
  - change (size (∅ : gset string) ≤ 0)%nat. by rewrite size_empty.
  - change (size ({[x]} ∪ list_to_set l : gset string) ≤ S (length l))%nat.
    rewrite size_union_alt, size_singleton.
    assert (size (list_to_set l ∖ {[x]} : gset string) ≤ size (list_to_set l : gset string))%nat
      by (apply subseteq_size; set_solver).
    lia.
Qed.

(** *** Endpoints enter at the back *)

Lemma enqueue_spec (seen : gset string) (queue eps : list string) :
  enqueue seen queue eps
  = queue ++ first_occurrences (seen ∪ list_to_set queue) eps.
Proof.
  unfold enqueue. revert queue. induction eps as [|ep eps IH]; intros queue; simpl.
  - by rewrite app_nil_r.
  - rewrite IH. destruct (decide (ep ∈ seen)) as [Hs|Hs].
    + rewrite (bool_decide_eq_false_2 (ep ∉ seen)) by tauto. simpl.
      rewrite bool_decide_eq_true_2 by set_solver. done.
    + rewrite (bool_decide_eq_true_2 (ep ∉ seen)) by done. simpl.
      destruct (decide (ep ∈ queue)) as [Hq|Hq].
      * rewrite (bool_decide_eq_false_2 (ep ∉ queue)) by tauto.
        rewrite bool_decide_eq_true_2 by set_solver. done.
      * rewrite (bool_decide_eq_true_2 (ep ∉ queue)) by done.
        rewrite (bool_decide_eq_false_2 (ep ∈ seen ∪ list_to_set queue)) by set_solver.
        rewrite <- app_assoc. simpl. do 2 f_equal.
        f_equal. rewrite list_to_set_app_L. set_solver.
Qed.

Lemma collect_spec (seen : gset string) (queue : list string) (ctx : TaskContext) :
  collect seen queue ctx
  = (queue ++ first_occurrences (seen ∪ list_to_set queue) (new_endpoints ctx),
     clear_endpoints ctx).
Proof.
  unfold collect. destruct ctx as [lg fs news]; cbn [new_endpoints].
  destruct news as [|e news']; [by rewrite app_nil_r|].
  by rewrite enqueue_spec.
Qed.

Section Loop.

Variable probe_url : string → ProbeResult.
Variable bypass_run fuzzer_run js_spider_run : string → TaskContext → TaskContext.

Abbreviation step := (iteration probe_url bypass_run fuzzer_run js_spider_run).
Abbreviation steps := (after probe_url bypass_run fuzzer_run js_spider_run).
Abbreviation loop := (while_queue probe_url bypass_run fuzzer_run js_spider_run).
Abbreviation tasks_loop := (run_tasks bypass_run fuzzer_run js_spider_run).

(** The task loop only appends to the queue, and what it appends was
    neither seen nor queued and is free of repetitions. *)
Lemma run_tasks_appends tasks target (seen : gset string) queue ctx :
  ∃ new, (tasks_loop tasks target seen queue ctx).1 = queue ++ new
         ∧ NoDup new
         ∧ ∀ ep, ep ∈ new → (ep ∉ seen) ∧ (ep ∉ queue).
Proof.
  revert queue ctx. induction tasks as [|task tasks IH]; intros queue ctx; simpl.
  - exists []. rewrite app_nil_r. split; [done|]. split; [constructor|].
    intros ep Hep. by apply elem_of_nil in Hep.
  - rewrite collect_spec.
    set (new1 := first_occurrences _ _).
    destruct (IH (queue ++ new1)
                (clear_endpoints (_execute_task bypass_run fuzzer_run js_spider_run
                                    task target ctx))) as (new2 & E & Hnd & Hnew).
    exists (new1 ++ new2). rewrite E, app_assoc. split; [done|].
    assert (∀ ep, ep ∈ new1 → (ep ∉ seen) ∧ (ep ∉ queue)) as Hnew1.
    { intros ep Hep. apply first_occurrences_elem in Hep. set_solver. }
    split.
    + apply NoDup_app. split; [apply first_occurrences_NoDup|]. split; [|done].
      intros ep H1 H2. apply Hnew in H2. set_solver.
    + intros ep [H1|H2]%elem_of_app; [by apply Hnew1|].
      apply Hnew in H2. set_solver.
Qed.

(** What the task loop appends: the endpoints its tasks report, in the
    order of the reports, those seen or queued and the repetitions being
    left out. *)
Lemma run_tasks_reported tasks target (seen : gset string) queue ctx :
  (tasks_loop tasks target seen queue ctx).1
  = queue ++ first_occurrences (seen ∪ list_to_set queue)
               (reported bypass_run fuzzer_run js_spider_run tasks target ctx).
Proof.
  revert queue ctx. induction tasks as [|task tasks IH]; intros queue ctx; simpl.
  - by rewrite app_nil_r.
  - rewrite collect_spec, IH, first_occurrences_app, <- app_assoc. do 3 f_equal.
    apply leibniz_equiv. intros x.
    rewrite !elem_of_union, !elem_of_list_to_set, elem_of_app, first_occurrences_elem.
    rewrite elem_of_union, elem_of_list_to_set.
    destruct (decide (x ∈ seen)); destruct (decide (x ∈ queue)); tauto.
Qed.

(** One iteration appends the endpoints discovered in it. *)
Lemma iteration_discovered (st : LoopState) (target : string) (rest : list string) :
  queue st = target :: rest →
  queue (step st)
  = rest ++ first_occurrences (seen (step st) ∪ list_to_set rest)
              (discovered probe_url bypass_run fuzzer_run js_spider_run st).
Proof.
  intros Hq. unfold iteration, discovered. rewrite Hq.
  case_bool_decide as Hseen; simpl; [by rewrite app_nil_r|].
  match goal with
  | |- context [run_tasks _ _ _ ?ts ?tg ?sn ?q ?c] =>
      pose proof (run_tasks_reported ts tg sn q c) as E;
      destruct (run_tasks bypass_run fuzzer_run js_spider_run ts tg sn q c) as [q' c']
  end.
  simpl in *. by subst q'.
Qed.

(** One iteration: the head of the queue leaves it, endpoints enter at
    the back, and the head is probed unless it was seen before. *)
Lemma iteration_spec (st : LoopState) (target : string) (rest : list string) :
  queue st = target :: rest →
  popped (step st) = popped st ++ [target]
  ∧ seen (step st) = {[target]} ∪ seen st
  ∧ probed (step st) = probed st ++ (if bool_decide (target ∈ seen st) then [] else [target])
  ∧ ∃ new, queue (step st) = rest ++ new
           ∧ NoDup new
           ∧ (∀ ep, ep ∈ new → (ep ∉ seen (step st)) ∧ (ep ∉ rest))
           ∧ (target ∈ seen st → new = []).
Proof.
  intros Hq. unfold iteration. rewrite Hq.
  case_bool_decide as Hseen; simpl.
  - rewrite app_nil_r. split; [done|]. split; [set_solver|]. split; [done|].
    exists []. rewrite app_nil_r. split; [done|]. split; [constructor|].
    split; [|done]. intros ep Hep. by apply elem_of_nil in Hep.
  - match goal with
    | |- context [run_tasks _ _ _ ?ts ?tg ?sn ?q ?c] =>
        destruct (run_tasks_appends ts tg sn q c) as (new & E & Hnd & Hnew);
        destruct (run_tasks bypass_run fuzzer_run js_spider_run ts tg sn q c) as [q' c']
    end.
    simpl in *. subst q'. repeat split; try done.
    exists new. repeat split; try done; naive_solver.
Qed.

Lemma iteration_empty (st : LoopState) : queue st = [] → step st = st.
Proof. intros Hq. unfold iteration. by rewrite Hq. Qed.

Lemma after_succ (n : nat) (st : LoopState) : steps (S n) st = step (steps n st).
Proof. revert st. induction n as [|n IH]; intros st; [done|]. simpl in *. by rewrite IH. Qed.

(** *** Invariant of the loop *)

Lemma loop_invariant (st : LoopState) :
  loop_invariant_holds st → loop_invariant_holds (step st).
Proof.
  intros [Hseen Hprobed]. destruct (queue st) as [|target rest] eqn:Hq.
  - by rewrite iteration_empty.
  - destruct (iteration_spec st target rest Hq) as (Hp & Hs & Hpr & _).
    split.
    + rewrite Hs, Hp, Hseen, list_to_set_app_L. set_solver.
    + rewrite Hpr, Hp, Hprobed, first_occurrences_snoc, Hseen.
      by rewrite (left_id_L ∅ (∪)).
Qed.

Lemma initial_invariant (initial_targets : list string) :
  loop_invariant_holds (initial initial_targets).
Proof. by split. Qed.

Lemma after_invariant (n : nat) (st : LoopState) :
  loop_invariant_holds st → loop_invariant_holds (steps n st).
Proof.
  induction n as [|n IH]; [done|]. intros H. rewrite after_succ.
  by apply loop_invariant, IH.
Qed.

(** *** The exit of the loop *)

Lemma while_queue_spec (fuel : nat) (st st' : LoopState) :
  loop fuel st = Some st' ↔
  ∃ n, (n ≤ fuel)%nat ∧ st' = steps n st ∧ queue st' = []
       ∧ ∀ m, (m < n)%nat → queue (steps m st) ≠ [].
Proof.
  revert st. induction fuel as [|fuel IH]; intros st; simpl.
  - destruct (queue st) as [|t rest] eqn:Hq.
    + split.
      * intros [= <-]. exists 0%nat. repeat split; try done. lia.
      * intros (n & Hn & -> & _ & _). by replace n with 0%nat by lia.
    + split; [done|]. intros (n & Hn & -> & Hq' & _).
      replace n with 0%nat in Hq' by lia. simpl in Hq'. congruence.
  - destruct (queue st) as [|t rest] eqn:Hq.
    + split.
      * intros [= <-]. exists 0%nat. repeat split; try done; lia.
      * intros (n & Hn & -> & Hq' & Hmin). destruct n as [|n]; [done|].
        exfalso. apply (Hmin 0%nat); [lia|done].
    + rewrite IH. split.
      * intros (n & Hn & -> & Hq' & Hmin). exists (S n). repeat split; try done; [lia|].
        intros [|m] Hm; simpl; [congruence|]. apply Hmin. lia.
      * intros (n & Hn & -> & Hq' & Hmin). destruct n as [|n]; [simpl in Hq'; congruence|].
        exists n. repeat split; try done; [lia|].
        intros m Hm. apply (Hmin (S m)). lia.
Qed.

(** *** Termination when finitely many endpoints can be discovered *)

Section Finite.

Variable U : list string.
Hypothesis bypass_within : reports_within U bypass_run.
Hypothesis fuzzer_within : reports_within U fuzzer_run.
Hypothesis js_spider_within : reports_within U js_spider_run.

Lemma execute_task_within task target ctx ep :
  ep ∈ new_endpoints (_execute_task bypass_run fuzzer_run js_spider_run task target ctx) →
  ep ∈ new_endpoints ctx ∨ ep ∈ U.
Proof.
  unfold _execute_task. repeat case_bool_decide; eauto.
Qed.

Lemma run_tasks_within tasks target (seen : gset string) queue ctx :
  new_endpoints ctx = [] →
  new_endpoints (tasks_loop tasks target seen queue ctx).2 = []
  ∧ ∃ new, (tasks_loop tasks target seen queue ctx).1 = queue ++ new
           ∧ NoDup new
           ∧ ∀ ep, ep ∈ new → (ep ∉ seen) ∧ (ep ∉ queue) ∧ ep ∈ U.
Proof.
  revert queue ctx. induction tasks as [|task tasks IH]; intros queue ctx Hctx; simpl.
  - split; [done|]. exists []. rewrite app_nil_r. split; [done|]. split; [constructor|].
    intros ep Hep. by apply elem_of_nil in Hep.
  - rewrite collect_spec.
    set (ctx1 := _execute_task bypass_run fuzzer_run js_spider_run task target ctx).
    set (new1 := first_occurrences _ _).
    destruct (IH (queue ++ new1) (clear_endpoints ctx1)) as (Hend & new2 & E & Hnd & Hnew);
      [done|].
    split; [done|]. exists (new1 ++ new2). rewrite E, app_assoc. split; [done|].
    assert (∀ ep, ep ∈ new1 → (ep ∉ seen) ∧ (ep ∉ queue) ∧ ep ∈ U) as Hnew1.
    { intros ep Hep. apply first_occurrences_elem in Hep as [Hin Hout].
      apply execute_task_within in Hin as [Hin|Hin].
      - rewrite Hctx in Hin. by apply elem_of_nil in Hin.
      - set_solver. }
    split.
    + apply NoDup_app. split; [apply first_occurrences_NoDup|]. split; [|done].
      intros ep H1 H2. apply Hnew in H2. set_solver.
    + intros ep [H1|H2]%elem_of_app; [by apply Hnew1|].
      apply Hnew in H2. set_solver.
Qed.

Lemma iteration_decreases (st : LoopState) :
  new_endpoints (ctx st) = [] → queue st ≠ [] →
  new_endpoints (ctx (step st)) = []
  ∧ (remaining U (step st) < remaining U st)%nat.
Proof.
  intros Hctx Hq. destruct (queue st) as [|target rest] eqn:E; [done|]. clear Hq.
  unfold remaining, iteration. rewrite E.
  case_bool_decide as Hseen; simpl.
  - split; [done|].
    replace (seen st ∪ ({[target]} ∪ list_to_set rest)) with (seen st ∪ list_to_set rest)
      by set_solver.
    lia.
  - match goal with
    | |- context [run_tasks _ _ _ ?ts ?tg ?sn ?q ?c] =>
        destruct (run_tasks_within ts tg sn q c) as (Hend & new & Eq & Hnd & Hnew);
        [done|];
        destruct (run_tasks bypass_run fuzzer_run js_spider_run ts tg sn q c) as [q' c']
    end.
    simpl in *. subst q'. split; [done|].
    rewrite length_app, list_to_set_app_L.
    set (D := (list_to_set U ∖ (seen st ∪ ({[target]} ∪ list_to_set rest)) : gset string)).
    replace (list_to_set U ∖ ({[target]} ∪ seen st ∪ (list_to_set rest ∪ list_to_set new)))
      with (D ∖ list_to_set new) by set_solver.
    rewrite size_difference.
    + rewrite size_list_to_set by done.
      assert (size (list_to_set new : gset string) ≤ size D)%nat as Hle.
      { apply subseteq_size. intros ep Hep. apply elem_of_list_to_set in Hep.
        apply Hnew in Hep. set_solver. }
      rewrite size_list_to_set in Hle by done. lia.
    + intros ep Hep. apply elem_of_list_to_set in Hep. apply Hnew in Hep. set_solver.
Qed.

Lemma while_queue_enough_fuel (fuel : nat) (st : LoopState) :
  new_endpoints (ctx st) = [] → (remaining U st ≤ fuel)%nat →
  is_Some (loop fuel st).
Proof.
  revert st. induction fuel as [|fuel IH]; intros st Hctx Hfuel; simpl.
  - destruct (queue st) eqn:E; [done|]. unfold remaining in Hfuel. rewrite E in Hfuel.
    simpl in Hfuel. lia.
  - destruct (queue st) eqn:E; [done|].
    destruct (iteration_decreases st) as [Hctx' Hlt]; [done|congruence|].
    apply IH; [done|lia].
Qed.

(** With task modules that can report the endpoints of [U] only, the
    loop ends, after at most one iteration per seed and per endpoint of
    [U]. *)
Lemma run_task_queue_terminates (initial_targets : list string) :
  is_Some (run_task_queue probe_url bypass_run fuzzer_run js_spider_run
             (length initial_targets + length U) initial_targets).
Proof.
  unfold run_task_queue. apply fmap_is_Some, while_queue_enough_fuel; [done|].
  unfold remaining, initial; simpl. rewrite length_fmap.
  assert (size (list_to_set U ∖ (∅ ∪ list_to_set (_normalize_target <$> initial_targets))
                : gset string) ≤ length U)%nat; [|lia].
  etrans; [apply subseteq_size|apply size_list_to_set_le]. set_solver.
Qed.

End Finite.

End Loop.

(** C6 (amended).  For every seed list and whatever the probe and the
    task modules answer, the loop of [run_task_queue] keeps a strict
    first-in first-out discipline and probes each distinct target string
    at most once: the seeds are queued normalized and in order; an
    iteration pops the head of the queue and appends at the back, in
    order of discovery, exactly the endpoints that the tasks of the
    popped target report and that are neither seen nor queued (as
    reported, without normalizing them, each once); the targets
    probed are the targets popped, with later repetitions skipped, in the
    same order; and the loop ends exactly at the first state whose queue
    is empty. *)
Theorem run_task_queue_fifo_at_most_once
    (probe_url : string → ProbeResult)
    (bypass_run fuzzer_run js_spider_run : string → TaskContext → TaskContext)
    (initial_targets : list string) (n : nat) :
  let run := after probe_url bypass_run fuzzer_run js_spider_run in
  let st0 := initial initial_targets in
  enqueued st0 = _normalize_target <$> initial_targets
  ∧ (∀ target rest, queue (run n st0) = target :: rest →
       popped (run (S n) st0) = popped (run n st0) ++ [target]
       ∧ probed (run (S n) st0)
         = probed (run n st0)
           ++ (if bool_decide (target ∈ seen (run n st0)) then [] else [target])
       ∧ ∃ new, new = first_occurrences (seen (run (S n) st0) ∪ list_to_set rest)
                        (discovered probe_url bypass_run fuzzer_run js_spider_run
                           (run n st0))
                ∧ queue (run (S n) st0) = rest ++ new
                ∧ NoDup new
                ∧ ∀ ep, ep ∈ new ↔
                    ep ∈ discovered probe_url bypass_run fuzzer_run js_spider_run
                           (run n st0)
                    ∧ (ep ∉ seen (run (S n) st0)) ∧ (ep ∉ rest))
  ∧ (∀ seen queue ctx,
       collect seen queue ctx
       = (queue ++ first_occurrences (seen ∪ list_to_set queue) (new_endpoints ctx),
          clear_endpoints ctx))
  ∧ enqueued (run n st0) `prefix_of` enqueued (run (S n) st0)
  ∧ probed (run n st0) = first_occurrences ∅ (popped (run n st0))
  ∧ NoDup (probed (run n st0))
  ∧ (∀ fuel final,
       while_queue probe_url bypass_run fuzzer_run js_spider_run fuel st0 = Some final ↔
       ∃ k, (k ≤ fuel)%nat ∧ final = run k st0 ∧ queue final = []
            ∧ ∀ m, (m < k)%nat → queue (run m st0) ≠ []).
Proof.
  intros run st0. subst run.
  pose proof (after_invariant probe_url bypass_run fuzzer_run js_spider_run n st0
                (initial_invariant initial_targets)) as [Hseen Hprobed].
  split; [done|]. split; [|split; [|split; [|split; [|split]]]].
  - intros target rest Hq. rewrite after_succ.
    destruct (iteration_spec probe_url bypass_run fuzzer_run js_spider_run _ _ _ Hq)
      as (Hp & Hs & Hpr & _).
    split; [done|]. split; [done|]. eexists. split; [done|].
    split; [by apply (iteration_discovered _ _ _ _ _ target rest)|].
    split; [apply first_occurrences_NoDup|].
    intros ep. rewrite first_occurrences_elem, not_elem_of_union, elem_of_list_to_set.
    tauto.
  - apply collect_spec.
  - rewrite after_succ. unfold enqueued.
    destruct (queue (after probe_url bypass_run fuzzer_run js_spider_run n st0))
      as [|target rest] eqn:Hq.
    + rewrite iteration_empty by done. by rewrite Hq.
    + destruct (iteration_spec probe_url bypass_run fuzzer_run js_spider_run _ _ _ Hq)
        as (Hp & _ & _ & new & Hnew & _).
      exists new. rewrite Hp, Hnew, <- !app_assoc. done.
  - done.
  - rewrite Hprobed. apply first_occurrences_NoDup.
  - intros fuel final. apply while_queue_spec.
Qed.

(** The example of the specification: the seed [http://a.test], whose
    fuzzing task discovers [http://b.test].  Two iterations empty the
    queue; [b.test] is probed once, after [a.test]. *)
Example a_test_then_b_test :
  let final :=
    while_queue demo_probe idle_run (demo_fuzzer "http://a.test" "http://b.test") idle_run
      2 (initial ["http://a.test"]) in
  probed <$> final = Some ["http://a.test"; "http://b.test"]
  ∧ queue <$> final = Some [].
Proof. vm_compute. done. Qed.

(** C6, as stated, for an endpoint reported with a trailing slash: the
    seed [http://a.test] is probed, its fuzzing task reports
    [http://a.test/], which is neither in the seen-set nor in the queue
    and is probed as well.  The normalized URL [http://a.test] is probed
    twice. *)
Lemma trailing_slash_is_probed_again :
  let final :=
    while_queue demo_probe idle_run (demo_fuzzer "http://a.test" "http://a.test/") idle_run
      2 (initial ["http://a.test"]) in
  probed <$> final = Some ["http://a.test"; "http://a.test/"]
  ∧ (fmap _normalize_target ∘ probed) <$> final = Some ["http://a.test"; "http://a.test"]
  ∧ ¬ (∀ st, final = Some st → NoDup (_normalize_target <$> probed st)).
Proof.
  vm_compute. split; [done|]. split; [done|].
  intros H. specialize (H _ eq_refl).
  apply NoDup_cons in H as [H _]. apply H. left.
Qed.

(** *** Every queued target is probed *)

Section Coverage.

Variable probe_url : string → ProbeResult.
Variable bypass_run fuzzer_run js_spider_run : string → TaskContext → TaskContext.
Variable U : list string.
Hypothesis bypass_within : reports_within U bypass_run.
Hypothesis fuzzer_within : reports_within U fuzzer_run.
Hypothesis js_spider_within : reports_within U js_spider_run.

Lemma iteration_within (st : LoopState) :
  new_endpoints (ctx st) = [] →
  new_endpoints (ctx (iteration probe_url bypass_run fuzzer_run js_spider_run st)) = []
  ∧ ∃ new, enqueued (iteration probe_url bypass_run fuzzer_run js_spider_run st)
           = enqueued st ++ new
           ∧ ∀ ep, ep ∈ new → ep ∈ U.
Proof.
  intros Hctx. unfold enqueued, iteration.
  destruct (queue st) as [|target rest] eqn:Hq.
  - split; [done|]. exists []. rewrite Hq, !app_nil_r. split; [done|].
    intros ep Hep. by apply elem_of_nil in Hep.
  - case_bool_decide as Hseen; simpl.
    + split; [done|]. exists []. rewrite <- app_assoc, app_nil_r. split; [done|].
      intros ep Hep. by apply elem_of_nil in Hep.
    + match goal with
      | |- context [run_tasks _ _ _ ?ts ?tg ?sn ?q ?c] =>
          destruct (run_tasks_within probe_url bypass_run fuzzer_run js_spider_run U
                      bypass_within fuzzer_within js_spider_within ts tg sn q c)
            as (Hend & new & Eq & Hnd & Hnew);
          [done|];
          destruct (run_tasks bypass_run fuzzer_run js_spider_run ts tg sn q c) as [q' c']
      end.
      simpl in *. subst q'. split; [done|]. exists new.
      rewrite <- !app_assoc. split; [done|]. intros ep Hep. by apply Hnew.
Qed.

Lemma after_within (n : nat) (st : LoopState) :
  new_endpoints (ctx st) = [] →
  ∃ new, enqueued (after probe_url bypass_run fuzzer_run js_spider_run n st)
         = enqueued st ++ new
         ∧ ∀ ep, ep ∈ new → ep ∈ U.
Proof.
  revert st. induction n as [|n IH]; intros st Hctx; simpl.
  - exists []. rewrite app_nil_r. split; [done|]. intros ep Hep. by apply elem_of_nil in Hep.
  - destruct (iteration_within st Hctx) as (Hctx' & new1 & E1 & H1).
    destruct (IH _ Hctx') as (new2 & E2 & H2).
    exists (new1 ++ new2). rewrite E2, E1, <- app_assoc. split; [done|].
    intros ep [?|?]%elem_of_app; eauto.
Qed.

(** When the task modules can report the endpoints of a finite
    collection [U] only, [run_task_queue] comes to an end within one
    iteration per seed and per endpoint of [U], with an empty queue.
    By then every target that ever entered the queue, each normalized
    seed among them, has been probed, no target string twice, and
    nothing was probed that is neither a normalized seed nor an
    endpoint of [U]. *)
Theorem run_task_queue_probes_all_queued (initial_targets : list string) :
  ∃ final,
    while_queue probe_url bypass_run fuzzer_run js_spider_run
      (length initial_targets + length U) (initial initial_targets) = Some final
    ∧ queue final = []
    ∧ NoDup (probed final)
    ∧ (∀ t, t ∈ probed final ↔ t ∈ enqueued final)
    ∧ (∀ t, t ∈ initial_targets → _normalize_target t ∈ probed final)
    ∧ (∀ t, t ∈ probed final → t ∈ (_normalize_target <$> initial_targets) ∨ t ∈ U).
Proof.
  pose proof (run_task_queue_terminates probe_url bypass_run fuzzer_run js_spider_run U
                bypass_within fuzzer_within js_spider_within initial_targets) as Hend.
  unfold run_task_queue in Hend. apply fmap_is_Some in Hend as [final Hfinal].
  exists final. split; [done|].
  apply while_queue_spec in Hfinal as (n & _ & -> & Hq & _).
  pose proof (after_invariant probe_url bypass_run fuzzer_run js_spider_run n
                (initial initial_targets) (initial_invariant initial_targets))
    as [_ Hprobed].
  destruct (after_within n (initial initial_targets)) as (new & Henq & Hnew); [done|].
  set (final := after probe_url bypass_run fuzzer_run js_spider_run n
                  (initial initial_targets)) in *.
  assert (∀ t, t ∈ probed final ↔ t ∈ enqueued final) as Hall.
  { intros t. unfold enqueued. rewrite Hq, app_nil_r, Hprobed, first_occurrences_elem.
    set_solver. }
  split; [done|]. split; [rewrite Hprobed; apply first_occurrences_NoDup|].
  split; [done|]. split.
  - intros t Ht. apply Hall. rewrite Henq. apply elem_of_app. left.
    unfold enqueued, initial; simpl. by apply list_elem_of_fmap_2.
  - intros t Ht. apply Hall in Ht. rewrite Henq in Ht.
    apply elem_of_app in Ht as [Ht|Ht]; [left|right; by apply Hnew].
    by unfold enqueued, initial in Ht; simpl in Ht.
Qed.

End Coverage.

Lemma demo_fuzzer_within (origin hit : string) :
  reports_within [hit] (demo_fuzzer origin hit).
Proof.
  intros target ctx ep. unfold demo_fuzzer.
  case_bool_decide; [|by left]. simpl. case_bool_decide; [by left|].
  intros [?|Hx%list_elem_of_singleton]%elem_of_app; [by left|subst; right; left].
Qed.

Lemma run_task_queue_probes_all_queued_witness :
  ∃ final,
    while_queue demo_probe idle_run (demo_fuzzer "http://a.test" "http://b.test") idle_run
      (length ["a.test/"] + length ["http://b.test"]) (initial ["a.test/"]) = Some final
    ∧ queue final = []
    ∧ NoDup (probed final)
    ∧ (∀ t, t ∈ probed final ↔ t ∈ enqueued final)
    ∧ (∀ t, t ∈ ["a.test/"] → _normalize_target t ∈ probed final)
    ∧ (∀ t, t ∈ probed final →
         t ∈ (_normalize_target <$> ["a.test/"]) ∨ t ∈ ["http://b.test"]).
Proof.
  apply (run_task_queue_probes_all_queued demo_probe idle_run
           (demo_fuzzer "http://a.test" "http://b.test") idle_run ["http://b.test"]).
  - intros target ctx ep Hep. by left.
  - apply demo_fuzzer_within.
  - intros target ctx ep Hep. by left.
Defined.

(** *** Normalizing a target *)

Lemma rstrip_by_app_keep (p : ascii → bool) (s : string) :
  Py.rstrip_by p (Py.rstrip_by p s) = Py.rstrip_by p s.
Proof.
  induction s as [|a s IH]; [done|]. simpl.
  destruct (Py.rstrip_by p s) as [|b t] eqn:E.
  - destruct (p a) eqn:Ea; simpl; [done|]. by rewrite Ea.
  - simpl in *. by rewrite IH.
Qed.

Lemma rstrip_by_last (p : ascii → bool) (s t : string) (a : ascii) :
  Py.rstrip_by p s = t +:+ String a "" → p a = false.
Proof.
  revert t. induction s as [|b s IH]; intros t; simpl; [by destruct t|].
  destruct (Py.rstrip_by p s) as [|c u] eqn:E.
  - destruct (p b) eqn:Eb; [by destruct t|].
    destruct t as [|? [|]]; simpl; intros [=]; by subst.
  - destruct t as [|d t]; simpl; [intros [=]|].
    intros [= <- Ht]. by apply (IH t).
Qed.

(** [_normalize_target] never leaves a slash at the end, and a target
    that carries a scheme is left as it is apart from its trailing
    slashes.  Normalizing again changes nothing as long as the result
    still starts with a scheme. *)
Theorem normalize_target_spec (target : string) :
  (∀ t, _normalize_target target ≠ t +:+ "/")
  ∧ (Py.startswith target "http://" = true ∨ Py.startswith target "https://" = true →
     _normalize_target target = Py.rstrip_slash target)
  ∧ (Py.startswith (_normalize_target target) "http://" = true
     ∨ Py.startswith (_normalize_target target) "https://" = true →
     _normalize_target (_normalize_target target) = _normalize_target target).
Proof.
  split; [|split].
  - intros t Ht. unfold _normalize_target, Py.rstrip_slash in Ht.
    destruct (_ || _); by apply rstrip_by_last in Ht.
  - intros H. unfold _normalize_target.
    destruct H as [-> | ->]; by rewrite ?orb_true_r.
  - intros H. unfold _normalize_target at 1.
    replace (_ || _) with true by (symmetry; apply orb_true_iff; done).
    unfold _normalize_target, Py.rstrip_slash.
    destruct (_ || _); apply rstrip_by_app_keep.
Qed.

(** A scheme with nothing behind it loses its slashes, and with them the
    scheme: normalizing the result prefixes it anew. *)
Example normalize_bare_scheme :
  _normalize_target "http://" = "http:"
  ∧ _normalize_target (_normalize_target "http://") = "http://http:".
Proof. done. Qed.

End TaskQueueTheory.

(** ** The layer resolution of the scheduler *)

Module ReconTheory.

Import Recon ReconInv.

(** *** Ordered dictionaries *)

Section Odict.

Context {V : Type}.
Implicit Types (d : odict V) (k : string) (v : V).

Lemma od_get_set_eq d k v : od_get k (od_set k v d) = Some v.
Proof.
  induction d as [|[k' v'] d IH]; simpl.
  - by rewrite bool_decide_eq_true_2.
  - case_bool_decide as E; simpl.
    + by rewrite bool_decide_eq_true_2.
    + by rewrite bool_decide_eq_false_2.
Qed.

Lemma od_get_set_ne d k k' v : k ≠ k' → od_get k' (od_set k v d) = od_get k' d.
Proof.
  intros Hne. induction d as [|[k0 v0] d IH]; simpl.
  - by rewrite bool_decide_eq_false_2.
  - case_bool_decide as E; simpl.
    + subst k0. by rewrite !bool_decide_eq_false_2.
    + by rewrite IH.
Qed.

Lemma od_get_Some d k v : od_get k d = Some v → (k, v) ∈ d.
Proof.
  induction d as [|[k' v'] d IH]; simpl; [done|].
  case_bool_decide as E.
  - intros [= <-]. subst. left.
  - intros H. right. by apply IH.
Qed.

Lemma od_get_is_Some d k : is_Some (od_get k d) ↔ k ∈ od_keys d.
Proof.
  unfold od_keys. induction d as [|[k' v'] d IH]; simpl.
  - rewrite elem_of_nil. split; [by intros [? ?]|done].
  - rewrite elem_of_cons. case_bool_decide as E.
    + subst. split; [by left|eauto].
    + rewrite IH. naive_solver.
Qed.

Lemma od_get_None d k : od_get k d = None ↔ k ∉ od_keys d.
Proof. rewrite <- od_get_is_Some, eq_None_not_Some. done. Qed.

Lemma od_get_elem d k v : NoDup (od_keys d) → (k, v) ∈ d → od_get k d = Some v.
Proof.
  unfold od_keys. induction d as [|[k' v'] d IH]; simpl; intros Hnd Hin.
  - by apply elem_of_nil in Hin.
  - apply NoDup_cons in Hnd as [Hk Hnd]. apply elem_of_cons in Hin as [[= -> ->]|Hin].
    + by rewrite bool_decide_eq_true_2.
    + rewrite bool_decide_eq_false_2; [by apply IH|].
      intros ->. apply Hk. apply list_elem_of_fmap. by exists (k, v).
Qed.

Lemma od_keys_set_in d k v : k ∈ od_keys d → od_keys (od_set k v d) = od_keys d.
Proof.
  unfold od_keys. induction d as [|[k' v'] d IH]; simpl; intros Hin.
  - by apply elem_of_nil in Hin.
  - case_bool_decide as E; simpl; [by subst|].
    f_equal. apply IH. apply elem_of_cons in Hin as [?|?]; [congruence|done].
Qed.

Lemma od_set_fresh d k v : k ∉ od_keys d → od_set k v d = d ++ [(k, v)].
Proof.
  unfold od_keys. induction d as [|[k' v'] d IH]; simpl; intros Hin; [done|].
  rewrite bool_decide_eq_false_2 by set_solver. rewrite IH; [done|set_solver].
Qed.

Lemma od_keys_set d k v :
  od_keys (od_set k v d) = if bool_decide (k ∈ od_keys d) then od_keys d else od_keys d ++ [k].
Proof.
  case_bool_decide as E.
  - by apply od_keys_set_in.
  - rewrite od_set_fresh by done. unfold od_keys. by rewrite fmap_app.
Qed.

Lemma od_keys_set_NoDup d k v : NoDup (od_keys d) → NoDup (od_keys (od_set k v d)).
Proof.
  intros Hnd. rewrite od_keys_set. case_bool_decide; [done|].
  apply NoDup_app. split; [done|]. split; [|apply NoDup_singleton].
  intros x Hx ->%list_elem_of_singleton. done.
Qed.

End Odict.

(** A comprehension over items with distinct keys builds the table item by
    item. *)
Lemma fold_od_set {A V} (key : A → string) (val : A → V) (l : list A) (d : odict V) :
  NoDup (od_keys d ++ (key <$> l)) →
  fold_left (λ d a, od_set (key a) (val a) d) l d = d ++ ((λ a, (key a, val a)) <$> l).
Proof.
  revert d. induction l as [|a l IH]; intros d Hnd; simpl.
  - by rewrite app_nil_r.
  - rewrite od_set_fresh.
    + rewrite IH, <- app_assoc; [done|].
      unfold od_keys in *. rewrite fmap_app. simpl. by rewrite <- app_assoc.
    + apply NoDup_app in Hnd as (_ & Hd & _). intros Hin. apply (Hd _ Hin). left.
Qed.

(** *** Counting *)

Lemma occ_nil x : occ x [] = 0%nat.
Proof. done. Qed.

Lemma occ_cons x y l : occ x (y :: l) = ((if bool_decide (y = x) then 1 else 0) + occ x l)%nat.
Proof. unfold occ. rewrite filter_cons. case_decide; case_bool_decide; simpl; congruence. Qed.

Lemma occ_app x l1 l2 : occ x (l1 ++ l2) = (occ x l1 + occ x l2)%nat.
Proof. unfold occ. by rewrite filter_app, length_app. Qed.

Lemma occ_pos x l : (0 < occ x l)%nat ↔ x ∈ l.
Proof.
  induction l as [|y l IH]; [rewrite occ_nil, elem_of_nil; lia|].
  rewrite occ_cons, elem_of_cons. case_bool_decide; [naive_solver lia|].
  rewrite <- IH. naive_solver lia.
Qed.

Lemma occ_zero x l : occ x l = 0%nat ↔ x ∉ l.
Proof. rewrite <- occ_pos. lia. Qed.

Lemma elem_of_concat {A} (x : A) (ls : list (list A)) :
  x ∈ concat ls ↔ ∃ i l, ls !! i = Some l ∧ x ∈ l.
Proof.
  induction ls as [|l ls IH]; simpl.
  - rewrite elem_of_nil. split; [done|]. by intros (i & l & Hl & _).
  - rewrite elem_of_app, IH. split.
    + intros [H|(i & l' & Hl & Hx)]; [by exists 0%nat, l|by exists (S i), l'].
    + intros ([|i] & l' & Hl & Hx); simpl in Hl; [left; congruence|right; eauto].
Qed.

(** *** The tables built before the loop *)

Lemma od_get_fmap_values {A B} (f : A → B) (d : odict A) (k : string) :
  od_get k ((λ item, (item.1, f item.2)) <$> d) = f <$> od_get k d.
Proof.
  induction d as [|[k' v'] d IH]; simpl; [done|]. by case_bool_decide.
Qed.

Lemma od_keys_fmap_values {A B} (f : A → B) (d : odict A) :
  od_keys ((λ item, (item.1, f item.2)) <$> d) = od_keys d.
Proof. unfold od_keys. rewrite <- list_fmap_compose. done. Qed.

Lemma build_indegree_spec (deps_map : odict (list string)) :
  NoDup (od_keys deps_map) →
  build_indegree deps_map
  = (λ item, (item.1, Z.of_nat (length item.2))) <$> deps_map.
Proof.
  intros Hnd. unfold build_indegree.
  by rewrite (fold_od_set fst (λ item, Z.of_nat (length item.2))).
Qed.

Lemma graph_append_lookup graph dep name d :
  default [] (graph_append graph dep name !! d)
  = default [] (graph !! d) ++ (if bool_decide (dep = d) then [name] else []).
Proof.
  unfold graph_append. case_bool_decide as E.
  - subst. by rewrite lookup_insert_eq.
  - rewrite lookup_insert_ne by done. by rewrite app_nil_r.
Qed.

Lemma graph_fold_inner (nm : string) (ds : list string)
    (g : gmap string (list string)) (d n : string) :
  occ n (default [] (fold_left (λ g dep, graph_append g dep nm) ds g !! d))
  = (occ n (default [] (g !! d)) + (if bool_decide (nm = n) then occ d ds else 0))%nat.
Proof.
  revert g. induction ds as [|dep ds IH]; intros g; simpl.
  - case_bool_decide; rewrite ?occ_nil; lia.
  - rewrite IH, graph_append_lookup, occ_app, occ_cons.
    repeat case_bool_decide; simpl; rewrite ?occ_cons, ?occ_nil;
      repeat case_bool_decide; simpl; try congruence; lia.
Qed.

Lemma graph_fold_outer (dm : odict (list string))
    (g : gmap string (list string)) (d n : string) :
  NoDup (od_keys dm) →
  occ n (default []
           (fold_left (λ g item, fold_left (λ g dep, graph_append g dep item.1) item.2 g)
              dm g !! d))
  = (occ n (default [] (g !! d)) + occ d (default [] (od_get n dm)))%nat.
Proof.
  revert g. induction dm as [|[k ds] dm IH]; intros g Hnd.
  - simpl. rewrite occ_nil. lia.
  - change (od_keys ((k, ds) :: dm)) with (k :: od_keys dm) in Hnd.
    apply NoDup_cons in Hnd as [Hk Hnd]. cbn [fold_left]. rewrite IH by done.
    rewrite graph_fold_inner. cbn [od_get fst snd]. case_bool_decide as E; [|lia].
    subst. apply od_get_None in Hk. rewrite Hk. simpl. rewrite occ_nil. lia.
Qed.

Lemma build_graph_spec (deps_map : odict (list string)) (d n : string) :
  NoDup (od_keys deps_map) →
  occ n (default [] (build_graph deps_map !! d)) = occ d (deps_of deps_map n).
Proof.
  intros Hnd. unfold build_graph. rewrite graph_fold_outer by done.
  rewrite lookup_empty. done.
Qed.

Lemma fold_active (l : list BaseModule) (d : odict BaseModule) :
  NoDup (od_keys d) →
  (∀ n m, od_get n d = Some m → name m = n) →
  let r := fold_left (λ d m, od_set (name m) m d) l d in
  NoDup (od_keys r)
  ∧ (∀ n, n ∈ od_keys r ↔ n ∈ od_keys d ∨ n ∈ name <$> l)
  ∧ (∀ n m, od_get n r = Some m → name m = n ∧ (od_get n d = Some m ∨ m ∈ l)).
Proof.
  revert d. induction l as [|x l IH]; intros d Hnd Hname; cbn [fold_left].
  - split; [done|]. split; [set_solver|]. intros n m Hm. split; [by apply Hname|by left].
  - destruct (IH (od_set (name x) x d)) as (H1 & H2 & H3).
    + by apply od_keys_set_NoDup.
    + intros n m. destruct (decide (name x = n)) as [<-|Hne].
      * rewrite od_get_set_eq. by intros [= <-].
      * rewrite od_get_set_ne by done. apply Hname.
    + split; [done|]. split.
      * intros n. rewrite H2, od_keys_set, fmap_cons, elem_of_cons.
        case_bool_decide; [|rewrite elem_of_app, list_elem_of_singleton]; naive_solver.
      * intros n m Hm. destruct (H3 n m Hm) as [Hn Hor]. split; [done|].
        destruct Hor as [Hd|Hl]; [|right; by right].
        destruct (decide (name x = n)) as [<-|Hne].
        -- rewrite od_get_set_eq in Hd. injection Hd as <-. right. left.
        -- rewrite od_get_set_ne in Hd by done. by left.
Qed.

Lemma build_active_spec (modules : list BaseModule) :
  NoDup (od_keys (build_active modules))
  ∧ (∀ n, n ∈ od_keys (build_active modules) ↔ n ∈ enabled_names modules)
  ∧ (∀ n m, od_get n (build_active modules) = Some m →
            name m = n ∧ m ∈ enabled_units modules).
Proof.
  destruct (fold_active (enabled_units modules) []) as (H1 & H2 & H3);
    [constructor|done|].
  split; [done|]. split.
  - intros n. rewrite H2. unfold od_keys, enabled_names. set_solver.
  - intros n m Hm. destruct (H3 n m Hm) as [? [?|?]]; done.
Qed.

Lemma build_active_unique (modules : list BaseModule) :
  unique_names modules →
  build_active modules = (λ m, (name m, m)) <$> enabled_units modules.
Proof.
  intros Hu. unfold build_active. by rewrite (fold_od_set name id).
Qed.

(** The first loop: one entry per active module, with the dependencies
    on active names, and one message per module that misses some. *)
Lemma fold_deps_step (A l : odict BaseModule) (dm : odict (list string))
    (lg : list string) :
  NoDup (od_keys dm ++ od_keys l) →
  let r := fold_left (deps_step A) l (dm, lg) in
  r.1 = dm ++ ((λ item, (item.1, filter (λ d, d ∈ od_keys A) (depends_on item.2))) <$> l)
  ∧ (∀ x, x ∈ lg → x ∈ r.2)
  ∧ (∀ item, item ∈ l →
       filter (λ d, d ∉ od_keys A) (depends_on item.2) ≠ [] →
       missing_deps_message item.1
         (filter (λ d, d ∉ od_keys A) (depends_on item.2)) ∈ r.2).
Proof.
  revert dm lg. induction l as [|[n m] l IH]; intros dm lg Hnd; cbn [fold_left].
  - rewrite app_nil_r. split; [done|]. split; [done|].
    intros item Hin. by apply elem_of_nil in Hin.
  - cbn [deps_step].
    set (missing := filter (λ d : string, d ∉ od_keys A) (depends_on m)).
    set (lg' := match missing with [] => lg | _ :: _ => lg ++ [missing_deps_message n missing] end).
    change (od_keys ((n, m) :: l)) with (n :: od_keys l) in Hnd.
    assert (n ∉ od_keys dm) as Hfresh.
    { apply NoDup_app in Hnd as (_ & Hd & _). intros Hin. apply (Hd _ Hin). left. }
    rewrite od_set_fresh by done.
    destruct (IH (dm ++ [(n, filter (λ d, d ∈ od_keys A) (depends_on m))]) lg')
      as (H1 & H2 & H3).
    { unfold od_keys in *. rewrite fmap_app. simpl. by rewrite <- app_assoc. }
    split; [|split].
    + rewrite H1, <- app_assoc. done.
    + intros x Hx. apply H2. subst lg'. destruct missing; [done|].
      apply elem_of_app. by left.
    + intros item [->|Hin]%elem_of_cons Hmiss; [|by apply H3].
      apply H2. subst lg'. cbn [fst snd] in *. fold missing in Hmiss |- *.
      destruct missing; [done|]. apply elem_of_app. right. left.
Qed.

Lemma build_deps_map_spec (active : odict BaseModule) :
  NoDup (od_keys active) →
  (build_deps_map active).1
  = (λ item, (item.1, filter (λ d, d ∈ od_keys active) (depends_on item.2))) <$> active
  ∧ (∀ item, item ∈ active →
       filter (λ d, d ∉ od_keys active) (depends_on item.2) ≠ [] →
       missing_deps_message item.1
         (filter (λ d, d ∉ od_keys active) (depends_on item.2))
       ∈ (build_deps_map active).2).
Proof.
  intros Hnd. destruct (fold_deps_step active active [] []) as (H1 & _ & H3); [done|].
  split; [done|]. apply H3.
Qed.

Lemma build_deps_map_keys (active : odict BaseModule) :
  NoDup (od_keys active) → od_keys (build_deps_map active).1 = od_keys active.
Proof.
  intros Hnd. rewrite (proj1 (build_deps_map_spec active Hnd)).
  unfold od_keys. by rewrite <- list_fmap_compose.
Qed.

Lemma build_deps_map_lookup (active : odict BaseModule) (n : string) :
  NoDup (od_keys active) →
  od_get n (build_deps_map active).1
  = (λ m, filter (λ d, d ∈ od_keys active) (depends_on m)) <$> od_get n active.
Proof.
  intros Hnd. rewrite (proj1 (build_deps_map_spec active Hnd)).
  apply (od_get_fmap_values (λ m, filter (λ d, d ∈ od_keys active) (depends_on m))).
Qed.

Lemma build_deps_map_wf (modules : list BaseModule) :
  well_formed (build_deps_map (build_active modules)).1 (build_active modules).
Proof.
  destruct (build_active_spec modules) as (Hnd & Hkeys & Hget).
  split.
  - by rewrite build_deps_map_keys.
  - by rewrite build_deps_map_keys.
  - intros n m Hm. by apply Hget in Hm as [? _].
  - intros n d. unfold deps_of. rewrite build_deps_map_lookup by done.
    rewrite build_deps_map_keys by done.
    destruct (od_get n (build_active modules)); simpl.
    + by intros [? _]%list_elem_of_filter.
    + by intros ?%elem_of_nil.
Qed.

(** *** Pending dependencies *)

Section Pending.

Variable deps_map : odict (list string).

Abbreviation pend := (pending deps_map).
Abbreviation deps := (deps_of deps_map).

Lemma pending_empty n : pend ∅ n = length (deps n).
Proof.
  unfold pending. f_equal. induction (deps n) as [|d l IH]; [done|].
  rewrite filter_cons_True by set_solver. by rewrite IH.
Qed.

Lemma pending_visit (V : gset string) (x n : string) :
  x ∉ V → pend V n = (pend ({[x]} ∪ V) n + occ x (deps n))%nat.
Proof.
  intros Hx. unfold pending, occ. induction (deps n) as [|d l IH]; [done|].
  rewrite !filter_cons. destruct (decide (d = x)) as [->|Hne].
  - rewrite decide_True by done. rewrite (decide_False (P := x ∉ {[x]} ∪ V)) by set_solver.
    simpl. lia.
  - destruct (decide (d ∈ V)) as [Hd|Hd].
    + rewrite (decide_False (P := d ∉ V)) by tauto.
      rewrite (decide_False (P := d ∉ {[x]} ∪ V)) by set_solver. done.
    + rewrite (decide_True (P := d ∉ V)) by done.
      rewrite (decide_True (P := d ∉ {[x]} ∪ V)) by set_solver. simpl. lia.
Qed.

Lemma pending_zero (V : gset string) (n : string) :
  pend V n = 0%nat ↔ ∀ d, d ∈ deps n → d ∈ V.
Proof.
  unfold pending. rewrite length_zero_iff_nil. split.
  - intros Hnil d Hd. destruct (decide (d ∈ V)) as [|Hn]; [done|].
    assert (d ∈ filter (λ d, d ∉ V) (deps n)) as Hin by (by apply list_elem_of_filter).
    rewrite Hnil in Hin. by apply elem_of_nil in Hin.
  - intros Hall. induction (deps n) as [|d l IH]; [done|].
    rewrite filter_cons_False; [|intros Hd; apply Hd, Hall; left].
    apply IH. intros d' Hd'. apply Hall. by right.
Qed.

Lemma pending_mono (V V' : gset string) (n : string) :
  V ⊆ V' → (pend V' n ≤ pend V n)%nat.
Proof.
  intros Hsub. unfold pending. induction (deps n) as [|d l IH]; [done|].
  rewrite !filter_cons. repeat case_decide; simpl; try lia. set_solver.
Qed.

Lemma deps_of_names n d :
  d ∈ deps n → n ∈ od_keys deps_map.
Proof.
  unfold deps_of. intros Hd. apply od_get_is_Some.
  destruct (od_get n deps_map); [done|]. by apply elem_of_nil in Hd.
Qed.

End Pending.

(** *** The three loops *)

Section Loops.

Variable deps_map : odict (list string).
Variable active : odict BaseModule.
Variable graph : gmap string (list string).

Hypothesis Hwf : well_formed deps_map active.
Hypothesis Hgraph :
  ∀ d n, occ n (default [] (graph !! d)) = occ d (deps_of deps_map n).

Abbreviation names := (od_keys deps_map).
Abbreviation pend := (pending deps_map).
Abbreviation deps := (deps_of deps_map).

(** [for dep in graph.get(name, [])]: no subscript fails, and the count
    of each dependent follows the visited set. *)
Lemma release_ok (V0 V : gset string) (todo : list string)
    (indegree : odict Z) (next_ready : list string) :
  release_inv deps_map V0 V todo indegree next_ready →
  (∀ n, n ∈ todo → n ∈ names ∧ pend V0 n ≠ 0%nat) →
  ∃ indegree' next_ready',
    release todo indegree next_ready = Ok (indegree', next_ready')
    ∧ release_inv deps_map V0 V [] indegree' next_ready'.
Proof.
  revert indegree next_ready.
  induction todo as [|dep todo IH]; intros indegree next_ready Hinv Htodo.
  - by exists indegree, next_ready.
  - destruct Hinv as [Hkeys Hcount Hnd Hnext].
    destruct (Htodo dep) as [Hdep Hdep0]; [left|].
    cbn [release]. rewrite (Hcount dep Hdep), occ_cons.
    rewrite (bool_decide_eq_true_2 (dep = dep)) by done.
    set (c := (pend V dep + occ dep todo)%nat).
    replace (Z.of_nat (pend V dep + (1 + occ dep todo)) - 1) with (Z.of_nat c) by lia.
    assert (∀ n, n ∈ names →
              od_get n (od_set dep (Z.of_nat c) indegree)
              = Some (Z.of_nat (pend V n + occ n todo))) as Hcount'.
    { intros n Hn. destruct (decide (dep = n)) as [<-|Hne].
      - by rewrite od_get_set_eq.
      - rewrite od_get_set_ne by done. rewrite (Hcount n Hn), occ_cons.
        by rewrite bool_decide_eq_false_2. }
    assert (od_keys (od_set dep (Z.of_nat c) indegree) = names) as Hkeys'.
    { rewrite od_keys_set_in; [done|]. by rewrite Hkeys. }
    assert (∀ n, n ∈ next_ready ↔
                 n ∈ names ∧ pend V0 n ≠ 0%nat
                 ∧ (pend V n + occ n todo = 0)%nat ∧ n ≠ dep) as Hnext'.
    { intros n. rewrite Hnext, occ_cons. case_bool_decide; [|naive_solver].
      subst. split; [lia|tauto]. }
    case_bool_decide as Hzero.
    + apply IH; [|intros n Hn; apply Htodo; by right].
      split; [done|done| |].
      * apply NoDup_app. split; [done|]. split; [|apply NoDup_singleton].
        intros n Hn ->%list_elem_of_singleton. apply Hnext' in Hn. tauto.
      * intros n. rewrite elem_of_app, list_elem_of_singleton, Hnext'.
        destruct (decide (n = dep)) as [->|Hne]; [|naive_solver].
        split; [intros _|tauto]. repeat split; try done. subst c. lia.
    + apply IH; [|intros n Hn; apply Htodo; by right].
      split; [done|done|done|].
      intros n. rewrite Hnext'. split; [tauto|].
      intros (? & ? & ?). repeat split; try done.
      intros ->. apply Hzero. subst c. lia.
Qed.

(** The names of [graph.get(name, [])] are names of the table that
    depend on [name]. *)
Lemma dependents_spec (V0 : gset string) (x n : string) :
  x ∉ V0 → n ∈ default [] (graph !! x) → n ∈ names ∧ pend V0 n ≠ 0%nat.
Proof.
  intros Hx Hn. apply occ_pos in Hn. rewrite Hgraph in Hn. apply occ_pos in Hn.
  split; [by eapply deps_of_names|].
  intros Hz. apply Hx. by eapply pending_zero.
Qed.

(** [for name in ready]. *)
Lemma sweep_ok (V0 : gset string) (done todo : list string) (s : Sweep) :
  sweep_inv deps_map active V0 done todo s →
  NoDup (done ++ todo) →
  (∀ n, n ∈ todo → n ∈ names ∧ n ∉ V0) →
  ∃ s', sweep active graph todo s = Ok s'
        ∧ sweep_inv deps_map active V0 (done ++ todo) [] s'.
Proof.
  revert done s. induction todo as [|x todo IH]; intros done s Hinv Hnd Htodo.
  - exists s. by rewrite app_nil_r.
  - destruct Hinv as [Hrel Hvis Hlayer Hact].
    destruct (Htodo x) as [Hx Hx0]; [left|].
    assert (x ∉ visited s) as Hfresh.
    { rewrite Hvis. apply NoDup_app in Hnd as (_ & Hdisj & _).
      intros [?|Hd%elem_of_list_to_set]%elem_of_union; [done|].
      apply (Hdisj _ Hd). left. }
    cbn [sweep]. rewrite bool_decide_eq_false_2 by done.
    assert (is_Some (od_get x active)) as [m Hm].
    { apply od_get_is_Some. by rewrite (wf_active _ _ Hwf). }
    rewrite Hm.
    destruct (release_ok V0 ({[x]} ∪ visited s) (default [] (graph !! x))
                (indegree s) (next_ready s)) as (indegree' & next' & Hrun & Hrel').
    { destruct Hrel as [Hkeys Hcount Hnd' Hnext]. split; [done| |done|].
      - intros n Hn. rewrite (Hcount n Hn), occ_nil, Hgraph.
        by rewrite (pending_visit deps_map (visited s) x n Hfresh), Nat.add_0_r.
      - intros n. rewrite Hnext, occ_nil, Hgraph.
        by rewrite (pending_visit deps_map (visited s) x n Hfresh), Nat.add_0_r. }
    { intros n Hn. by apply (dependents_spec V0 x). }
    rewrite Hrun.
    replace (done ++ x :: todo) with ((done ++ [x]) ++ todo) in * by (by rewrite <- app_assoc).
    apply IH; [|done|intros n Hn; apply Htodo; by right].
    split; cbn [indegree visited current_layer next_ready].
    + done.
    + rewrite Hvis, list_to_set_app_L. set_solver.
    + rewrite fmap_app, Hlayer. simpl. f_equal. f_equal.
      by apply (wf_active_name _ _ Hwf).
    + intros m' [Hm'|Hm']%elem_of_app; [by apply Hact|].
      apply list_elem_of_singleton in Hm' as ->.
      by rewrite (wf_active_name _ _ Hwf _ _ Hm).
Qed.

(** Visited names have all their dependencies visited. *)
Lemma outer_closed indegree V layers ready n :
  outer_inv deps_map active indegree V layers ready →
  n ∈ V → pend V n = 0%nat.
Proof.
  intros Hinv Hn. apply pending_zero. intros d Hd.
  rewrite (oi_visited _ _ _ _ _ _ Hinv) in Hn |- *.
  apply elem_of_list_to_set, list_elem_of_fmap in Hn as (m & -> & Hm).
  apply elem_of_concat in Hm as (i & layer & Hi & Hm).
  destruct (oi_edges _ _ _ _ _ _ Hinv i layer m d Hi Hm Hd) as (j & layer' & m' & _ & Hj & Hm' & <-).
  apply elem_of_list_to_set, list_elem_of_fmap. exists m'. split; [done|].
  apply elem_of_concat. eauto.
Qed.

Lemma outer_size indegree V layers ready :
  outer_inv deps_map active indegree V layers ready →
  (size V + length ready ≤ length names)%nat.
Proof.
  intros Hinv.
  rewrite <- (size_list_to_set (C := gset string) ready) by apply (oi_ready_nodup _ _ _ _ _ _ Hinv).
  rewrite <- (size_list_to_set (C := gset string) names) by apply (wf_nodup _ _ Hwf).
  rewrite <- size_union.
  - apply subseteq_size. intros n [Hn|Hn%elem_of_list_to_set]%elem_of_union;
      apply elem_of_list_to_set.
    + by apply (oi_names _ _ _ _ _ _ Hinv).
    + by apply (oi_ready _ _ _ _ _ _ Hinv) in Hn as (? & _).
  - intros n Hn Hr%elem_of_list_to_set.
    by apply (oi_ready _ _ _ _ _ _ Hinv) in Hr as (_ & ? & _).
Qed.

(** [while ready:] ends without a failed subscript, within one iteration
    per unvisited name, and leaves the invariant with nothing ready. *)
Lemma while_ok (fuel : nat) (indegree : odict Z) (V : gset string)
    (layers : list (list BaseModule)) (ready : list string) :
  outer_inv deps_map active indegree V layers ready →
  (length names < size V + fuel)%nat →
  ∃ indegree' V' layers',
    while_ready active graph fuel indegree V layers ready = Ok (V', layers')
    ∧ outer_inv deps_map active indegree' V' layers' [].
Proof.
  revert indegree V layers ready.
  induction fuel as [|fuel IH]; intros indegree V layers ready Hinv Hfuel.
  - pose proof (outer_size _ _ _ _ Hinv) as Hsize.
    destruct ready as [|x rest]; [by exists indegree, V, layers|].
    simpl in Hsize. lia.
  - destruct (decide (ready = [])) as [->|Eready]; [by exists indegree, V, layers|].
    assert (while_ready active graph (S fuel) indegree V layers ready
            = match sweep active graph ready
                      {| Recon.indegree := indegree; visited := V;
                         current_layer := []; next_ready := [] |} with
              | Ok s =>
                  while_ready active graph fuel (Recon.indegree s) (visited s)
                    (match current_layer s with
                     | [] => layers
                     | _ :: _ => layers ++ [current_layer s]
                     end) (next_ready s)
              | KeyError k => KeyError k
              | OutOfFuel => OutOfFuel
              end) as ->.
    { by destruct ready. }
    pose proof (outer_size _ _ _ _ Hinv) as Hsize.
    destruct (sweep_ok V [] ready
                {| Recon.indegree := indegree; visited := V;
                   current_layer := []; next_ready := [] |}) as (s & Hrun & Hs).
    { split; cbn [Recon.indegree visited current_layer next_ready].
      - destruct Hinv. split; [done| |constructor|].
        + intros n Hn. by rewrite occ_nil, Nat.add_0_r, oi_count0.
        + intros n. rewrite elem_of_nil, occ_nil, Nat.add_0_r. tauto.
      - set_solver.
      - done.
      - intros m Hm. by apply elem_of_nil in Hm. }
    { apply (oi_ready_nodup _ _ _ _ _ _ Hinv). }
    { intros n Hn. apply (oi_ready _ _ _ _ _ _ Hinv) in Hn. tauto. }
    rewrite Hrun. simpl in Hs. destruct Hs as [Hrel Hvis Hlayer Hact].
    assert (current_layer s ≠ []) as Hne.
    { intros E. rewrite E in Hlayer. by destruct ready. }
    destruct (current_layer s) as [|m0 layer] eqn:Elayer; [done|].
    rewrite <- Elayer in *. clear Hne.
    apply IH.
    + destruct Hrel as [Hkeys Hcount Hnd Hnext].
      assert (∀ n, n ∈ ready → n ∈ names ∧ (n ∉ V) ∧ pend V n = 0%nat) as Hready.
      { intros n. apply (oi_ready _ _ _ _ _ _ Hinv). }
      split.
      * done.
      * intros n Hn. rewrite (Hcount n Hn), occ_nil. by rewrite Nat.add_0_r.
      * done.
      * intros n. rewrite Hnext, occ_nil, Nat.add_0_r, Hvis.
        split.
        -- intros (Hn & Hp0 & Hp). repeat split; try done.
           intros [HV|Hr%elem_of_list_to_set]%elem_of_union.
           ++ by rewrite (outer_closed _ _ _ _ _ Hinv HV) in Hp0.
           ++ by apply Hready in Hr as (_ & _ & ?).
        -- intros (Hn & Hout & Hp). repeat split; try done.
           intros Hz. apply Hout. apply elem_of_union. right.
           apply elem_of_list_to_set, (oi_ready _ _ _ _ _ _ Hinv).
           repeat split; try done. set_solver.
      * rewrite Hvis, concat_app, fmap_app, list_to_set_app_L. simpl.
        rewrite app_nil_r, Hlayer. by rewrite (oi_visited _ _ _ _ _ _ Hinv) at 1.
      * rewrite concat_app, fmap_app. simpl. rewrite app_nil_r, Hlayer.
        apply NoDup_app. split; [apply (oi_nodup _ _ _ _ _ _ Hinv)|].
        split; [|apply (oi_ready_nodup _ _ _ _ _ _ Hinv)].
        intros n Hn Hr. apply Hready in Hr as (_ & Hr & _). apply Hr.
        rewrite (oi_visited _ _ _ _ _ _ Hinv). by apply elem_of_list_to_set.
      * intros n. rewrite Hvis. intros [HV|Hr%elem_of_list_to_set]%elem_of_union.
        -- by apply (oi_names _ _ _ _ _ _ Hinv).
        -- by apply Hready in Hr as (? & _).
      * intros m. rewrite concat_app. simpl. rewrite app_nil_r.
        intros [Hm|Hm]%elem_of_app; [by apply (oi_active _ _ _ _ _ _ Hinv)|by apply Hact].
      * intros i layer' m d Hi Hm Hd.
        destruct (decide (i < length layers)%nat) as [Hlt|Hge].
        -- rewrite lookup_app_l in Hi by done.
           destruct (oi_edges _ _ _ _ _ _ Hinv i layer' m d Hi Hm Hd)
             as (j & layer'' & m' & Hj & Hl & Hm' & Hname).
           exists j, layer'', m'. repeat split; try done.
           rewrite lookup_app_l; [done|lia].
        -- assert (i = length layers ∧ layer' = current_layer s) as [-> ->].
           { rewrite lookup_app_r in Hi by lia.
             destruct (i - length layers)%nat as [|k] eqn:Ek; simpl in Hi; [|done].
             split; [lia|congruence]. }
           assert (name m ∈ ready) as Hr.
           { rewrite <- Hlayer. apply list_elem_of_fmap. eauto. }
           apply Hready in Hr as (_ & _ & Hp).
           assert (d ∈ V) as HdV by (by eapply pending_zero).
           rewrite (oi_visited _ _ _ _ _ _ Hinv) in HdV.
           apply elem_of_list_to_set, list_elem_of_fmap in HdV as (m' & -> & Hm').
           apply elem_of_concat in Hm' as (j & layer'' & Hj & Hm').
           exists j, layer'', m'. repeat split; try done.
           ++ by apply lookup_lt_Some in Hj.
           ++ rewrite lookup_app_l; [done|]. by apply lookup_lt_Some in Hj.
    + rewrite Hvis. rewrite size_union.
      * rewrite size_list_to_set by apply (oi_ready_nodup _ _ _ _ _ _ Hinv).
        destruct ready; [done|]. simpl in *. lia.
      * intros n Hn Hr%elem_of_list_to_set.
        by apply (oi_ready _ _ _ _ _ _ Hinv) in Hr as (_ & ? & _).
Qed.

(** The state before the loop. *)
Lemma initial_outer :
  outer_inv deps_map active (build_indegree deps_map) ∅ []
    (initial_ready (build_indegree deps_map)).
Proof.
  pose proof (wf_nodup _ _ Hwf) as Hnd.
  rewrite build_indegree_spec by done.
  set (indeg := (λ item : string * list string, (item.1, Z.of_nat (length item.2)))
                  <$> deps_map).
  assert (od_keys indeg = names) as Hkeys
    by apply (od_keys_fmap_values (λ ds : list string, Z.of_nat (length ds))).
  assert (∀ n, n ∈ names → od_get n indeg = Some (Z.of_nat (pend ∅ n))) as Hcount.
  { intros n Hn. subst indeg.
    rewrite (od_get_fmap_values (λ ds : list string, Z.of_nat (length ds))).
    rewrite pending_empty. unfold deps_of.
    apply od_get_is_Some in Hn as [ds Hds]. by rewrite Hds. }
  split; try done.
  - unfold initial_ready. apply (sublist_NoDup _ (od_keys indeg)); [by rewrite Hkeys|].
    apply fmap_sublist, sublist_filter.
  - intros n. unfold initial_ready. rewrite list_elem_of_fmap. split.
    + intros ([k v] & -> & [Hz Hin]%list_elem_of_filter). simpl in *. subst v.
      assert (k ∈ names) as Hk.
      { rewrite <- Hkeys. apply list_elem_of_fmap. by exists (k, 0). }
      repeat split; [done|set_solver|].
      apply od_get_elem in Hin; [|by rewrite Hkeys].
      rewrite (Hcount k Hk) in Hin. injection Hin. lia.
    + intros (Hn & _ & Hp). exists (n, 0). split; [done|].
      apply list_elem_of_filter. split; [done|].
      apply od_get_Some. rewrite (Hcount n Hn), Hp. done.
  - constructor.
  - intros m Hm. by apply elem_of_nil in Hm.
Qed.

Lemma od_keys_length {A} (d : odict A) : length (od_keys d) = length d.
Proof. unfold od_keys. apply length_fmap. Qed.

Lemma while_from_start :
  ∃ indegree V layers,
    while_ready active graph (S (length active)) (build_indegree deps_map) ∅ []
      (initial_ready (build_indegree deps_map)) = Ok (V, layers)
    ∧ outer_inv deps_map active indegree V layers [].
Proof.
  apply while_ok; [apply initial_outer|].
  rewrite <- (od_keys_length active), (wf_active _ _ Hwf). lia.
Qed.

(** At the exit of the loop, an unvisited name has an unvisited
    dependency. *)
Lemma unvisited_has_unvisited_dep indegree V layers n :
  outer_inv deps_map active indegree V layers [] →
  n ∈ names → n ∉ V → ∃ d, d ∈ deps n ∧ d ∈ names ∧ d ∉ V.
Proof.
  intros Hinv Hn HV.
  assert (pend V n ≠ 0%nat) as Hp.
  { intros Hp. assert (n ∈ @nil string) as Hin; [|by apply elem_of_nil in Hin].
    by apply (oi_ready _ _ _ _ _ _ Hinv). }
  destruct (decide (Forall (λ d, d ∈ V) (deps n))) as [Hall|Hex].
  - exfalso. apply Hp, pending_zero. by apply Forall_forall.
  - apply not_Forall_Exists in Hex; [|apply _].
    apply Exists_exists in Hex as (d & Hd & HdV).
    exists d. repeat split; try done. by apply (wf_closed _ _ Hwf n).
Qed.

(** The visited names are ordered by their layers: a name that has been
    visited does not depend on itself, however long the chain. *)
Lemma visited_descends indegree V layers ready (a b : string) :
  outer_inv deps_map active indegree V layers ready →
  tc (λ x y, y ∈ deps x) a b →
  ∀ i layer m, layers !! i = Some layer → m ∈ layer → name m = a →
    ∃ j layer' m', (j < i)%nat ∧ layers !! j = Some layer' ∧ m' ∈ layer' ∧ name m' = b.
Proof.
  intros Hinv Htc. induction Htc as [a b Hab|a c b Hac Hcb IH]; intros i layer m Hi Hm Hname.
  - subst a. by apply (oi_edges _ _ _ _ _ _ Hinv i layer m b).
  - subst a. destruct (oi_edges _ _ _ _ _ _ Hinv i layer m c Hi Hm Hac)
      as (j & layer' & m' & Hj & Hl & Hm' & Hname').
    destruct (IH j layer' m' Hl Hm' Hname') as (k & layer'' & m'' & Hk & ? & ? & ?).
    exists k, layer'', m''. repeat split; try done. lia.
Qed.

Lemma visited_not_on_cycle indegree V layers ready (n : string) :
  outer_inv deps_map active indegree V layers ready →
  tc (λ x y, y ∈ deps x) n n → n ∉ V.
Proof.
  intros Hinv Htc HV.
  rewrite (oi_visited _ _ _ _ _ _ Hinv) in HV.
  apply elem_of_list_to_set, list_elem_of_fmap in HV as (m & Hname & Hm).
  apply elem_of_concat in Hm as (i & layer & Hi & Hm).
  revert layer m Hname Hi Hm. induction i as [i IH] using lt_wf_ind.
  intros layer m Hname Hi Hm.
  destruct (visited_descends _ _ _ _ n n Hinv Htc i layer m Hi Hm) as (j & l' & m' & Hj & ? & ? & ?);
    [done|].
  by apply (IH j Hj l' m').
Qed.

End Loops.

(** *** Finite graphs without sinks have cycles *)

Lemma growing_chain (R : relation string) (U : list string) :
  (∀ u, u ∈ U → ∃ v, v ∈ U ∧ R u v) →
  ∀ k h, h ∈ U →
    (∃ n, tc R n n)
    ∨ (∃ h' l, length l = k ∧ NoDup (h' :: l) ∧ (∀ x, x ∈ h' :: l → x ∈ U)
               ∧ ∀ x, x ∈ l → tc R x h').
Proof.
  intros Hsucc k h Hh. induction k as [|k IH].
  - right. exists h, []. split; [done|]. split; [apply NoDup_singleton|].
    split; [by intros x ->%list_elem_of_singleton|]. by intros x ?%elem_of_nil.
  - destruct IH as [?|(h' & l & Hlen & Hnd & Hsub & Hreach)]; [by left|].
    destruct (Hsucc h') as (v & Hv & Hstep); [apply Hsub; left|].
    destruct (decide (v ∈ h' :: l)) as [[->|Hin]%elem_of_cons|Hout].
    + left. exists h'. by apply tc_once.
    + left. exists h'. eapply tc_l; [done|]. by apply Hreach.
    + right. exists v, (h' :: l). split; [simpl; congruence|].
      split; [by constructor|]. split.
      * intros x [->|Hx]%elem_of_cons; [done|by apply Hsub].
      * intros x [->|Hx]%elem_of_cons; [by apply tc_once|].
        eapply tc_r; [by apply Hreach|done].
Qed.

Lemma no_sink_cycle (R : relation string) (U : list string) (u : string) :
  u ∈ U → (∀ u, u ∈ U → ∃ v, v ∈ U ∧ R u v) → ∃ n, tc R n n.
Proof.
  intros Hu Hsucc.
  destruct (growing_chain R U Hsucc (length U) u Hu)
    as [?|(h & l & Hlen & Hnd & Hsub & _)]; [done|].
  exfalso. pose proof (submseteq_length _ _ (NoDup_submseteq _ _ Hnd Hsub)) as Hle.
  simpl in Hle. lia.
Qed.

Lemma tc_ext (R S : relation string) (a b : string) :
  (∀ x y, R x y → S x y) → tc R a b → tc S a b.
Proof.
  intros Hsub Htc. induction Htc as [x y H|x y z H _ IH].
  - by apply tc_once, Hsub.
  - eapply tc_l; [by apply Hsub|done].
Qed.

Lemma tc_source (R : relation string) (a b : string) :
  tc R a b → ∃ c, R a c.
Proof. intros []; eauto. Qed.

Lemma concat_lookup_unique {A} (ls : list (list A)) (x : A) (i j : nat) (l l' : list A) :
  NoDup (concat ls) → ls !! i = Some l → ls !! j = Some l' → x ∈ l → x ∈ l' → i = j.
Proof.
  revert i j. induction ls as [|l0 ls IH]; intros i j Hnd Hi Hj Hx Hx'; [done|].
  simpl in Hnd. apply NoDup_app in Hnd as (_ & Hdisj & Hnd).
  destruct i as [|i], j as [|j]; simpl in *; simplify_eq; try done.
  - exfalso. apply (Hdisj x Hx). apply elem_of_concat. eauto.
  - exfalso. apply (Hdisj x Hx'). apply elem_of_concat. eauto.
  - f_equal. by apply IH.
Qed.

(** *** Replacing the module objects *)

Section Relabel.

Variable f : BaseModule → BaseModule.
Variable active active' : odict BaseModule.
Variable graph : gmap string (list string).
Hypothesis Hactive : ∀ k, od_get k active' = f <$> od_get k active.

Lemma sweep_relabel (ready : list string) (s : Sweep) :
  sweep active' graph ready (relabel_sweep f s)
  = match sweep active graph ready s with
    | Ok s' => Ok (relabel_sweep f s')
    | KeyError k => KeyError k
    | OutOfFuel => OutOfFuel
    end.
Proof.
  revert s. induction ready as [|x ready IH]; intros s; [done|].
  cbn [sweep relabel_sweep visited indegree next_ready current_layer].
  case_bool_decide; [apply IH|].
  rewrite Hactive.
  destruct (release (default [] (graph !! x)) (indegree s) (next_ready s))
    as [[indegree' next']|k|]; [|done|done].
  rewrite <- IH. f_equal. unfold relabel_sweep; simpl. f_equal.
  destruct (od_get x active); simpl; [|done]. by rewrite fmap_app.
Qed.

Lemma while_relabel (fuel : nat) (indegree : odict Z) (V : gset string)
    (layers : list (list BaseModule)) (ready : list string) :
  while_ready active' graph fuel indegree V (relabel_layers f layers) ready
  = match while_ready active graph fuel indegree V layers ready with
    | Ok (V', layers') => Ok (V', relabel_layers f layers')
    | KeyError k => KeyError k
    | OutOfFuel => OutOfFuel
    end.
Proof.
  revert indegree V layers ready.
  induction fuel as [|fuel IH]; intros indegree V layers ready.
  - by destruct ready.
  - destruct ready as [|x ready]; [done|]. cbn [while_ready].
    change {| Recon.indegree := indegree; visited := V;
              current_layer := []; next_ready := [] |}
      with (relabel_sweep f {| Recon.indegree := indegree; visited := V;
                               current_layer := []; next_ready := [] |}) at 1.
    rewrite sweep_relabel.
    destruct (sweep active graph (x :: ready) _) as [s'|k|]; [|done|done].
    cbn [relabel_sweep visited Recon.indegree next_ready current_layer].
    rewrite <- IH. f_equal.
    unfold relabel_layers. destruct (current_layer s'); simpl; [done|].
    by rewrite fmap_app.
Qed.

End Relabel.

(** *** The function as a whole *)

Section Whole.

Variable modules : list BaseModule.

Abbreviation active := (build_active modules).
Abbreviation deps_map := (build_deps_map (build_active modules)).1.
Abbreviation logs := (build_deps_map (build_active modules)).2.
Abbreviation graph := (build_graph (build_deps_map (build_active modules)).1).

Lemma resolve_unfold :
  _resolve_module_layers modules
  = match while_ready active graph (S (length active)) (build_indegree deps_map) ∅ []
            (initial_ready (build_indegree deps_map)) with
    | Ok (visited, layers) =>
        if bool_decide (size visited ≠ length active)
        then Ok ((λ m, [m]) <$> enabled_units modules, logs ++ [fallback_message])
        else Ok (layers, logs)
    | KeyError k => KeyError k
    | OutOfFuel => OutOfFuel
    end.
Proof.
  unfold _resolve_module_layers. by destruct (build_deps_map (build_active modules)).
Qed.

Lemma graph_of_modules d n :
  occ n (default [] (graph !! d)) = occ d (deps_of deps_map n).
Proof. apply build_graph_spec, (wf_nodup _ _ (build_deps_map_wf modules)). Qed.

(** The loop ends with a value, for every list of modules. *)
Lemma while_of_modules :
  ∃ indegree V layers,
    while_ready active graph (S (length active)) (build_indegree deps_map) ∅ []
      (initial_ready (build_indegree deps_map)) = Ok (V, layers)
    ∧ outer_inv deps_map active indegree V layers [].
Proof.
  apply while_from_start; [apply build_deps_map_wf|apply graph_of_modules].
Qed.

(** [_resolve_module_layers] returns for every list of modules: no
    subscript fails and the bound on the loop is never reached. *)
Lemma resolve_total :
  ∃ layers logs', _resolve_module_layers modules = Ok (layers, logs').
Proof.
  rewrite resolve_unfold.
  destruct while_of_modules as (indegree & V & layers & -> & _).
  case_bool_decide; eauto.
Qed.

(** All names visited, in terms of the test after the loop. *)
Lemma all_visited_size indegree V layers :
  outer_inv deps_map active indegree V layers [] →
  size V = length active ↔ ∀ n, n ∈ od_keys deps_map → n ∈ V.
Proof.
  intros Hinv. pose proof (build_deps_map_wf modules) as Hwf.
  rewrite <- (od_keys_length active), (wf_active _ _ Hwf).
  rewrite <- (size_list_to_set (C := gset string) (od_keys deps_map))
    by apply (wf_nodup _ _ Hwf).
  assert (V ⊆ list_to_set (od_keys deps_map)) as Hsub.
  { intros n Hn. apply elem_of_list_to_set. by apply (oi_names _ _ _ _ _ _ Hinv). }
  split.
  - intros Hsize n Hn. destruct (decide (n ∈ V)) as [|Hout]; [done|]. exfalso.
    assert (V ⊂ list_to_set (od_keys deps_map)) as Hstrict.
    { split; [done|]. intros Hrev. apply Hout, Hrev. by apply elem_of_list_to_set. }
    apply subset_size in Hstrict. lia.
  - intros Hall. f_equal. apply set_eq. intros n. split; [apply Hsub|].
    intros Hn%elem_of_list_to_set. by apply Hall.
Qed.

(** **** With unique names *)

Hypothesis Hunique : unique_names modules.

Lemma active_unique_keys : od_keys active = enabled_names modules.
Proof.
  rewrite build_active_unique by done. unfold od_keys, enabled_names.
  by rewrite <- list_fmap_compose.
Qed.

Lemma active_unique_get m :
  m ∈ enabled_units modules → od_get (name m) active = Some m.
Proof.
  intros Hm. apply od_get_elem.
  - rewrite active_unique_keys. apply Hunique.
  - rewrite build_active_unique by done. apply list_elem_of_fmap. by exists m.
Qed.

Lemma deps_of_unique m :
  m ∈ enabled_units modules →
  deps_of deps_map (name m) = filter (λ d, d ∈ enabled_names modules) (depends_on m).
Proof.
  intros Hm. unfold deps_of.
  rewrite build_deps_map_lookup by apply build_active_spec.
  rewrite (active_unique_get m Hm). simpl. by rewrite active_unique_keys.
Qed.

Lemma depends_deps_of a b :
  depends modules a b ↔ b ∈ deps_of deps_map a.
Proof.
  split.
  - intros (m & Hm & <- & Hb & Hen). rewrite deps_of_unique by done.
    by apply list_elem_of_filter.
  - intros Hb. pose proof (deps_of_names _ _ _ Hb) as Ha.
    rewrite build_deps_map_keys in Ha by apply build_active_spec.
    apply od_get_is_Some in Ha as [m Hm].
    destruct (build_active_spec modules) as (_ & _ & Hspec).
    destruct (Hspec a m Hm) as [<- Hen].
    rewrite deps_of_unique in Hb by done.
    apply list_elem_of_filter in Hb as [? ?]. by exists m.
Qed.

(** Without a cycle the loop visits every name. *)
Lemma acyclic_all_visited indegree V layers :
  outer_inv deps_map active indegree V layers [] →
  acyclic modules → ∀ n, n ∈ od_keys deps_map → n ∈ V.
Proof.
  intros Hinv Hacyclic n Hn. destruct (decide (n ∈ V)) as [|Hout]; [done|]. exfalso.
  pose proof (build_deps_map_wf modules) as Hwf.
  destruct (no_sink_cycle (depends modules)
              (filter (λ u, u ∉ V) (od_keys deps_map)) n) as [c Hc].
  - by apply list_elem_of_filter.
  - intros u [Hu1 Hu2]%list_elem_of_filter.
    destruct (unvisited_has_unvisited_dep _ _ Hwf _ _ _ u Hinv Hu2 Hu1)
      as (d & Hd & Hdn & HdV).
    exists d. split; [by apply list_elem_of_filter|]. by apply depends_deps_of.
  - by apply (Hacyclic c).
Qed.

(** With a cycle some name is left unvisited. *)
Lemma cycle_not_all_visited indegree V layers :
  outer_inv deps_map active indegree V layers [] →
  has_cycle modules → ¬ ∀ n, n ∈ od_keys deps_map → n ∈ V.
Proof.
  intros Hinv [c Hc] Hall.
  assert (tc (λ x y, y ∈ deps_of deps_map x) c c) as Hc'.
  { eapply tc_ext; [|done]. intros x y. apply depends_deps_of. }
  apply (visited_not_on_cycle _ _ _ _ _ _ c Hinv Hc'). apply Hall.
  destruct (tc_source _ _ _ Hc') as [d Hd]. by eapply deps_of_names.
Qed.

End Whole.

(** *** Dropping the missing dependencies beforehand *)

Lemma enabled_units_fmap (f : BaseModule → BaseModule) (modules : list BaseModule) :
  (∀ m, enabled (f m) = enabled m) →
  enabled_units (f <$> modules) = f <$> enabled_units modules.
Proof.
  intros Hf. unfold enabled_units. induction modules as [|m modules IH]; [done|].
  rewrite fmap_cons, !filter_cons, Hf, IH. by destruct (enabled m).
Qed.

Lemma drop_missing_names (modules : list BaseModule) :
  enabled_names (drop_missing modules <$> modules) = enabled_names modules.
Proof.
  unfold enabled_names. rewrite enabled_units_fmap by done.
  by rewrite <- list_fmap_compose.
Qed.

Lemma drop_missing_active (modules : list BaseModule) :
  unique_names modules →
  build_active (drop_missing modules <$> modules)
  = (λ item, (item.1, drop_missing modules item.2)) <$> build_active modules.
Proof.
  intros Hu. rewrite !build_active_unique; [|done|].
  - rewrite enabled_units_fmap by done. by rewrite <- !list_fmap_compose.
  - unfold unique_names. by rewrite drop_missing_names.
Qed.

Lemma drop_missing_deps_map (modules : list BaseModule) :
  unique_names modules →
  (build_deps_map (build_active (drop_missing modules <$> modules))).1
  = (build_deps_map (build_active modules)).1.
Proof.
  intros Hu.
  rewrite !(λ a H, proj1 (build_deps_map_spec a H)) by apply build_active_spec.
  rewrite !active_unique_keys; [|done|unfold unique_names; by rewrite drop_missing_names].
  rewrite drop_missing_names, drop_missing_active by done.
  rewrite <- list_fmap_compose. apply list_fmap_ext. intros i [k m] _. simpl. f_equal.
  rewrite list_filter_filter. apply list_filter_iff. tauto.
Qed.

(** *** The two regimes of the scheduler *)

Lemma ranked_acyclic (modules : list BaseModule) (rank : string → nat) :
  (∀ a b, depends modules a b → (rank b < rank a)%nat) → acyclic modules.
Proof.
  intros Hrank n Hn.
  assert (∀ a b, tc (depends modules) a b → (rank b < rank a)%nat) as Htc.
  { intros a b H. induction H as [a b H|a b c H _ IH]; [by apply Hrank|].
    apply Hrank in H. lia. }
  apply Htc in Hn. lia.
Qed.

(** C2.  For every list of units whose enabled units bear distinct names
    and whose dependency graph, restricted to the enabled units, has no
    cycle, [_resolve_module_layers] returns layers (no fallback) such
    that every enabled unit sits in exactly one layer, the layers hold
    nothing else, and every enabled unit sits in a later layer than each
    enabled unit it depends on.  Dependencies on disabled or absent
    units are dropped: each unit that has some is reported in a warning,
    and the placement is the one obtained when these dependencies are
    not declared at all. *)
Theorem resolve_layers_acyclic (modules : list BaseModule) :
  unique_names modules → acyclic modules →
  ∃ layers logs,
    _resolve_module_layers modules = Ok (layers, logs)
    ∧ (∀ m, m ∈ enabled_units modules →
         ∃ i, in_layer layers m i ∧ ∀ j, in_layer layers m j → j = i)
    ∧ concat layers ≡ₚ enabled_units modules
    ∧ (∀ a b i j, a ∈ enabled_units modules → b ∈ enabled_units modules →
         name b ∈ depends_on a → in_layer layers a i → in_layer layers b j →
         (j < i)%nat)
    ∧ (∀ m, m ∈ enabled_units modules → missing_deps modules m ≠ [] →
         missing_deps_message (name m) (missing_deps modules m) ∈ logs)
    ∧ ∃ logs',
        _resolve_module_layers (drop_missing modules <$> modules)
        = Ok (relabel_layers (drop_missing modules) layers, logs').
Proof.
  intros Hu Hacyclic.
  destruct (while_of_modules modules) as (indegree & V & layers & Hrun & Hinv).
  pose proof (acyclic_all_visited modules Hu _ _ _ Hinv Hacyclic) as Hall.
  pose proof (proj2 (all_visited_size modules _ _ _ Hinv) Hall) as Hsize.
  exists layers, (build_deps_map (build_active modules)).2.
  assert (NoDup (concat layers)) as Hnd.
  { eapply NoDup_fmap_1, (oi_nodup _ _ _ _ _ _ Hinv). }
  assert (∀ m, m ∈ concat layers → od_get (name m) (build_active modules) = Some m) as Hact.
  { apply (oi_active _ _ _ _ _ _ Hinv). }
  assert (∀ m, m ∈ concat layers ↔ m ∈ enabled_units modules) as Hmem.
  { intros m. split.
    - intros Hm. apply Hact in Hm. by apply build_active_spec in Hm as [_ ?].
    - intros Hm. assert (name m ∈ V) as HV.
      { apply Hall. rewrite build_deps_map_keys by apply build_active_spec.
        rewrite active_unique_keys by done. apply list_elem_of_fmap. by exists m. }
      rewrite (oi_visited _ _ _ _ _ _ Hinv) in HV.
      apply elem_of_list_to_set, list_elem_of_fmap in HV as (m' & Hname & Hm').
      pose proof (Hact m' Hm') as Hg. rewrite <- Hname in Hg.
      rewrite active_unique_get in Hg by done. by injection Hg as ->. }
  split; [|split; [|split; [|split; [|split]]]].
  - rewrite resolve_unfold, Hrun. by rewrite bool_decide_eq_false_2 by (intros H; by apply H).
  - intros m Hm. apply Hmem, elem_of_concat in Hm as (i & layer & Hi & Hx).
    exists i. split; [by exists layer|].
    intros j (layer' & Hj & Hx'). by eapply (concat_lookup_unique layers m j i).
  - apply NoDup_Permutation; [done| |done]. eapply NoDup_fmap_1, Hu.
  - intros a b i j Ha Hb Hdep (la & Hi & Hain) (lb & Hj & Hbin).
    destruct (oi_edges _ _ _ _ _ _ Hinv i la a (name b) Hi Hain)
      as (j' & layer' & m' & Hlt & Hj' & Hm' & Hname).
    { rewrite deps_of_unique by done. apply list_elem_of_filter. split; [|done].
      apply list_elem_of_fmap. by exists b. }
    assert (m' = b) as ->.
    { assert (m' ∈ concat layers) as Hc by (apply elem_of_concat; eauto).
      apply Hact in Hc. rewrite Hname, active_unique_get in Hc by done.
      by injection Hc. }
    by rewrite (concat_lookup_unique layers b j j' lb layer').
  - intros m Hm Hmiss.
    destruct (build_deps_map_spec (build_active modules)) as [_ Hlog];
      [apply build_active_spec|].
    specialize (Hlog (name m, m)). cbn [fst snd] in Hlog.
    rewrite active_unique_keys in Hlog by done. apply Hlog; [|done].
    rewrite build_active_unique by done. apply list_elem_of_fmap. by exists m.
  - eexists. rewrite resolve_unfold, drop_missing_deps_map by done.
    assert (length (build_active (drop_missing modules <$> modules))
            = length (build_active modules)) as ->.
    { rewrite drop_missing_active by done. apply length_fmap. }
    change (@nil (list BaseModule)) with (relabel_layers (drop_missing modules) []).
    rewrite (while_relabel (drop_missing modules) (build_active modules)).
    + rewrite Hrun. by rewrite bool_decide_eq_false_2 by (intros H; by apply H).
    + intros k. rewrite drop_missing_active by done. apply od_get_fmap_values.
Qed.

(** The chain of the repository with the subdomain module switched off:
    its two dependents lose that dependency and start in the first
    layer. *)
Lemma resolve_layers_acyclic_witness :
  ∃ layers logs,
    _resolve_module_layers (module_chain false) = Ok (layers, logs)
    ∧ (∀ m, m ∈ enabled_units (module_chain false) →
         ∃ i, in_layer layers m i ∧ ∀ j, in_layer layers m j → j = i)
    ∧ concat layers ≡ₚ enabled_units (module_chain false)
    ∧ (∀ a b i j, a ∈ enabled_units (module_chain false) →
         b ∈ enabled_units (module_chain false) →
         name b ∈ depends_on a → in_layer layers a i → in_layer layers b j →
         (j < i)%nat)
    ∧ (∀ m, m ∈ enabled_units (module_chain false) →
         missing_deps (module_chain false) m ≠ [] →
         missing_deps_message (name m) (missing_deps (module_chain false) m) ∈ logs)
    ∧ ∃ logs',
        _resolve_module_layers (drop_missing (module_chain false) <$> module_chain false)
        = Ok (relabel_layers (drop_missing (module_chain false)) layers, logs').
Proof.
  apply (resolve_layers_acyclic (module_chain false)).
  - refine (bool_decide_unpack _ _); vm_compute; exact I.
  - apply (ranked_acyclic _ chain_rank).
    intros a b (m & Hm & <- & Hb & _).
    vm_compute in Hm.
    repeat (apply elem_of_cons in Hm as [->|Hm]);
      try (by apply elem_of_nil in Hm);
      cbn [depends_on unit_] in Hb;
      try (by apply elem_of_nil in Hb);
      apply list_elem_of_singleton in Hb as ->; vm_compute; lia.
Defined.

Example module_chain_layers :
  _resolve_module_layers (module_chain true)
  = Ok ([ [unit_ "subdomains" true [] 1; unit_ "base_ports" true [] 2];
          [unit_ "endpoint_collector" true ["subdomains"] 3;
           unit_ "web_services" true ["subdomains"] 4];
          [unit_ "web_probe" true ["web_services"] 5;
           unit_ "secrets_scanner" true ["web_services"] 6;
           unit_ "nuclei" true ["web_services"] 7;
           unit_ "lfi_scanner" true ["web_services"] 8;
           unit_ "sqli_scanner" true ["web_services"] 9;
           unit_ "redirect_tester" true ["web_services"] 10] ]%nat,
        []).
Proof. vm_compute. reflexivity. Qed.

(** Why names have to be distinct: of two enabled units with one name
    the dictionary [active] keeps the second, and the first is placed
    nowhere. *)
Example shared_name_loses_a_unit :
  _resolve_module_layers [unit_ "nuclei" true [] 1; unit_ "nuclei" true [] 2]%nat
  = Ok ([[unit_ "nuclei" true [] 2%nat]], []).
Proof. vm_compute. reflexivity. Qed.

(** C5.  For every list of units whose enabled units bear distinct names
    and whose dependency graph, restricted to the enabled units, contains
    a cycle, [_resolve_module_layers] logs the fallback and returns one
    singleton layer per enabled unit, in the order of the list: the
    units launched are the enabled units, each once, in declaration
    order. *)
Theorem resolve_layers_cycle_fallback (modules : list BaseModule) :
  unique_names modules → has_cycle modules →
  ∃ logs,
    _resolve_module_layers modules
    = Ok ((λ m, [m]) <$> enabled_units modules, logs ++ [fallback_message])
    ∧ launched ((λ m, [m]) <$> enabled_units modules) = enabled_units modules
    ∧ NoDup (enabled_units modules).
Proof.
  intros Hu Hcycle.
  destruct (while_of_modules modules) as (indegree & V & layers & Hrun & Hinv).
  exists (build_deps_map (build_active modules)).2. split; [|split].
  - rewrite resolve_unfold, Hrun. rewrite bool_decide_eq_true_2; [done|].
    intros Hsize. apply (cycle_not_all_visited modules Hu _ _ _ Hinv Hcycle).
    by apply (all_visited_size modules _ _ _ Hinv).
  - unfold launched. induction (enabled_units modules) as [|m l IH]; [done|].
    simpl. f_equal. exact IH.
  - eapply NoDup_fmap_1, Hu.
Qed.

Lemma resolve_layers_cycle_fallback_witness :
  ∃ logs,
    _resolve_module_layers cyclic_chain
    = Ok ((λ m, [m]) <$> enabled_units cyclic_chain, logs ++ [fallback_message])
    ∧ launched ((λ m, [m]) <$> enabled_units cyclic_chain) = enabled_units cyclic_chain
    ∧ NoDup (enabled_units cyclic_chain).
Proof.
  apply (resolve_layers_cycle_fallback cyclic_chain).
  - refine (bool_decide_unpack _ _); vm_compute; exact I.
  - exists "web_services".
    apply (tc_l _ _ "web_probe").
    + exists (unit_ "web_services" true ["web_probe"] 4%nat).
      repeat split; vm_compute; repeat constructor.
    + apply tc_once.
      exists (unit_ "web_probe" true ["web_services"] 5%nat).
      repeat split; vm_compute; repeat constructor.
Defined.

End ReconTheory.

(** ** The snapshot of a run *)

Module StateManagerTheory.

Import Py Models StateManager.

(** *** Decimal keys *)

Lemma int_of_str_of_int (z : Z) : int_of_str (str_of_int z) = Some z.
Proof.
  unfold int_of_str, str_of_int. rewrite NilZero.isi.
  - simpl. by rewrite DecimalZ.of_to.
  - destruct z; simpl; [done| |done].
    intros [= H]. by apply Unsigned.to_uint_nonnil in H.
  - destruct z; simpl; [done|done|].
    intros [= H]. by apply Unsigned.to_uint_nonnil in H.
Qed.

Lemma str_of_int_inj (a b : Z) : str_of_int a = str_of_int b → a = b.
Proof.
  intros H. apply (f_equal int_of_str) in H.
  rewrite !int_of_str_of_int in H. by injection H.
Qed.

(** *** Documents with distinct keys *)

Lemma well_keyed_arr (items : list json) :
  well_keyed (JArr items) ↔ Forall well_keyed items.
Proof.
  simpl. induction items as [|x items IH]; [by split|].
  rewrite Forall_cons, <- IH. done.
Qed.

Lemma well_keyed_obj (members : list (string * json)) :
  well_keyed (JObj members)
  ↔ NoDup (fst <$> members) ∧ Forall (λ item, well_keyed item.2) members.
Proof.
  simpl. apply and_iff_compat_l.
  induction members as [|x members IH]; [by split|].
  rewrite Forall_cons, <- IH. done.
Qed.

Lemma strings_well_keyed (l : list string) : well_keyed (strings l).
Proof.
  apply well_keyed_arr, Forall_fmap, Forall_forall. by intros.
Qed.

Lemma keys_fmap {K A B} (h : K → string) (v : K * A → B) (l : list (K * A)) :
  fst <$> ((λ item, (h item.1, v item)) <$> l) = h <$> (fst <$> l).
Proof. induction l as [|x l IH]; [done|]. simpl. f_equal. exact IH. Qed.

Lemma state_document_well_keyed (ctx : ReconContext) :
  well_formed ctx → well_keyed (state_document ctx).
Proof.
  intros [Hc He Hb Hw Ht]. apply well_keyed_obj. split.
  - refine (bool_decide_unpack _ _). vm_compute. exact I.
  - unfold state_members. repeat apply Forall_cons_2; try apply Forall_nil_2;
      cbn [snd]; try apply strings_well_keyed; try done.
    + apply well_keyed_obj. split; [refine (bool_decide_unpack _ _); vm_compute; exact I|].
      repeat constructor.
    + apply well_keyed_obj. split.
      * rewrite (keys_fmap str_of_int (λ item, JStr item.2)).
        apply NoDup_fmap_2; [|done]. intros a b. apply str_of_int_inj.
      * apply Forall_fmap, Forall_forall. by intros.
    + apply well_keyed_obj. split.
      * rewrite (keys_fmap id (λ item, JArr (JInt <$> item.2))). by rewrite list_fmap_id.
      * apply Forall_fmap, Forall_forall. intros item _. simpl.
        apply well_keyed_arr, Forall_fmap, Forall_forall. by intros.
    + apply well_keyed_obj. split.
      * rewrite (keys_fmap id (λ item, JFloat item.2)). by rewrite list_fmap_id.
      * apply Forall_fmap, Forall_forall. by intros.
Qed.

(** *** The reference instance obeys the laws *)

Lemma mapM_members (l : list (string * json)) :
  mapM (λ member : string * json, Some (member.1, member.2)) l = Some l.
Proof.
  induction l as [|[k v] l IH]; [done|]. simpl in *. by rewrite IH.
Qed.

Lemma ref_validate_accepts (ctx : ReconContext) :
  ref_validate (state_members ctx) = Some (model_of ctx).
Proof.
  unfold ref_validate, field.
  replace (member "scope" (state_members ctx))
    with (Some (JObj [ ("host", JStr (host (scope ctx))); ("ip", JStr (ip (scope ctx)));
                       ("url", JStr (url (scope ctx))); ("mode", JStr (mode (scope ctx))) ]))
    by reflexivity.
  replace (member "config" (state_members ctx)) with (Some (JObj (config ctx)))
    by reflexivity.
  replace (member "subdomains" (state_members ctx)) with (Some (strings (subdomains ctx)))
    by reflexivity.
  replace (member "base_ports" (state_members ctx))
    with (Some (JObj ((λ item, (str_of_int item.1, JStr item.2)) <$> base_ports ctx)))
    by reflexivity.
  replace (member "web_ports" (state_members ctx))
    with (Some (JObj ((λ item, (item.1, JArr (JInt <$> item.2))) <$> web_ports ctx)))
    by reflexivity.
  replace (member "nuclei_raw" (state_members ctx)) with (Some (JStr (nuclei_raw ctx)))
    by reflexivity.
  replace (member "nuclei_urls" (state_members ctx)) with (Some (strings (nuclei_urls ctx)))
    by reflexivity.
  replace (member "findings" (state_members ctx)) with (Some (strings (findings ctx)))
    by reflexivity.
  replace (member "screenshots" (state_members ctx)) with (Some (strings (screenshots ctx)))
    by reflexivity.
  replace (member "extra" (state_members ctx)) with (Some (JObj (extra ctx)))
    by reflexivity.
  replace (member "timings" (state_members ctx))
    with (Some (JObj ((λ item, (item.1, JFloat item.2)) <$> timings ctx)))
    by reflexivity.
  unfold strings, as_dict, as_list. cbn -[mapM].
  rewrite !mapM_members.
  repeat (erewrite mapM_fmap_Some;
          [|intros []; cbn -[int_of_str str_of_int mapM];
            rewrite ?int_of_str_of_int, ?(mapM_fmap_Some as_int JInt) by done; done]).
  done.
Qed.

Lemma ref_library_laws :
  library_laws Compressed ref_decompress Encoded ref_decode Written ref_loads ref_validate.
Proof.
  split; try done. intros ctx _. apply ref_validate_accepts.
Qed.

(** *** Saving, then loading *)

Section Libraries.

Variable text bytes : Type.
Variable gzip_compress : bytes → bytes.
Variable gzip_decompress : bytes → option bytes.
Variable utf8_encode : text → bytes.
Variable utf8_decode : bytes → option text.
Variable json_dumps : json → text.
Variable json_loads : text → option json.
Variable validate : list (string * json) → option ReconStateModel.

Hypothesis laws :
  library_laws gzip_compress gzip_decompress utf8_encode utf8_decode
    json_dumps json_loads validate.

Abbreviation save := (save_state text bytes gzip_compress utf8_encode json_dumps).
Abbreviation load :=
  (load_state text bytes gzip_decompress utf8_decode json_loads).
Abbreviation text_of := (read_text text bytes gzip_decompress utf8_decode).

Lemma saved_file_holds_state (ctx : ReconContext) (path : string)
    (fs : gmap string (File bytes)) :
  well_formed ctx →
  ∃ raw, save ctx path fs !! path = Some (Readable raw)
         ∧ holds_object text bytes gzip_decompress utf8_decode json_loads raw
             (state_members ctx).
Proof.
  intros Hwf. eexists. split; [apply lookup_insert_eq|].
  exists (json_dumps (state_document ctx)). split.
  - unfold read_text. rewrite (gzip_round_trip _ _ _ _ _ _ _ laws). simpl.
    by rewrite (utf8_round_trip _ _ _ _ _ _ _ laws).
  - apply (json_round_trip _ _ _ _ _ _ _ laws). by apply state_document_well_keyed.
Qed.

Lemma load_object (has_pydantic : bool) (path : string) (fs : gmap string (File bytes))
    (raw : bytes) (members : list (string * json)) :
  fs !! path = Some (Readable raw) →
  holds_object text bytes gzip_decompress utf8_decode json_loads raw members →
  load has_pydantic validate path fs
  = if has_pydantic
    then match validate members with
         | Some validated => Return (Dumped validated)
         | None => Return NoSnapshot
         end
    else Return (Parsed members).
Proof.
  intros Hfile (t & Ht & Hdata). unfold load_state. by rewrite Hfile, Ht, Hdata.
Qed.

Lemma load_corrupted (has_pydantic : bool) (path : string) (fs : gmap string (File bytes))
    (raw : bytes) :
  fs !! path = Some (Readable raw) →
  corrupted text bytes gzip_decompress utf8_decode json_loads raw →
  load has_pydantic validate path fs = Return NoSnapshot.
Proof.
  intros Hfile [Ht|(t & Ht & Hdata)]; unfold load_state; rewrite Hfile, Ht; [done|].
  by rewrite Hdata.
Qed.

Lemma load_absent (has_pydantic : bool) (path : string) (fs : gmap string (File bytes)) :
  fs !! path = None ∨ fs !! path = Some Unreadable →
  load has_pydantic validate path fs = Return NoSnapshot.
Proof. intros [H|H]; unfold load_state; by rewrite H. Qed.

(** C3 (amended).  With the schema validator available, loading what
    [save_state] wrote for a context whose dictionaries are well formed
    returns a model whose accumulators (subdomains, base-port map,
    web-port map, raw vulnerability transcript, findings, timings,
    extensions) are those of the context; and a snapshot that is absent,
    unreadable, carries no text or no JSON (truncated or corrupted), or
    carries a JSON object that validation rejects, yields the empty
    result.  Without the validator nothing is validated: the saved
    snapshot comes back as the parsed document (integer port keys as
    their decimal strings), every JSON object comes back as it was
    parsed, and the empty result is returned for a snapshot that is
    absent, unreadable, corrupted, or a JSON value that is no object. *)
Theorem snapshot_round_trip (ctx : ReconContext) (path : string)
    (fs : gmap string (File bytes)) :
  well_formed ctx →
  (∃ m, load true validate path (save ctx path fs) = Return (Dumped m)
        ∧ same_accumulators m ctx)
  ∧ (∀ fs', fs' !! path = None ∨ fs' !! path = Some Unreadable →
            ∀ has_pydantic, load has_pydantic validate path fs' = Return NoSnapshot)
  ∧ (∀ fs' raw, fs' !! path = Some (Readable raw) →
       corrupted text bytes gzip_decompress utf8_decode json_loads raw
       ∨ schema_invalid text bytes gzip_decompress utf8_decode json_loads validate raw →
       load true validate path fs' = Return NoSnapshot)
  ∧ load false validate path (save ctx path fs) = Return (Parsed (state_members ctx))
  ∧ (∀ fs' raw members, fs' !! path = Some (Readable raw) →
       holds_object text bytes gzip_decompress utf8_decode json_loads raw members →
       load false validate path fs' = Return (Parsed members))
  ∧ (∀ fs' raw, fs' !! path = Some (Readable raw) →
       corrupted text bytes gzip_decompress utf8_decode json_loads raw
       ∨ holds_non_object text bytes gzip_decompress utf8_decode json_loads raw →
       load false validate path fs' = Return NoSnapshot).
Proof.
  intros Hwf.
  destruct (saved_file_holds_state ctx path fs Hwf) as (raw0 & Hfile0 & Hobj0).
  split; [|split; [|split; [|split; [|split]]]].
  - exists (model_of ctx). split; [|by repeat split].
    rewrite (load_object true _ _ _ _ Hfile0 Hobj0).
    by rewrite (validate_accepts _ _ _ _ _ _ _ laws ctx Hwf).
  - intros fs' H has_pydantic. by apply load_absent.
  - intros fs' raw Hfile [Hc|(members & Hobj & Hrej)]; [by eapply load_corrupted|].
    rewrite (load_object true _ _ _ _ Hfile Hobj). by rewrite Hrej.
  - by rewrite (load_object false _ _ _ _ Hfile0 Hobj0).
  - intros fs' raw members Hfile Hobj. by rewrite (load_object false _ _ _ _ Hfile Hobj).
  - intros fs' raw Hfile [Hc|(t & v & Ht & Hdata & Hno)]; [by eapply load_corrupted|].
    unfold load_state. rewrite Hfile, Ht, Hdata.
    destruct v; try done. by destruct (Hno members).
Qed.

End Libraries.

Lemma sample_context_well_formed : well_formed sample_context.
Proof.
  split.
  - apply well_keyed_obj. split; [refine (bool_decide_unpack _ _); vm_compute; exact I|].
    repeat constructor; simpl; set_solver.
  - apply well_keyed_obj. split; [refine (bool_decide_unpack _ _); vm_compute; exact I|].
    repeat constructor.
  - refine (bool_decide_unpack _ _). vm_compute. exact I.
  - refine (bool_decide_unpack _ _). vm_compute. exact I.
  - refine (bool_decide_unpack _ _). vm_compute. exact I.
Qed.

Lemma snapshot_round_trip_witness :
  (∃ m, ref_load_state true ".recon-state.json.gz"
          (ref_save_state sample_context ".recon-state.json.gz" ∅) = Return (Dumped m)
        ∧ same_accumulators m sample_context)
  ∧ (∀ fs', fs' !! ".recon-state.json.gz" = None
            ∨ fs' !! ".recon-state.json.gz" = Some Unreadable →
            ∀ has_pydantic,
              ref_load_state has_pydantic ".recon-state.json.gz" fs' = Return NoSnapshot)
  ∧ (∀ fs' raw, fs' !! ".recon-state.json.gz" = Some (Readable raw) →
       corrupted ref_text ref_bytes ref_decompress ref_decode ref_loads raw
       ∨ schema_invalid ref_text ref_bytes ref_decompress ref_decode ref_loads
           ref_validate raw →
       ref_load_state true ".recon-state.json.gz" fs' = Return NoSnapshot)
  ∧ ref_load_state false ".recon-state.json.gz"
      (ref_save_state sample_context ".recon-state.json.gz" ∅)
    = Return (Parsed (state_members sample_context))
  ∧ (∀ fs' raw members, fs' !! ".recon-state.json.gz" = Some (Readable raw) →
       holds_object ref_text ref_bytes ref_decompress ref_decode ref_loads raw members →
       ref_load_state false ".recon-state.json.gz" fs' = Return (Parsed members))
  ∧ (∀ fs' raw, fs' !! ".recon-state.json.gz" = Some (Readable raw) →
       corrupted ref_text ref_bytes ref_decompress ref_decode ref_loads raw
       ∨ holds_non_object ref_text ref_bytes ref_decompress ref_decode ref_loads raw →
       ref_load_state false ".recon-state.json.gz" fs' = Return NoSnapshot).
Proof.
  apply (snapshot_round_trip ref_text ref_bytes Compressed ref_decompress Encoded
           ref_decode Written ref_loads ref_validate ref_library_laws
           sample_context ".recon-state.json.gz" ∅).
  apply sample_context_well_formed.
Defined.

(** C3, as stated, where the validator is not installed: an uncompressed
    snapshot file holding the JSON object [{"subdomains": 5}], which has
    no scope and a number where a list of strings is declared, is
    returned as it was parsed, not discarded. *)
Lemma unvalidated_snapshot_is_adopted :
  let fs := {[ ".recon-state.json.gz" :=
                 Readable (Encoded (Written (JObj [("subdomains", JInt 5)]))) ]} in
  ref_validate [("subdomains", JInt 5)] = None
  ∧ ref_load_state false ".recon-state.json.gz" fs
    = Return (Parsed [("subdomains", JInt 5)])
  ∧ ref_load_state false ".recon-state.json.gz" fs ≠ Return NoSnapshot.
Proof. vm_compute. repeat split; discriminate. Qed.

(** Without the validator the base-port keys of a saved snapshot come
    back as strings. *)
Example unvalidated_ports_are_strings :
  ref_load_state false "state" (ref_save_state sample_context "state" ∅)
  = Return (Parsed (state_members sample_context))
  ∧ member "base_ports" (state_members sample_context)
    = Some (JObj [("80", JStr "http"); ("443", JStr "https")]).
Proof. vm_compute. done. Qed.

(** With the validator, a snapshot file holding a JSON value that is no
    object (here the empty array) is not discarded either: the unpacking
    raises [TypeError], which [load_state] does not catch. *)
Example non_object_snapshot_raises :
  ref_load_state true "state" {[ "state" := Readable (Encoded (Written (JArr []))) ]}
  = Raise not_a_mapping.
Proof. vm_compute. done. Qed.

(** A truncated archive is discarded. *)
Example truncated_snapshot_is_discarded :
  ref_load_state true "state" {[ "state" := Readable (Junk "truncated gzip stream") ]}
  = Return NoSnapshot.
Proof. vm_compute. done. Qed.

End StateManagerTheory.
(** ** Running the layers *)

Module SchedulerTheory.

Import Recon ReconInv ReconTheory Scheduler.

Lemma started_app evs1 evs2 : started (evs1 ++ evs2) = started evs1 ++ started evs2.
Proof. apply omap_app. Qed.

Lemma finished_app evs1 evs2 : finished (evs1 ++ evs2) = finished evs1 ++ finished evs2.
Proof. apply omap_app. Qed.

Lemma skipped_app evs1 evs2 : skipped (evs1 ++ evs2) = skipped evs1 ++ skipped evs2.
Proof. apply omap_app. Qed.

Lemma elem_of_started evs m : m ∈ started evs ↔ Started m ∈ evs.
Proof.
  unfold started. rewrite list_elem_of_omap. split.
  - intros (e & He & Hm). destruct e; simplify_eq. done.
  - intros He. by exists (Started m).
Qed.

Lemma elem_of_finished evs m : m ∈ finished evs ↔ ∃ d, Finished m d ∈ evs.
Proof.
  unfold finished. rewrite list_elem_of_omap. split.
  - intros (e & He & Hm). destruct e; simplify_eq. eauto.
  - intros [d He]. by exists (Finished m d).
Qed.

Lemma elem_of_skipped evs m : m ∈ skipped evs ↔ Skipped m ∈ evs.
Proof.
  unfold skipped. rewrite list_elem_of_omap. split.
  - intros (e & He & Hm). destruct e; simplify_eq. done.
  - intros He. by exists (Skipped m).
Qed.

Section Run.

Variable run_result : BaseModule → option string.
Variable elapsed : BaseModule → Q.

Lemma progress_start (st0 : State) : progress run_result elapsed st0 [] [] [] st0.
Proof.
  split; simpl; try done.
  - by rewrite app_nil_r.
  - intros e He. by apply elem_of_nil in He.
  - by rewrite app_nil_r.
  - intros m Hm. by apply elem_of_nil in Hm.
Qed.

(** Entering [module.run]. *)
Lemma progress_begin_enabled st0 order active block st m :
  enabled m = true →
  progress run_result elapsed st0 order active block st →
  progress run_result elapsed st0 order (active ++ [m]) (block ++ [Started m])
    (begin_module m st).1.
Proof.
  intros Hen [Hev Hmod Hst Hfin Hsk Herr Hun Htim]. unfold enabled_units in *.
  unfold begin_module. rewrite Hen. split; unfold enabled_units; simpl; try done.
  - by rewrite Hev, <- app_assoc.
  - intros e [He|He%list_elem_of_singleton]%elem_of_app.
    + apply Hmod in He. set_solver.
    + subst e. set_solver.
  - rewrite started_app, Hst, !filter_app. simpl.
    rewrite filter_cons, decide_True by (rewrite Hen; simpl; tauto). by rewrite filter_nil, <- app_assoc.
  - by rewrite finished_app, Hfin, app_nil_r.
  - by rewrite skipped_app, Hsk, app_nil_r.
Qed.

(** A disabled module is done at once. *)
Lemma progress_begin_disabled st0 order active block st m :
  enabled m = false →
  progress run_result elapsed st0 order active block st →
  progress run_result elapsed st0 (order ++ [m]) active (block ++ [Skipped m])
    (begin_module m st).1.
Proof.
  intros Hen [Hev Hmod Hst Hfin Hsk Herr Hun Htim]. unfold enabled_units in *.
  unfold begin_module. rewrite Hen. split; unfold enabled_units; simpl.
  - by rewrite Hev, <- app_assoc.
  - intros e [He|He%list_elem_of_singleton]%elem_of_app.
    + apply Hmod in He. set_solver.
    + subst e. set_solver.
  - rewrite started_app, Hst, !filter_app. simpl.
    rewrite filter_cons, decide_False by (rewrite Hen; simpl; tauto). by rewrite filter_nil, !app_nil_r.
  - rewrite finished_app, Hfin, filter_app. simpl.
    rewrite filter_cons, decide_False by (rewrite Hen; simpl; tauto). by rewrite filter_nil.
  - rewrite skipped_app, Hsk, filter_app. simpl.
    rewrite filter_cons, decide_True by (rewrite Hen; simpl; tauto). by rewrite filter_nil.
  - rewrite Herr, omap_app. simpl.
    replace (failure run_result m) with (@None (string * string))
      by (unfold failure; by rewrite Hen).
    by rewrite app_nil_r.
  - intros n Hn. rewrite fmap_app, not_elem_of_app in Hn. destruct Hn as [Hn Hm].
    rewrite od_get_set_ne by set_solver. by apply Hun.
  - intros m' [Hm'|Hm'%list_elem_of_singleton]%elem_of_app.
    + destruct (decide (name m' = name m)) as [E|E].
      * exists m. split; [set_solver|]. split; [done|].
        rewrite E, od_get_set_eq. unfold recorded. by rewrite Hen.
      * destruct (Htim m' Hm') as (m'' & H1 & H2 & H3). exists m''.
        split; [set_solver|]. split; [done|]. by rewrite od_get_set_ne.
    + subst m'. exists m. split; [set_solver|]. split; [done|].
      rewrite od_get_set_eq. unfold recorded. by rewrite Hen.
Qed.

(** Leaving [module.run], with or without an exception. *)
Lemma progress_end st0 order active block st k m :
  active !! k = Some m → enabled m = true →
  progress run_result elapsed st0 order active block st →
  ∃ block', progress run_result elapsed st0 (order ++ [m]) (delete k active)
              (block ++ block') (end_module run_result elapsed m st).
Proof.
  intros Hk Hen [Hev Hmod Hst Hfin Hsk Herr Hun Htim]. unfold enabled_units in *.
  assert (active ≡ₚ m :: delete k active) as Hperm by (by apply delete_Permutation).
  exists (match run_result m with
          | Some error => [Failed m error; Finished m (elapsed m)]
          | None => [Finished m (elapsed m)]
          end).
  unfold end_module. split; unfold enabled_units.
  - destruct (run_result m); simpl; rewrite Hev, <- ?app_assoc; done.
  - intros e [He|He]%elem_of_app.
    + apply Hmod in He. apply elem_of_app in He as [He|He]; [set_solver|].
      rewrite Hperm in He. set_solver.
    + assert (module_of e = m) as ->; [|set_solver].
      destruct (run_result m); set_solver.
  - rewrite started_app.
    replace (started (match run_result m with
                      | Some error => [Failed m error; Finished m (elapsed m)]
                      | None => [Finished m (elapsed m)]
                      end)) with (@nil BaseModule) by (by destruct (run_result m)).
    rewrite app_nil_r, Hst. apply filter_Permutation.
    rewrite <- app_assoc. by apply Permutation_app_head.
  - rewrite finished_app, Hfin, filter_app. simpl.
    rewrite filter_cons, decide_True by (rewrite Hen; simpl; tauto). rewrite filter_nil.
    by destruct (run_result m).
  - rewrite skipped_app, Hsk, filter_app. simpl.
    rewrite filter_cons, decide_False by (rewrite Hen; simpl; tauto). rewrite filter_nil.
    by destruct (run_result m).
  - rewrite omap_app. simpl.
    replace (failure run_result m) with ((λ error, (name m, error)) <$> run_result m)
      by (unfold failure; by rewrite Hen).
    destruct (run_result m); simpl; rewrite Herr, ?app_nil_r, <- ?app_assoc; done.
  - intros n Hn. rewrite fmap_app, not_elem_of_app in Hn. destruct Hn as [Hn Hm].
    replace (timings _) with (od_set (name m) (elapsed m) (timings st))
      by (by destruct (run_result m)).
    rewrite od_get_set_ne by set_solver. by apply Hun.
  - intros m' Hm'.
    replace (timings _) with (od_set (name m) (elapsed m) (timings st))
      by (by destruct (run_result m)).
    destruct (decide (name m' = name m)) as [E|E].
    + exists m. split; [set_solver|]. split; [done|].
      rewrite E, od_get_set_eq. unfold recorded. by rewrite Hen.
    + apply elem_of_app in Hm' as [Hm'|Hm'%list_elem_of_singleton]; [|by subst].
      destruct (Htim m' Hm') as (m'' & H1 & H2 & H3). exists m''.
      split; [set_solver|]. split; [done|]. by rewrite od_get_set_ne.
Qed.

Lemma step_inv layer st0 order block c g g' :
  gather_inv run_result elapsed layer st0 order block g →
  step run_result elapsed c g = Some g' →
  ∃ order' block', gather_inv run_result elapsed layer st0 order' block' g'.
Proof.
  intros [Hsplit Hrun Hprog] Hstep. destruct c as [|k]; simpl in Hstep.
  - destruct (created g) as [|m rest] eqn:Hc; [done|].
    destruct (enabled m) eqn:Hen.
    + pose proof (progress_begin_enabled _ _ _ _ _ m Hen Hprog) as Hp.
      unfold begin_module in *. rewrite Hen in *. simplify_eq. simpl in *.
      exists order, (block ++ [Started m]). split; simpl; [|set_solver|done].
      rewrite Hsplit. rewrite <- !app_assoc. simpl. done.
    + pose proof (progress_begin_disabled _ _ _ _ _ m Hen Hprog) as Hp.
      unfold begin_module in *. rewrite Hen in *. simplify_eq. simpl in *.
      exists (order ++ [m]), (block ++ [Skipped m]). split; simpl; [|done|done].
      rewrite Hsplit, <- !app_assoc. simpl.
      apply Permutation_app_head. symmetry. apply Permutation_middle.
  - destruct (running g !! k) as [m|] eqn:Hk; [|done]. simplify_eq. simpl.
    assert (enabled m = true) as Hen by (eapply Hrun, list_elem_of_lookup_2; done).
    destruct (progress_end _ _ _ _ _ k m Hk Hen Hprog) as [block' Hp].
    exists (order ++ [m]), (block ++ block'). split; simpl; [| |done].
    + rewrite Hsplit, <- app_assoc. apply Permutation_app_head. simpl.
      change (m :: delete k (running g) ++ created g)
        with ((m :: delete k (running g)) ++ created g).
      by apply Permutation_app_tail, delete_Permutation.
    + intros m' Hm'. apply Hrun. eapply elem_of_sublist; [done|]. apply sublist_delete.
Qed.

Lemma steps_inv schedule layer st0 order block g g' :
  gather_inv run_result elapsed layer st0 order block g →
  steps run_result elapsed schedule g = Some g' →
  ∃ order' block', gather_inv run_result elapsed layer st0 order' block' g'.
Proof.
  revert order block g. induction schedule as [|c schedule IH]; intros order block g Hinv; simpl.
  - intros [= <-]. eauto.
  - destruct (step run_result elapsed c g) as [g1|] eqn:Hstep; [|done].
    destruct (step_inv _ _ _ _ _ _ _ Hinv Hstep) as (order1 & block1 & Hinv1).
    by apply (IH order1 block1 g1).
Qed.

(** One layer: when [gather] returns, every task of the layer is done. *)
Lemma gather_done layer schedule st0 st :
  gather run_result elapsed layer schedule st0 = Some st →
  ∃ order block, order ≡ₚ layer ∧ progress run_result elapsed st0 order [] block st.
Proof.
  unfold gather. intros Hg.
  destruct (steps run_result elapsed schedule _) as [g|] eqn:Hsteps; [|done].
  destruct (steps_inv schedule layer st0 [] []
              {| created := layer; running := []; state := st0 |} g)
    as (order & block & [Hsplit _ Hprog]); [|done|].
  { split; simpl; [done| |apply progress_start].
    intros m Hm. by apply elem_of_nil in Hm. }
  destruct g as [[|] [|] st']; simplify_eq. simpl in *.
  exists order, block. rewrite app_nil_r in Hsplit. done.
Qed.

Lemma progress_block_of_layer st0 order block st layer :
  order ≡ₚ layer → progress run_result elapsed st0 order [] block st →
  block_of_layer layer block.
Proof.
  intros Hperm [Hev Hmod Hst Hfin Hsk Herr Hun Htim]. unfold enabled_units in *.
  rewrite app_nil_r in *.
  split; [|split].
  - intros e He. rewrite <- Hperm. by apply Hmod.
  - intros m Hm Hen. rewrite <- Hperm in Hm. split.
    + apply elem_of_started. rewrite Hst. apply list_elem_of_filter.
      split; [by rewrite Hen|done].
    + apply elem_of_finished. rewrite Hfin. apply list_elem_of_filter.
      split; [by rewrite Hen|done].
  - intros m Hm Hen. rewrite <- Hperm in Hm.
    apply elem_of_skipped. rewrite Hsk. apply list_elem_of_filter.
    split; [rewrite Hen; simpl; tauto|done].
Qed.

(** Two stretches of a run, one after the other. *)
Lemma progress_seq st0 st1 st2 order1 order2 block1 block2 :
  progress run_result elapsed st0 order1 [] block1 st1 →
  progress run_result elapsed st1 order2 [] block2 st2 →
  progress run_result elapsed st0 (order1 ++ order2) [] (block1 ++ block2) st2.
Proof.
  intros [Hev1 Hmod1 Hst1 Hfin1 Hsk1 Herr1 Hun1 Htim1]
         [Hev2 Hmod2 Hst2 Hfin2 Hsk2 Herr2 Hun2 Htim2]. unfold enabled_units in *.
  rewrite app_nil_r in *. split; unfold enabled_units; rewrite ?app_nil_r.
  - by rewrite Hev2, Hev1, app_assoc.
  - intros e [He|He]%elem_of_app; [apply Hmod1 in He|apply Hmod2 in He]; set_solver.
  - by rewrite started_app, filter_app, Hst1, Hst2.
  - by rewrite finished_app, filter_app, Hfin1, Hfin2.
  - by rewrite skipped_app, filter_app, Hsk1, Hsk2.
  - by rewrite Herr2, Herr1, omap_app, app_assoc.
  - intros n Hn. rewrite fmap_app, not_elem_of_app in Hn. destruct Hn as [Hn1 Hn2].
    rewrite Hun2 by done. by apply Hun1.
  - intros m Hm.
    destruct (decide (name m ∈ name <$> order2)) as [Hin|Hout].
    + apply list_elem_of_fmap in Hin as (m2 & Hname & Hm2).
      destruct (Htim2 m2 Hm2) as (m' & H1 & H2 & H3). exists m'.
      split; [set_solver|]. split; [congruence|]. by rewrite Hname.
    + apply elem_of_app in Hm as [Hm|Hm].
      * destruct (Htim1 m Hm) as (m' & H1 & H2 & H3). exists m'.
        split; [set_solver|]. split; [done|]. by rewrite Hun2.
      * exfalso. apply Hout. by apply list_elem_of_fmap_2.
Qed.

Lemma run_layers_done layers schedules st0 st :
  run_layers run_result elapsed layers schedules st0 = Some st →
  ∃ order blocks,
    order ≡ₚ concat layers
    ∧ Forall2 block_of_layer layers blocks
    ∧ progress run_result elapsed st0 order [] (concat blocks) st.
Proof.
  revert schedules st0. induction layers as [|layer layers IH]; intros schedules st0; simpl.
  - destruct schedules; [|done]. intros [= <-].
    exists [], []. split; [done|]. split; [constructor|apply progress_start].
  - destruct schedules as [|schedule schedules]; [done|].
    destruct (gather run_result elapsed layer schedule st0) as [st1|] eqn:Hg; [|done].
    intros Hrest.
    destruct (gather_done _ _ _ _ Hg) as (order1 & block1 & Hperm1 & Hp1).
    destruct (IH _ _ Hrest) as (order2 & blocks2 & Hperm2 & Hblocks & Hp2).
    exists (order1 ++ order2), (block1 :: blocks2). split; [|split].
    + by rewrite Hperm1, Hperm2.
    + constructor; [|done]. by eapply progress_block_of_layer.
    + simpl. by eapply progress_seq.
Qed.

(** However the event loop schedules the tasks of each layer, a run of
    [_execute_layers] that comes to its end has entered [run] once for
    every enabled module it was given and left it once, has skipped
    every disabled one, and held none back because another one failed:
    the failures reported under [module_errors] are exactly those of the
    enabled modules that raised, and the entry is written only when
    there is one.  Every module has its entry in [ctx.timings], other
    entries are left as they were. *)
Theorem execute_layers_runs_every_module layers schedules timings0 timings' reported evs :
  _execute_layers run_result elapsed layers schedules timings0
  = Some (timings', reported, evs) →
  started evs ≡ₚ enabled_units (concat layers)
  ∧ finished evs ≡ₚ enabled_units (concat layers)
  ∧ skipped evs ≡ₚ filter (λ m, ¬ enabled m) (concat layers)
  ∧ default [] reported ≡ₚ omap (failure run_result) (concat layers)
  ∧ (reported = None ↔ ∀ m, m ∈ concat layers → failure run_result m = None)
  ∧ (∀ m, m ∈ concat layers →
       ∃ m', m' ∈ concat layers ∧ name m' = name m
             ∧ od_get (name m) timings' = Some (recorded elapsed m'))
  ∧ (∀ n, n ∉ name <$> concat layers → od_get n timings' = od_get n timings0).
Proof.
  unfold _execute_layers.
  destruct (run_layers _ _ _ _ _) as [st|] eqn:Hrun; [|done].
  intros [= <- <- <-].
  destruct (run_layers_done _ _ _ _ Hrun)
    as (order & blocks & Hperm & _ & [Hev Hmod Hst Hfin Hsk Herr Hun Htim]).
  simpl in *. rewrite app_nil_r in *. subst. unfold enabled_units in *.
  assert (errors st ≡ₚ omap (failure run_result) (concat layers)) as Herrs.
  { by rewrite Herr, Hperm. }
  split; [by rewrite Hev, Hst, Hperm|]. split; [by rewrite Hev, Hfin, Hperm|].
  split; [by rewrite Hev, Hsk, Hperm|]. split; [by destruct (errors st)|].
  split; [|split].
  - split.
    + intros Hnone m Hm. destruct (failure run_result m) as [f|] eqn:Hf; [|done].
      assert (f ∈ errors st) as Hin.
      { rewrite Herrs. apply list_elem_of_omap. eauto. }
      destruct (errors st); [by apply elem_of_nil in Hin|done].
    + intros Hall. destruct (errors st) as [|f l] eqn:E; [done|]. exfalso.
      assert (f ∈ omap (failure run_result) (concat layers)) as Hin.
      { rewrite <- Herrs. left. }
      apply list_elem_of_omap in Hin as (m & Hm & Hf). by rewrite Hall in Hf.
  - intros m Hm. rewrite <- Hperm in Hm.
    destruct (Htim m Hm) as (m' & H1 & H2 & H3). exists m'. by rewrite <- Hperm.
  - intros n Hn. apply Hun. by rewrite Hperm.
Qed.

(** The layers are run one after the other: the events of a run fall
    into one block per layer, in the order of the layers, and each block
    holds the events of the modules of its layer, all of them and no
    others.  A module of a later layer is not entered before every
    module of the earlier layers has been left. *)
Theorem execute_layers_one_layer_at_a_time layers schedules timings0 timings' reported evs :
  _execute_layers run_result elapsed layers schedules timings0
  = Some (timings', reported, evs) →
  ∃ blocks, evs = concat blocks ∧ Forall2 block_of_layer layers blocks.
Proof.
  unfold _execute_layers.
  destruct (run_layers _ _ _ _ _) as [st|] eqn:Hrun; [|done].
  intros [= <- <- <-].
  destruct (run_layers_done _ _ _ _ Hrun) as (order & blocks & _ & Hblocks & [Hev _ _ _ _ _ _ _]).
  exists blocks. by rewrite Hev.
Qed.

End Run.

(** *** The layers of an acyclic graph, run *)

(** What the resolution yields without a cycle, in the terms the run
    needs: every enabled unit sits in one layer, and what it depends on
    sits in an earlier one. *)
Lemma acyclic_layers (modules : list BaseModule) :
  unique_names modules → acyclic modules →
  ∃ layers,
    _resolve_module_layers modules = Ok (layers, (build_deps_map (build_active modules)).2)
    ∧ NoDup (concat layers)
    ∧ (∀ m, m ∈ concat layers ↔ m ∈ enabled_units modules)
    ∧ (∀ i la a b, layers !! i = Some la → a ∈ la →
         b ∈ enabled_units modules → name b ∈ depends_on a →
         ∃ j lb, (j < i)%nat ∧ layers !! j = Some lb ∧ b ∈ lb).
Proof.
  intros Hu Hacyclic.
  destruct (while_of_modules modules) as (indegree & V & layers & Hrun & Hinv).
  pose proof (acyclic_all_visited modules Hu _ _ _ Hinv Hacyclic) as Hall.
  pose proof (proj2 (all_visited_size modules _ _ _ Hinv) Hall) as Hsize.
  exists layers.
  assert (NoDup (concat layers)) as Hnd.
  { eapply NoDup_fmap_1, (oi_nodup _ _ _ _ _ _ Hinv). }
  assert (∀ m, m ∈ concat layers → od_get (name m) (build_active modules) = Some m) as Hact.
  { apply (oi_active _ _ _ _ _ _ Hinv). }
  assert (∀ m, m ∈ concat layers ↔ m ∈ enabled_units modules) as Hmem.
  { intros m. split.
    - intros Hm. apply Hact in Hm. by apply build_active_spec in Hm as [_ ?].
    - intros Hm. assert (name m ∈ V) as HV.
      { apply Hall. rewrite build_deps_map_keys by apply build_active_spec.
        rewrite active_unique_keys by done. apply list_elem_of_fmap. by exists m. }
      rewrite (oi_visited _ _ _ _ _ _ Hinv) in HV.
      apply elem_of_list_to_set, list_elem_of_fmap in HV as (m' & Hname & Hm').
      pose proof (Hact m' Hm') as Hg. rewrite <- Hname in Hg.
      rewrite active_unique_get in Hg by done. by injection Hg as ->. }
  split; [|split; [done|split; [done|]]].
  - rewrite resolve_unfold, Hrun. by rewrite bool_decide_eq_false_2 by (intros H; by apply H).
  - intros i la a b Hi Ha Hb Hdep.
    assert (a ∈ enabled_units modules) as Hae.
    { apply Hmem, elem_of_concat. eauto. }
    destruct (oi_edges _ _ _ _ _ _ Hinv i la a (name b) Hi Ha)
      as (j & lb & m' & Hlt & Hj & Hm' & Hname).
    { rewrite deps_of_unique by done. apply list_elem_of_filter. split; [|done].
      apply list_elem_of_fmap. by exists b. }
    assert (m' = b) as ->.
    { assert (m' ∈ concat layers) as Hc by (apply elem_of_concat; eauto).
      apply Hact in Hc. rewrite Hname, active_unique_get in Hc by done.
      by injection Hc. }
    eauto.
Qed.

Lemma Forall2_block_take_drop layers blocks i :
  Forall2 block_of_layer layers blocks →
  (∀ e, e ∈ concat (take i blocks) →
     ∃ j layer, (j < i)%nat ∧ layers !! j = Some layer ∧ module_of e ∈ layer)
  ∧ (∀ e, e ∈ concat (drop i blocks) →
       ∃ j layer, (i ≤ j)%nat ∧ layers !! j = Some layer ∧ module_of e ∈ layer).
Proof.
  intros HF. split; intros e (k & block & Hk & He)%elem_of_concat.
  - apply lookup_take_Some in Hk as [Hk Hlt].
    destruct (Forall2_lookup_r _ _ _ _ _ HF Hk) as (layer & Hl & Hb & _).
    exists k, layer. eauto.
  - rewrite lookup_drop in Hk.
    destruct (Forall2_lookup_r _ _ _ _ _ HF Hk) as (layer & Hl & Hb & _).
    exists (i + k)%nat, layer. split; [lia|]. eauto.
Qed.

(** The scheduler as a whole, for enabled units with distinct names and
    no dependency cycle among them: the layers are resolved and run, and
    however the tasks of a layer are interleaved, no unit is entered
    before each enabled unit it depends on has been left.  The events of
    the run split at a point before which the dependency has finished
    and the dependent has not started. *)
Theorem dependencies_finish_first
    (run_result : BaseModule → option string) (elapsed : BaseModule → Q)
    (modules : list BaseModule) (schedules : list (list Choice)) (timings0 : odict Q)
    (layers : list (list BaseModule)) (logs : list string)
    (timings' : odict Q) (reported : option (list (string * string))) (evs : list Event) :
  unique_names modules → acyclic modules →
  _resolve_module_layers modules = Ok (layers, logs) →
  _execute_layers run_result elapsed layers schedules timings0
  = Some (timings', reported, evs) →
  ∀ a b, a ∈ enabled_units modules → b ∈ enabled_units modules →
         name b ∈ depends_on a →
    ∃ pre post, evs = pre ++ post
                ∧ (∃ d, Finished b d ∈ pre) ∧ (∀ d, Finished b d ∉ post)
                ∧ Started a ∈ post ∧ Started a ∉ pre.
Proof.
  intros Hu Hacyclic Hres Hexec a b Ha Hb Hdep.
  destruct (acyclic_layers modules Hu Hacyclic) as (layers' & Hres' & Hnd & Hmem & Hedges).
  rewrite Hres in Hres'. injection Hres' as <- _.
  assert (∃ blocks, evs = concat blocks ∧ Forall2 block_of_layer layers blocks)
    as (blocks & -> & HF).
  { unfold _execute_layers in Hexec.
    destruct (run_layers _ _ _ _ _) as [st|] eqn:Hrun; [|done].
    injection Hexec as <- <- <-.
    destruct (run_layers_done _ _ _ _ _ _ Hrun)
      as (order & blocks & _ & Hblocks & [Hev _ _ _ _ _ _ _]).
    exists blocks. by rewrite Hev. }
  apply Hmem, elem_of_concat in Ha as (i & la & Hi & Ha).
  destruct (Hedges i la a b Hi Ha Hb Hdep) as (j & lb & Hlt & Hj & Hbl).
  destruct (Forall2_block_take_drop layers blocks i HF) as [Hpre Hpost].
  destruct (Forall2_lookup_l _ _ _ _ _ HF Hi) as (block_a & Hba & _ & Hin_a & _).
  destruct (Forall2_lookup_l _ _ _ _ _ HF Hj) as (block_b & Hbb & _ & Hin_b & _).
  assert (enabled a = true ∧ enabled b = true) as [Hena Henb].
  { split.
    - assert (a ∈ enabled_units modules) as H by (apply Hmem, elem_of_concat; eauto).
      apply list_elem_of_filter in H as [H _]. by apply Is_true_true.
    - apply list_elem_of_filter in Hb as [H _]. by apply Is_true_true. }
  exists (concat (take i blocks)), (concat (drop i blocks)).
  split; [by rewrite <- concat_app, take_drop|]. split; [|split; [|split]].
  - destruct (Hin_b b Hbl Henb) as [_ [d Hd]]. exists d.
    apply elem_of_concat. exists j, block_b. split; [|done].
    apply lookup_take_Some. done.
  - intros d (k & layer & Hk & Hlk & Hbk)%Hpost. simpl in Hbk.
    assert (k = j) by (by eapply (concat_lookup_unique layers b k j)). lia.
  - destruct (Hin_a a Ha Hena) as [Hs _].
    apply elem_of_concat. exists 0%nat, block_a. split; [|done].
    rewrite lookup_drop. by rewrite Nat.add_0_r.
  - intros (k & layer & Hk & Hlk & Hak)%Hpre. simpl in Hak.
    assert (k = i) by (by eapply (concat_lookup_unique layers a k i)). lia.
Qed.

(** *** A run of three units *)

Lemma execute_layers_runs_every_module_witness :
  let layers := [ [unit_ "subdomains" true [] 1; unit_ "base_ports" true [] 2;
                   unit_ "screenshotter" false [] 11];
                  [unit_ "web_services" true ["subdomains"] 4] ]%nat in
  let run_result := λ m, if bool_decide (name m = "base_ports") then Some "no route to host"
                         else None in
  let elapsed := λ _ : BaseModule, (3 # 2)%Q in
  let schedules := [ [StartNext; StartNext; Complete 1; StartNext; Complete 0];
                     [StartNext; Complete 0] ]%nat in
  let result := _execute_layers run_result elapsed layers schedules [] in
  let timings' := (default ([], None, []) result).1.1 in
  let reported := (default ([], None, []) result).1.2 in
  let evs := (default ([], None, []) result).2 in
  started evs ≡ₚ enabled_units (concat layers)
  ∧ finished evs ≡ₚ enabled_units (concat layers)
  ∧ skipped evs ≡ₚ filter (λ m, ¬ enabled m) (concat layers)
  ∧ default [] reported ≡ₚ omap (failure run_result) (concat layers)
  ∧ (reported = None ↔ ∀ m, m ∈ concat layers → failure run_result m = None)
  ∧ (∀ m, m ∈ concat layers →
       ∃ m', m' ∈ concat layers ∧ name m' = name m
             ∧ od_get (name m) timings' = Some (recorded elapsed m'))
  ∧ (∀ n, n ∉ name <$> concat layers → od_get n timings' = od_get n []).
Proof.
  intros layers run_result elapsed schedules result timings' reported evs.
  apply (execute_layers_runs_every_module run_result elapsed layers schedules []).
  reflexivity.
Defined.

Lemma execute_layers_one_layer_at_a_time_witness :
  let layers := [ [unit_ "subdomains" true [] 1; unit_ "base_ports" true [] 2];
                  [unit_ "web_services" true ["subdomains"] 4] ]%nat in
  let schedules := [ [StartNext; StartNext; Complete 1; Complete 0];
                     [StartNext; Complete 0] ]%nat in
  let result := _execute_layers (λ _, None) (λ _, (3 # 2)%Q) layers schedules [] in
  ∃ blocks, (default ([], None, []) result).2 = concat blocks
            ∧ Forall2 block_of_layer layers blocks.
Proof.
  intros layers schedules result.
  apply (execute_layers_one_layer_at_a_time (λ _, None) (λ _, (3 # 2)%Q) layers schedules []
           (default ([], None, []) result).1.1 (default ([], None, []) result).1.2).
  reflexivity.
Defined.

Lemma module_chain_ranked (on : bool) : acyclic (module_chain on).
Proof.
  apply (ranked_acyclic _ chain_rank).
  intros a b (m & Hm & <- & Hb & _).
  apply list_elem_of_filter in Hm as [_ Hm]. unfold module_chain in Hm.
  repeat (apply elem_of_cons in Hm as [->|Hm]);
    try (by apply elem_of_nil in Hm);
    cbn [depends_on unit_] in Hb;
    try (by apply elem_of_nil in Hb);
    apply list_elem_of_singleton in Hb as ->; vm_compute; lia.
Qed.

Lemma dependencies_finish_first_witness :
  let modules := module_chain true in
  let layers := default [] ((λ r, match r with Ok (l, _) => Some l | _ => None end)
                              (_resolve_module_layers modules)) in
  let schedules := in_turn <$> layers in
  let result := _execute_layers (λ _, None) (λ _, (3 # 2)%Q) layers schedules [] in
  let a := unit_ "web_services" true ["subdomains"] 4%nat in
  let b := unit_ "subdomains" true [] 1%nat in
  ∃ pre post, (default ([], None, []) result).2 = pre ++ post
              ∧ (∃ d, Finished b d ∈ pre) ∧ (∀ d, Finished b d ∉ post)
              ∧ Started a ∈ post ∧ Started a ∉ pre.
Proof.
  intros modules layers schedules result a b.
  apply (dependencies_finish_first (λ _, None) (λ _, (3 # 2)%Q) modules schedules []
           layers [] (default ([], None, []) result).1.1
           (default ([], None, []) result).1.2).
  - refine (bool_decide_unpack _ _); vm_compute; exact I.
  - apply module_chain_ranked.
  - vm_compute. reflexivity.
  - vm_compute. reflexivity.
  - vm_compute. repeat constructor.
  - vm_compute. repeat constructor.
  - vm_compute. repeat constructor.
Defined.

End SchedulerTheory.
(** ** The configuration *)

Module ConfigTheory.

Import Py Recon ReconTheory Config.

(** [merge_dicts] goes through the items of [override] in order. *)
Lemma merge_dicts_fold (base override : odict json) :
  merge_dicts base override = fold_left merge_item override base.
Proof.
  unfold merge_dicts. revert base.
  induction override as [|[key value] override IH]; intros base; [done|].
  simpl. rewrite <- IH. unfold merge_item. simpl.
  destruct value; try done.
Qed.

Lemma merge_item_get_eq (result : odict json) (key : string) (value : json) :
  od_get key (merge_item result (key, value))
  = Some match value, od_get key result with
         | JObj o, Some (JObj sub) => JObj (merge_dicts sub o)
         | _, _ => value
         end.
Proof.
  unfold merge_item. simpl.
  destruct value; try apply od_get_set_eq.
  destruct (od_get key result) as [[]|]; apply od_get_set_eq.
Qed.

Lemma merge_item_get_ne (result : odict json) (key k : string) (value : json) :
  key ≠ k → od_get k (merge_item result (key, value)) = od_get k result.
Proof.
  intros Hne. unfold merge_item. simpl.
  destruct value; try by apply od_get_set_ne.
  destruct (od_get key result) as [[]|]; by apply od_get_set_ne.
Qed.

Lemma merge_item_keys (result : odict json) (item : string * json) :
  od_keys (merge_item result item)
  = if bool_decide (item.1 ∈ od_keys result) then od_keys result
    else od_keys result ++ [item.1].
Proof.
  unfold merge_item. destruct item as [key value]. simpl.
  destruct value; try apply od_keys_set.
  destruct (od_get key result) as [[]|]; apply od_keys_set.
Qed.

Lemma fold_merge_lookup (base override : odict json) (k : string) :
  NoDup (od_keys override) →
  od_get k (fold_left merge_item override base)
  = match od_get k override with
    | None => od_get k base
    | Some (JObj o) =>
        match od_get k base with
        | Some (JObj b) => Some (JObj (merge_dicts b o))
        | _ => Some (JObj o)
        end
    | Some v => Some v
    end.
Proof.
  revert base.
  induction override as [|[key value] override IH]; intros base Hnd; [done|].
  assert ((key ∉ od_keys override) ∧ NoDup (od_keys override)) as [Hkey Hnd'].
  { by apply NoDup_cons in Hnd. }
  simpl. rewrite IH by done.
  case_bool_decide as E.
  - subst k. apply od_get_None in Hkey. rewrite Hkey, merge_item_get_eq.
    destruct value; try done. by destruct (od_get key base) as [[]|].
  - by rewrite merge_item_get_ne.
Qed.

(** What a key holds after the merge: the value of [override] where it
    has one, two dictionaries being merged in turn, and the value of
    [base] elsewhere. *)
Theorem merge_dicts_lookup (base override : odict json) (k : string) :
  NoDup (od_keys override) →
  od_get k (merge_dicts base override)
  = match od_get k override with
    | None => od_get k base
    | Some (JObj o) =>
        match od_get k base with
        | Some (JObj b) => Some (JObj (merge_dicts b o))
        | _ => Some (JObj o)
        end
    | Some v => Some v
    end.
Proof. intros Hnd. rewrite merge_dicts_fold. by apply fold_merge_lookup. Qed.

Lemma merge_dicts_lookup_witness :
  od_get "http" (merge_dicts DEFAULT_CONFIG
                   [("http", JObj [("retries", JInt 5)]); ("state", JNull)])
  = match od_get "http" [("http", JObj [("retries", JInt 5)]); ("state", JNull)] with
    | None => od_get "http" DEFAULT_CONFIG
    | Some (JObj o) =>
        match od_get "http" DEFAULT_CONFIG with
        | Some (JObj b) => Some (JObj (merge_dicts b o))
        | _ => Some (JObj o)
        end
    | Some v => Some v
    end.
Proof.
  apply (merge_dicts_lookup DEFAULT_CONFIG
           [("http", JObj [("retries", JInt 5)]); ("state", JNull)] "http").
  refine (bool_decide_unpack _ _). vm_compute. exact I.
Defined.

Lemma fold_merge_keys (base override : odict json) :
  od_keys (fold_left merge_item override base)
  = od_keys base
    ++ TaskQueue.first_occurrences (list_to_set (od_keys base)) (od_keys override).
Proof.
  revert base. induction override as [|[key value] override IH]; intros base; simpl.
  - by rewrite app_nil_r.
  - rewrite IH, merge_item_keys. simpl.
    rewrite (bool_decide_ext (key ∈ (list_to_set (od_keys base) : gset string))
               (key ∈ od_keys base)) by (by rewrite elem_of_list_to_set).
    case_bool_decide as E; [done|].
    rewrite <- app_assoc, list_to_set_app_L. simpl.
    by replace (list_to_set (od_keys base) ∪ ({[key]} ∪ ∅) : gset string)
      with ({[key]} ∪ list_to_set (od_keys base) : gset string) by set_solver.
Qed.

Lemma fold_merge_keys_NoDup (base override : odict json) :
  NoDup (od_keys base) → NoDup (od_keys (fold_left merge_item override base)).
Proof.
  intros Hnd. rewrite fold_merge_keys. apply NoDup_app. split; [done|].
  split; [|apply TaskQueueTheory.first_occurrences_NoDup].
  intros k Hk Hk'. apply TaskQueueTheory.first_occurrences_elem in Hk' as [_ Hk'].
  apply Hk'. by apply elem_of_list_to_set.
Qed.

(** The merge keeps every key of [base] at its place and puts the new
    keys of [override] behind them, in the order of [override]: no key
    of the defaults is ever lost or moved, and none comes twice. *)
Theorem merge_dicts_keys (base override : odict json) :
  od_keys (merge_dicts base override)
  = od_keys base
    ++ TaskQueue.first_occurrences (list_to_set (od_keys base)) (od_keys override)
  ∧ (NoDup (od_keys base) → NoDup (od_keys (merge_dicts base override))).
Proof.
  rewrite merge_dicts_fold. split; [apply fold_merge_keys|].
  apply fold_merge_keys_NoDup.
Qed.

(** *** Merging twice *)

Lemma od_set_same (d : odict json) (k : string) (v : json) :
  od_get k d = Some v → od_set k v d = d.
Proof.
  induction d as [|[k' v'] d IH]; simpl; [done|].
  case_bool_decide as E.
  - intros [= ->]. by subst.
  - intros H. by rewrite IH.
Qed.

Lemma fold_left_fixed {A B} (f : A → B → A) (l : list B) (a : A) :
  (∀ x, x ∈ l → f a x = a) → fold_left f l a = a.
Proof.
  induction l as [|x l IH]; intros H; simpl; [done|].
  rewrite (H x) by left. apply IH. intros y Hy. apply H. by right.
Qed.

Lemma weight_member (members : list (string * json)) (k : string) (v : json) :
  (k, v) ∈ members → (weight v < weight (JObj members))%nat.
Proof.
  simpl. induction members as [|[k' v'] members IH]; intros Hin.
  - by apply elem_of_nil in Hin.
  - apply elem_of_cons in Hin as [[= <- <-]|Hin]; simpl; [lia|].
    apply IH in Hin. lia.
Qed.

Lemma well_keyed_member (members : list (string * json)) (k : string) (v : json) :
  StateManager.well_keyed (JObj members) → (k, v) ∈ members →
  StateManager.well_keyed v ∧ od_get k members = Some v.
Proof.
  intros [Hnd Hall]%StateManagerTheory.well_keyed_obj Hin. split.
  - rewrite Forall_forall in Hall. by apply (Hall (k, v)).
  - by apply od_get_elem.
Qed.

(** A dictionary merged into itself is left as it is. *)
Lemma merge_dicts_self (n : nat) (d : odict json) :
  (weight (JObj d) ≤ n)%nat → StateManager.well_keyed (JObj d) → merge_dicts d d = d.
Proof.
  revert d. induction n as [|n IH]; intros d Hn Hwk; [simpl in Hn; lia|].
  rewrite merge_dicts_fold. apply fold_left_fixed. intros [k v] Hin.
  destruct (well_keyed_member d k v Hwk Hin) as [Hv Hget].
  pose proof (weight_member d k v Hin) as Hw.
  unfold merge_item. simpl. rewrite Hget.
  destruct v; try (by apply od_set_same).
  rewrite IH by (done || lia). by apply od_set_same.
Qed.

Lemma merge_dicts_twice (n : nat) (base override : odict json) :
  (weight (JObj override) ≤ n)%nat → StateManager.well_keyed (JObj override) →
  merge_dicts (merge_dicts base override) override = merge_dicts base override.
Proof.
  revert base override. induction n as [|n IH]; intros base override Hn Hwk;
    [simpl in Hn; lia|].
  rewrite (merge_dicts_fold (merge_dicts base override)).
  apply fold_left_fixed. intros [k v] Hin.
  destruct (well_keyed_member override k v Hwk Hin) as [Hv Hget].
  pose proof (weight_member override k v Hin) as Hw.
  assert (NoDup (od_keys override)) as Hnd.
  { by apply StateManagerTheory.well_keyed_obj in Hwk as [? _]. }
  pose proof (fold_merge_lookup base override k Hnd) as Hlook.
  rewrite <- merge_dicts_fold, Hget in Hlook. unfold merge_item. simpl.
  destruct v; try (by apply od_set_same).
  destruct (od_get k base) as [[]|]; rewrite Hlook;
    try (rewrite (merge_dicts_self n) by (done || lia); by apply od_set_same).
  rewrite IH by (done || lia). by apply od_set_same.
Qed.

(** Merging the same overrides a second time changes nothing, and a
    dictionary merged into itself stays as it is: applying the
    overrides of the command line to a configuration that already holds
    them is harmless. *)
Theorem merge_dicts_idempotent (base override : odict json) :
  StateManager.well_keyed (JObj override) →
  merge_dicts (merge_dicts base override) override = merge_dicts base override
  ∧ merge_dicts override override = override.
Proof.
  intros Hwk. split.
  - by apply (merge_dicts_twice (weight (JObj override))).
  - by apply (merge_dicts_self (weight (JObj override))).
Qed.

Lemma merge_dicts_idempotent_witness :
  let override := [("http", JObj [("retries", JInt 5); ("headers", JNull)]);
                   ("auth", JObj [("basic", JObj [("username", JStr "u")])])] in
  merge_dicts (merge_dicts DEFAULT_CONFIG override) override
  = merge_dicts DEFAULT_CONFIG override
  ∧ merge_dicts override override = override.
Proof.
  intros override. apply (merge_dicts_idempotent DEFAULT_CONFIG override).
  apply StateManagerTheory.well_keyed_obj. split.
  - refine (bool_decide_unpack _ _). vm_compute. exact I.
  - repeat constructor; simpl; set_solver.
Defined.

Section Files.

Variable path_exists : string → bool.
Variable safe_load : string → option json.

(** Whatever the configuration file holds, and whether or not there is
    one, [load_config] returns a dictionary that starts with the six
    sections of the defaults, in their order.  It is the defaults
    themselves when the file is missing, cannot be parsed, is empty, or
    holds something that is no mapping. *)
Theorem load_config_keeps_sections (config_path : option string) :
  let config := load_config path_exists safe_load config_path in
  let path := match config_path with
              | Some p => if bool_decide (p = "") then "config.yaml" else p
              | None => "config.yaml"
              end in
  ["modules"; "logging"; "concurrency"; "http"; "state"; "safety"] `prefix_of` od_keys config
  ∧ NoDup (od_keys config)
  ∧ (path_exists path = false ∨ safe_load path = None
     ∨ (∃ v, safe_load path = Some v ∧ (truthy v = false ∨ ∀ o, v ≠ JObj o)) →
     config = DEFAULT_CONFIG).
Proof.
  intros config path. subst config. unfold load_config. fold path.
  assert (NoDup (od_keys DEFAULT_CONFIG)) as Hnd.
  { refine (bool_decide_unpack _ _). vm_compute. exact I. }
  assert (∀ override,
    ["modules"; "logging"; "concurrency"; "http"; "state"; "safety"]
      `prefix_of` od_keys (merge_dicts DEFAULT_CONFIG override)
    ∧ NoDup (od_keys (merge_dicts DEFAULT_CONFIG override))) as Hmerge.
  { intros override. rewrite merge_dicts_fold.
    split; [|by apply fold_merge_keys_NoDup]. rewrite fold_merge_keys. by eexists. }
  split; [|split].
  - destruct (path_exists path); [|done].
    destruct (safe_load path) as [loaded|]; [|done].
    destruct (truthy loaded); [|apply Hmerge].
    destruct loaded; try done. apply Hmerge.
  - destruct (path_exists path); [|done].
    destruct (safe_load path) as [loaded|]; [|done].
    destruct (truthy loaded); [|apply Hmerge].
    destruct loaded; try done. apply Hmerge.
  - intros [->|[->|(v & -> & Hv)]]; [done|by destruct (path_exists path)|].
    destruct (path_exists path); [|done].
    destruct Hv as [->|Hv]; [done|].
    destruct (truthy v); [|done]. destruct v; try done. by destruct (Hv members).
Qed.

End Files.

End ConfigTheory.
(** ** Before the layers run *)

Module SetupTheory.

Import Py Recon ReconInv ReconTheory Config Setup.

(** *** The module chain *)

Lemma chain_unique_names sub bp ep web probe sec nuc lfi sqli redir shot :
  unique_names (chain sub bp ep web probe sec nuc lfi sqli redir shot).
Proof.
  unfold unique_names, enabled_names, enabled_units.
  eapply (sublist_NoDup _ (name <$> chain sub bp ep web probe sec nuc lfi sqli redir shot)).
  - refine (bool_decide_unpack _ _). vm_compute. exact I.
  - apply fmap_sublist, sublist_filter.
Qed.

Lemma chain_acyclic sub bp ep web probe sec nuc lfi sqli redir shot :
  acyclic (chain sub bp ep web probe sec nuc lfi sqli redir shot).
Proof.
  apply (ranked_acyclic _ chain_rank).
  intros a b (m & Hm & <- & Hb & _).
  apply list_elem_of_filter in Hm as [_ Hm]. unfold chain in Hm.
  repeat (apply elem_of_cons in Hm as [->|Hm]);
    try (by apply elem_of_nil in Hm);
    cbn [depends_on unit_] in Hb;
    try (by apply elem_of_nil in Hb);
    apply list_elem_of_singleton in Hb as ->; vm_compute; lia.
Qed.

Lemma build_module_chain_value (config : odict json) (modules : list BaseModule) :
  _build_module_chain config = Value modules →
  ∃ sub bp ep web probe sec nuc lfi sqli redir shot,
    modules = chain sub bp ep web probe sec nuc lfi sqli redir shot.
Proof.
  unfold _build_module_chain.
  repeat match goal with
         | |- context [section_enabled ?c ?k ?d] =>
             destruct (section_enabled c k d) as [?|?]; simpl; [|done]
         | |- context [get_of ?v ?k ?d] =>
             destruct (get_of v k d) as [?|?]; simpl; [|done]
         | |- context [as_path ?v] =>
             destruct (as_path v) as [?|?]; simpl; [|done]
         end.
  intros [= <-]. eauto 12.
Qed.

(** The warnings of the first loop are those of the modules that miss a
    dependency. *)
Lemma fold_deps_step_logs (A l : odict BaseModule) (dm : odict (list string))
    (lg : list string) (x : string) :
  x ∈ (fold_left (deps_step A) l (dm, lg)).2 →
  x ∈ lg ∨ ∃ item, item ∈ l
                   ∧ x = missing_deps_message item.1
                           (filter (λ d, d ∉ od_keys A) (depends_on item.2)).
Proof.
  revert dm lg. induction l as [|[n m] l IH]; intros dm lg; cbn [fold_left].
  - by left.
  - cbn [deps_step]. intros [Hx|(item & Hin & ->)]%IH.
    + destruct (filter (λ d : string, d ∉ od_keys A) (depends_on m)) eqn:E; [by left|].
      apply elem_of_app in Hx as [Hx|Hx%list_elem_of_singleton]; [by left|].
      right. exists (n, m). split; [left|]. simpl. by rewrite E.
    + right. exists item. split; [by right|done].
Qed.

Lemma resolve_logs (modules : list BaseModule) (x : string) :
  unique_names modules →
  x ∈ (build_deps_map (build_active modules)).2 →
  ∃ m, m ∈ enabled_units modules
       ∧ x = missing_deps_message (name m) (missing_deps modules m).
Proof.
  intros Hu Hx. unfold build_deps_map in Hx.
  apply fold_deps_step_logs in Hx as [Hx|([n m] & Hin & ->)];
    [by apply elem_of_nil in Hx|].
  rewrite active_unique_keys by done. simpl.
  rewrite build_active_unique in Hin by done.
  apply list_elem_of_fmap in Hin as (m' & [= -> ->] & Hm'). by exists m'.
Qed.

(** Whatever the configuration switches on or off, the chain of modules
    that [_build_module_chain] constructs is one that
    [_resolve_module_layers] puts into proper layers, never into the
    fallback order: the names are distinct and the dependencies have no
    cycle, so that every enabled module sits in exactly one layer, the
    enabled modules it depends on sit in earlier layers, and the only
    messages logged are the warnings about dependencies that are
    switched off. *)
Theorem module_chain_always_resolves (config : odict json) (modules : list BaseModule) :
  _build_module_chain config = Value modules →
  unique_names modules ∧ acyclic modules
  ∧ ∃ layers logs,
      _resolve_module_layers modules = Ok (layers, logs)
      ∧ (∀ x, x ∈ logs →
           ∃ m, m ∈ enabled_units modules
                ∧ x = missing_deps_message (name m) (missing_deps modules m))
      ∧ NoDup (concat layers)
      ∧ (∀ m, m ∈ concat layers ↔ m ∈ enabled_units modules)
      ∧ (∀ i la a b, layers !! i = Some la → a ∈ la →
           b ∈ enabled_units modules → name b ∈ depends_on a →
           ∃ j lb, (j < i)%nat ∧ layers !! j = Some lb ∧ b ∈ lb).
Proof.
  intros (sub & bp & ep & web & probe & sec & nuc & lfi & sqli & redir & shot & ->)
    %build_module_chain_value.
  pose proof (chain_unique_names sub bp ep web probe sec nuc lfi sqli redir shot) as Hu.
  pose proof (chain_acyclic sub bp ep web probe sec nuc lfi sqli redir shot) as Ha.
  split; [done|]. split; [done|].
  destruct (SchedulerTheory.acyclic_layers _ Hu Ha) as (layers & Hres & Hrest).
  exists layers, (build_deps_map (build_active
                    (chain sub bp ep web probe sec nuc lfi sqli redir shot))).2.
  split; [done|]. split; [|done].
  intros x Hx. by apply resolve_logs.
Qed.

Lemma module_chain_always_resolves_witness :
  let config := merge_dicts DEFAULT_CONFIG
                  [("modules", JObj [("web_services", JObj [("enabled", JInt 0)])])] in
  let modules := chain true true true false true true true true true true false in
  unique_names modules ∧ acyclic modules
  ∧ ∃ layers logs,
      _resolve_module_layers modules = Ok (layers, logs)
      ∧ (∀ x, x ∈ logs →
           ∃ m, m ∈ enabled_units modules
                ∧ x = missing_deps_message (name m) (missing_deps modules m))
      ∧ NoDup (concat layers)
      ∧ (∀ m, m ∈ concat layers ↔ m ∈ enabled_units modules)
      ∧ (∀ i la a b, layers !! i = Some la → a ∈ la →
           b ∈ enabled_units modules → name b ∈ depends_on a →
           ∃ j lb, (j < i)%nat ∧ layers !! j = Some lb ∧ b ∈ lb).
Proof.
  intros config modules.
  apply (module_chain_always_resolves config modules).
  vm_compute. reflexivity.
Defined.

(** *** The guard against local targets *)

(** [_guard_internal_target] lets no scan of a local target through
    unless the configuration allows it: with a [safety] section that is
    a mapping, or none, and [allow_internal] absent or false, a scope
    whose address starts with [127.] or [169.254.], or whose host is
    [localhost] or [127.0.0.1] in any letter case, ends the call with
    [ValueError], the blocking message being logged first; any other
    scope passes without a message.  With [allow_internal] set nothing
    is ever raised. *)
Theorem guard_blocks_local_targets (scope : Models.ScopeInfo) (config : odict json)
    (section : odict json) :
  get "safety" (JObj []) config = JObj section →
  let allow := truthy (get "allow_internal" (JBool false) section) in
  let local := startswith (Models.ip scope) "127." = true
               ∨ startswith (Models.ip scope) "169.254." = true
               ∨ lower (Models.host scope) = "localhost"
               ∨ lower (Models.host scope) = "127.0.0.1" in
  (allow = false → local →
     _guard_internal_target scope config
     = (Raises (Exn "ValueError" blocked_message), [blocked_message]))
  ∧ (allow = true → local →
       _guard_internal_target scope config = (Value (), [proceeding_message]))
  ∧ (¬ local → _guard_internal_target scope config = (Value (), [])).
Proof.
  intros Hsec allow local. unfold _guard_internal_target. rewrite Hsec. simpl.
  fold allow.
  assert (blocked scope = true ↔ local) as Hb.
  { unfold blocked, local. rewrite !orb_true_iff, bool_decide_eq_true.
    rewrite !elem_of_cons, elem_of_nil. tauto. }
  split; [|split].
  - intros -> Hl. apply Hb in Hl. by rewrite Hl.
  - intros -> Hl. apply Hb in Hl. by rewrite Hl.
  - intros Hl. destruct (blocked scope); [|done]. exfalso. by apply Hl, Hb.
Qed.

Lemma guard_blocks_local_targets_witness :
  let scope := {| Models.host := "LocalHost"; Models.ip := "127.0.0.1";
                  Models.url := "http://LocalHost"; Models.mode := "passive" |} in
  let allow := truthy (get "allow_internal" (JBool false) [("allow_internal", JBool false)]) in
  let local := startswith (Models.ip scope) "127." = true
               ∨ startswith (Models.ip scope) "169.254." = true
               ∨ lower (Models.host scope) = "localhost"
               ∨ lower (Models.host scope) = "127.0.0.1" in
  (allow = false → local →
     _guard_internal_target scope DEFAULT_CONFIG
     = (Raises (Exn "ValueError" blocked_message), [blocked_message]))
  ∧ (allow = true → local →
       _guard_internal_target scope DEFAULT_CONFIG = (Value (), [proceeding_message]))
  ∧ (¬ local → _guard_internal_target scope DEFAULT_CONFIG = (Value (), [])).
Proof.
  intros scope.
  apply (guard_blocks_local_targets scope DEFAULT_CONFIG [("allow_internal", JBool false)]).
  reflexivity.
Defined.

End SetupTheory.
(** ** The probe *)

Module ProbeTheory.

Import Py DecisionEngine DecisionEngineTheory Config Probe.

Lemma sorted_elem_of (l : list string) (x : string) : x ∈ sorted l ↔ x ∈ l.
Proof. unfold sorted. by rewrite merge_sort_Permutation. Qed.

Lemma elem_of_add_if (c : bool) (x : string) (techs : list string) (y : string) :
  y ∈ add_if c x techs ↔ y ∈ techs ∨ (c = true ∧ y = x).
Proof.
  unfold add_if. destruct c; simpl.
  - case_bool_decide as E; simpl.
    + naive_solver.
    + rewrite elem_of_app, list_elem_of_singleton. naive_solver.
  - naive_solver.
Qed.

Lemma keeps_order_sublist (l k : list string) :
  keeps_order l k = true → l `sublist_of` k.
Proof.
  revert l. induction k as [|y k IH]; intros l; simpl.
  - intros ->%bool_decide_eq_true. constructor.
  - destruct l as [|x l]; [intros _; apply sublist_nil_l|].
    case_bool_decide as E.
    + subst. intros H. by apply sublist_skip, IH.
    + intros H. by apply sublist_cons, IH.
Qed.

Lemma detect_technologies_order (b1 b2 b3 b4 b5 b6 b7 b8 b9 : bool) :
  sorted (add_if b9 "Cloudflare" (add_if b8 "Apache" (add_if b7 "Nginx"
    (add_if b6 "Laravel" (add_if b5 "Express" (add_if b4 "Joomla"
      (add_if b3 "Drupal" (add_if b2 "Jenkins" (add_if b1 "WordPress" [])))))))))
  `sublist_of` known_technologies.
Proof.
  apply keeps_order_sublist.
  destruct b1, b2, b3, b4, b5, b6, b7, b8, b9; vm_compute; reflexivity.
Qed.

Lemma detect_technologies_elem (body : string) (headers : string → option string)
    (t : string) :
  let body_l := lower body in
  let server_hdr := lower (default "" (headers "Server")) in
  let powered_by := lower (default "" (headers "X-Powered-By")) in
  t ∈ _detect_technologies body headers ↔
    (contains "wp-content" body_l || contains "wp-json" body_l = true ∧ t = "WordPress")
    ∨ (has_header headers "X-Jenkins" = true ∧ t = "Jenkins")
    ∨ (contains "drupal.settings" body_l || contains "drupal" powered_by = true
       ∧ t = "Drupal")
    ∨ (contains "joomla" body_l = true ∧ t = "Joomla")
    ∨ (contains "express" powered_by = true ∧ t = "Express")
    ∨ (contains "laravel" body_l || contains "laravel" powered_by = true ∧ t = "Laravel")
    ∨ (contains "nginx" server_hdr = true ∧ t = "Nginx")
    ∨ (contains "apache" server_hdr = true ∧ t = "Apache")
    ∨ (contains "cloudflare" server_hdr = true ∧ t = "Cloudflare").
Proof.
  intros body_l server_hdr powered_by. unfold _detect_technologies.
  rewrite sorted_elem_of, !elem_of_add_if, elem_of_nil. tauto.
Qed.

(** [_detect_technologies] reports known names only, in alphabetical
    order and none of them twice, and it reports a name exactly when its
    marker is found: the markers of the body and of the [Server] and
    [X-Powered-By] headers in any letter case, Jenkins by a non-empty
    [X-Jenkins] header. *)
Theorem detect_technologies_spec (body : string) (headers : string → option string) :
  let techs := _detect_technologies body headers in
  let body_l := lower body in
  let server_hdr := lower (default "" (headers "Server")) in
  let powered_by := lower (default "" (headers "X-Powered-By")) in
  techs `sublist_of` known_technologies
  ∧ ("WordPress" ∈ techs ↔
       contains "wp-content" body_l = true ∨ contains "wp-json" body_l = true)
  ∧ ("Jenkins" ∈ techs ↔ has_header headers "X-Jenkins" = true)
  ∧ ("Drupal" ∈ techs ↔
       contains "drupal.settings" body_l = true ∨ contains "drupal" powered_by = true)
  ∧ ("Joomla" ∈ techs ↔ contains "joomla" body_l = true)
  ∧ ("Express" ∈ techs ↔ contains "express" powered_by = true)
  ∧ ("Laravel" ∈ techs ↔
       contains "laravel" body_l = true ∨ contains "laravel" powered_by = true)
  ∧ ("Nginx" ∈ techs ↔ contains "nginx" server_hdr = true)
  ∧ ("Apache" ∈ techs ↔ contains "apache" server_hdr = true)
  ∧ ("Cloudflare" ∈ techs ↔ contains "cloudflare" server_hdr = true).
Proof.
  intros techs body_l server_hdr powered_by. subst techs.
  split; [apply detect_technologies_order|].
  rewrite !detect_technologies_elem. fold body_l server_hdr powered_by.
  rewrite !orb_true_iff.
  repeat split; intros H;
    lazymatch type of H with
    | (_ ∧ _) ∨ _ =>
        repeat (destruct H as [H|H]); destruct H as [H E]; try discriminate E; tauto
    | _ => intuition auto
    end.
Qed.

Section Probe.

Variable int : string → option Z.
Variable _extract_title : string → option string.
Variable fetch : string → Fetched.

(** The follow-up tasks of a target, read off the answer to its probe.
    A probe that times out or fails in transport yields no task at all.
    A response yields the bypass task exactly for status 403, the
    fuzzing task exactly for status 200, the content analysis for
    status 200 with a positive length (that of the [Content-Length]
    header when [int] reads it, of the body otherwise), the Jenkins scan
    exactly for a non-empty [X-Jenkins] header, and the WordPress scan
    exactly when the body names [wp-content] or [wp-json] in any letter
    case. *)
Theorem tasks_follow_the_response (url : string) :
  (fetch url = Timeout ∨ fetch url = HttpError →
     ∃ r, probe_url int _extract_title fetch url = Value r ∧ evaluate r = [])
  ∧ (∀ resp, fetch url = Got resp →
       ∃ r, probe_url int _extract_title fetch url = Value r
            ∧ ∀ t, t ∈ evaluate r ↔
                (status resp = 403 ∧ t = task "403_BYPASS")
                ∨ (has_header (headers resp) "X-Jenkins" = true
                   ∧ t = {| task_type := "NUCLEI_SCAN"; args := Some ["jenkins-cves"] |})
                ∨ ((contains "wp-content" (lower (text resp)) = true
                    ∨ contains "wp-json" (lower (text resp)) = true)
                   ∧ t = task "WP_SCAN")
                ∨ (status resp = 200
                   ∧ 0 < default 0 (_extract_content_length int resp)
                   ∧ t = task "JS_ANALYSIS")
                ∨ (status resp = 200 ∧ t = task "FUZZING")).
Proof.
  split.
  - intros [H|H]; unfold probe_url; rewrite H; eexists; (split; [done|]); done.
  - intros resp H. unfold probe_url. rewrite H. eexists. split; [done|].
    intros t. rewrite evaluate_spec. simpl.
    rewrite !detect_technologies_elem, !orb_true_iff.
    assert (∀ A B : Prop, (A ∧ "Jenkins" = "Jenkins") ∨ B ↔ A ∨ B) as E1 by tauto.
    split.
    + intros [[[= ->] ->]|[[Hj ->]|[[Hw ->]|[(Hs & Hl & ->)|[Hs ->]]]]].
      * by left.
      * right; left. split; [|done].
        repeat (destruct Hj as [Hj|Hj]); destruct Hj as [Hj E]; try discriminate E.
        exact Hj.
      * right; right; left. split; [|done].
        repeat (destruct Hw as [Hw|Hw]); destruct Hw as [Hw E]; try discriminate E.
        exact Hw.
      * right; right; right; left. by injection Hs as ->.
      * repeat right. by injection Hs as ->.
    + intros [[-> ->]|[[Hj ->]|[[Hw ->]|[(-> & Hl & ->)|[-> ->]]]]].
      * by left.
      * right; left. split; [|done]. tauto.
      * right; right; left. split; [|done]. tauto.
      * right; right; right; left. done.
      * by repeat right.
Qed.

End Probe.

End ProbeTheory.
(** ** Two tasks of the queue *)

Module TaskModulesTheory.

Import Py Config TaskQueue TaskModules.

(** *** The bypass task *)

Section Bypass.

Variable repr : string → string.
Variable client_get : string → string * string → Answer.

Lemma bypass_loop_spec (url : string) (tricks : list (string * string)) (ctx : TaskContext) :
  let ctx' := bypass_loop repr client_get url tricks ctx in
  findings ctx'
  = findings ctx ++ match first_success client_get url tricks with
                    | Some h => [success_message repr h]
                    | None => []
                    end
  ∧ new_endpoints ctx' = new_endpoints ctx
  ∧ ∃ lines, logged ctx' = logged ctx ++ lines
             ∧ (length lines ≤ length tricks + 1)%nat
             ∧ (first_success client_get url tricks = None → length lines = length tricks).
Proof.
  revert ctx. induction tricks as [|h rest IH]; intros ctx; simpl.
  - rewrite app_nil_r. split; [done|]. split; [done|]. exists [].
    rewrite app_nil_r. simpl. split; [done|]. split; [lia|done].
  - destruct (client_get url h) as [text|code].
    + destruct (IH (log ctx ("[Bypass] " +:+ url +:+ " attempt " +:+ show_headers repr h
                              +:+ " failed: " +:+ text))) as (Hf & He & lines & Hl & Hn & Hnone).
      split; [done|]. split; [done|]. eexists (_ :: lines).
      split; [by rewrite Hl; simpl; rewrite <- app_assoc|]. simpl. split; [lia|].
      intros H. by rewrite Hnone.
    + destruct (code =? 200) eqn:E.
      * apply Z.eqb_eq in E. subst code. simpl. split; [done|]. split; [done|].
        eexists [_; _]. split; [by rewrite <- app_assoc|]. simpl. split; [lia|done].
      * destruct (IH (log ctx ("[Bypass] " +:+ url +:+ " " +:+ show_headers repr h
                                +:+ " -> " +:+ str_of_int code)))
          as (Hf & He & lines & Hl & Hn & Hnone).
        apply Z.eqb_neq in E.
        assert (match code with
                | 200 => Some h
                | _ => first_success client_get url rest
                end = first_success client_get url rest) as ->.
        { destruct code as [|p|p]; try done.
          repeat (destruct p as [p|p|]; try done). }
        split; [done|]. split; [done|]. eexists (_ :: lines).
        split; [by rewrite Hl; simpl; rewrite <- app_assoc|]. simpl. split; [lia|].
        intros H. by rewrite Hnone.
Qed.

(** The bypass task tries its seven header tricks in order and stops at
    the first one that is answered with status 200: that trick, and no
    other, is recorded as a finding, whatever the tricks after it would
    have given.  Without such a trick it records nothing.  It never
    reports an endpoint, keeps what was logged and found before, and
    logs one line per request, one more on success. *)
Theorem bypass_reports_first_success (url : string) (ctx : TaskContext) :
  url ≠ "" →
  let ctx' := bypass_run repr client_get url ctx in
  findings ctx'
  = findings ctx ++ match first_success client_get url (headers_list url) with
                    | Some h => [success_message repr h]
                    | None => []
                    end
  ∧ new_endpoints ctx' = new_endpoints ctx
  ∧ ∃ lines, logged ctx' = logged ctx ++ lines
             ∧ (length lines ≤ 8)%nat
             ∧ (first_success client_get url (headers_list url) = None → length lines = 7%nat).
Proof.
  intros Hurl ctx'. subst ctx'. unfold bypass_run.
  rewrite bool_decide_eq_false_2 by done.
  apply (bypass_loop_spec url (headers_list url) ctx).
Qed.

End Bypass.

Lemma bypass_reports_first_success_witness :
  let repr := λ s, "'" +:+ s +:+ "'" in
  let client_get := λ (url : string) (h : string * string),
                      if bool_decide (h.1 = "X-Rewrite-URL") then Status 200
                      else if bool_decide (h.1 = "X-Original-URL") then HttpFailure "reset"
                      else Status 403 in
  let ctx' := bypass_run repr client_get "http://a.test/admin" empty_context in
  findings ctx'
  = findings empty_context
    ++ match first_success client_get "http://a.test/admin"
               (headers_list "http://a.test/admin") with
       | Some h => [success_message repr h]
       | None => []
       end
  ∧ new_endpoints ctx' = new_endpoints empty_context
  ∧ ∃ lines, logged ctx' = logged empty_context ++ lines
             ∧ (length lines ≤ 8)%nat
             ∧ (first_success client_get "http://a.test/admin"
                  (headers_list "http://a.test/admin") = None → length lines = 7%nat).
Proof.
  intros repr client_get.
  apply (bypass_reports_first_success repr client_get "http://a.test/admin" empty_context).
  discriminate.
Defined.

(** *** The fuzzing task *)

Lemma lstrip_by_head (p : ascii → bool) (s : string) :
  match lstrip_by p s with
  | EmptyString => True
  | String a _ => p a = false
  end.
Proof.
  induction s as [|a s IH]; simpl; [done|]. destruct (p a) eqn:E; [done|]. by simpl.
Qed.

Lemma strip_head (s : string) :
  match strip s with
  | EmptyString => True
  | String a _ => is_space a = false
  end.
Proof.
  unfold strip. pose proof (lstrip_by_head is_space s) as H.
  destruct (lstrip_by is_space s) as [|a t]; simpl; [done|].
  destruct (rstrip_by is_space t); [|done]. by rewrite H.
Qed.

(** A line that is not blank has a first token. *)
Lemma first_token_strip (line : string) :
  strip line ≠ "" → ∃ token, first_token (strip line) = Some token ∧ token ≠ "".
Proof.
  intros Hne. pose proof (strip_head line) as H. unfold first_token.
  destruct (strip line) as [|a t]; [done|]. simpl. rewrite H.
  eexists. split; [done|]. simpl. by rewrite H.
Qed.

Section Fuzzer.

Variable which : string → bool.
Variable tmp_name : string.
Variable popen : list string → Process.

(** On a line that is not blank [_extract_endpoint] does not raise, and
    what it returns is the hit of the line, which is not empty. *)
Lemma extract_endpoint_strip (url line : string) :
  strip line ≠ "" →
  _extract_endpoint url (strip line) = Value (hit_of_line url line)
  ∧ hit_of_line url line ≠ Some "".
Proof.
  intros Hne. destruct (first_token_strip line Hne) as (token & Ht & Htok).
  unfold _extract_endpoint, hit_of_line. rewrite Ht.
  destruct (startswith token "http"); [split; [done|congruence]|].
  destruct (startswith token "::"); [done|].
  case_bool_decide; [done|]. split; [done|]. intros [= Hu]. by destruct url.
Qed.

(** A blank line has no hit. *)
Lemma hit_of_blank_line (url line : string) : strip line = "" → hit_of_line url line = None.
Proof. intros H. unfold hit_of_line. by rewrite H. Qed.

Lemma read_lines_spec (url : string) (lines : list string) (ctx : TaskContext)
    (discovered : list string) :
  ∃ ctx',
    read_lines url lines ctx discovered = Value (ctx', discovered ++ hits url lines)
    ∧ findings ctx' = findings ctx ∧ new_endpoints ctx' = new_endpoints ctx
    ∧ logged ctx `prefix_of` logged ctx'.
Proof.
  revert ctx discovered. induction lines as [|line lines IH]; intros ctx discovered; simpl.
  - exists ctx. by rewrite app_nil_r.
  - unfold hits. simpl. fold (hits url lines). case_bool_decide as E.
    + rewrite (hit_of_blank_line url line E). apply IH.
    + destruct (extract_endpoint_strip url line E) as [-> Hne]. simpl.
      set (ctx1 := log ctx ("[Fuzzer] " +:+ strip line)).
      destruct (hit_of_line url line) as [h|].
      * rewrite bool_decide_eq_false_2 by congruence.
        destruct (IH ctx1 (discovered ++ [h])) as (ctx' & Hr & Hf & He & Hl).
        exists ctx'. rewrite Hr, <- app_assoc. split; [done|]. split; [done|].
        split; [done|]. etrans; [|done]. by apply prefix_app_r.
      * destruct (IH ctx1 discovered) as (ctx' & Hr & Hf & He & Hl).
        exists ctx'. split; [done|]. split; [done|].
        split; [done|]. etrans; [|done]. by apply prefix_app_r.
Qed.

(** The shape of a hit. *)
Lemma hits_shape (url : string) (lines : list string) (h : string) :
  h ∈ hits url lines →
  ∃ line token, line ∈ lines ∧ first_token (strip line) = Some token
    ∧ ((startswith token "http" = true ∧ h = token)
       ∨ (startswith token "http" = false ∧ startswith token "::" = false
          ∧ lstrip_slash token ≠ "" ∧ h = url +:+ "/" +:+ lstrip_slash token)).
Proof.
  intros (line & Hline & Hh)%list_elem_of_omap. exists line.
  unfold hit_of_line in Hh. destruct (first_token (strip line)) as [token|]; [|done].
  exists token. split; [done|]. split; [done|].
  destruct (startswith token "http"); [left; by injection Hh|].
  destruct (startswith token "::"); [done|].
  case_bool_decide; [done|]. right. by injection Hh.
Qed.

Lemma fold_add_endpoint (discovered : list string) (ctx : TaskContext) :
  let ctx' := fold_left add_endpoint discovered ctx in
  logged ctx' = logged ctx ∧ findings ctx' = findings ctx
  ∧ new_endpoints ctx'
    = new_endpoints ctx
      ++ first_occurrences (list_to_set (new_endpoints ctx)) discovered.
Proof.
  revert ctx. induction discovered as [|h discovered IH]; intros ctx; simpl.
  - by rewrite app_nil_r.
  - destruct (IH (add_endpoint ctx h)) as (Hl & Hf & He). unfold add_endpoint in *.
    rewrite (bool_decide_ext (h ∈ (list_to_set (new_endpoints ctx) : gset string))
               (h ∈ new_endpoints ctx)) by (by rewrite elem_of_list_to_set).
    case_bool_decide as E; simpl in *; [done|].
    split; [done|]. split; [done|]. rewrite He, <- app_assoc, list_to_set_app_L. simpl.
    by replace (list_to_set (new_endpoints ctx) ∪ ({[h]} ∪ ∅) : gset string)
      with ({[h]} ∪ list_to_set (new_endpoints ctx) : gset string) by set_solver.
Qed.

Lemma fold_add_finding (discovered : list string) (ctx : TaskContext) :
  let ctx' := fold_left (λ c hit, add_finding c ("[Fuzzer] Found endpoint " +:+ hit))
                discovered ctx in
  logged ctx' = logged ctx ∧ new_endpoints ctx' = new_endpoints ctx
  ∧ findings ctx'
    = findings ctx ++ ((λ hit, "[Fuzzer] Found endpoint " +:+ hit) <$> discovered).
Proof.
  revert ctx. induction discovered as [|h discovered IH]; intros ctx; simpl.
  - by rewrite app_nil_r.
  - destruct (IH (add_finding ctx ("[Fuzzer] Found endpoint " +:+ h))) as (Hl & He & Hf).
    split; [done|]. split; [done|]. rewrite Hf. simpl. by rewrite <- app_assoc.
Qed.

Lemma report_spec (discovered : list string) (ctx : TaskContext) :
  logged (report discovered ctx) = logged ctx
  ∧ findings (report discovered ctx)
    = findings ctx ++ ((λ hit, "[Fuzzer] Found endpoint " +:+ hit) <$> discovered)
  ∧ new_endpoints (report discovered ctx)
    = new_endpoints ctx
      ++ first_occurrences (list_to_set (new_endpoints ctx)) discovered.
Proof.
  unfold report.
  destruct (fold_add_endpoint discovered ctx) as (Hl & Hf & He).
  destruct (fold_add_finding discovered (fold_left add_endpoint discovered ctx))
    as (Hl' & He' & Hf').
  split; [congruence|]. split; [congruence|]. congruence.
Qed.

(** The fuzzing task never raises [IndexError], whatever the tool
    prints: the subscript [line.split()[0]] is only reached for lines
    that are not blank.  Its hits are those of the lines printed, line
    by line: the first token of a line as it stands when it starts with
    [http], and otherwise (unless it starts with two colons or consists
    of slashes) the target without its trailing slashes, a slash, and
    the token without its leading slashes.  Each hit is recorded as a
    finding, in the order of the lines and with repetitions, and is
    added to the reported endpoints unless it is there already, so that
    a list of endpoints without repetitions stays one.  What was
    logged, found and reported before is kept. *)
Theorem fuzzer_run_reports_hits (target : string) (ctx : TaskContext) :
  let found := hits (rstrip_slash target) (printed which tmp_name popen target) in
  ∃ ctx',
    fuzzer_run which tmp_name popen target ctx = Value ctx'
    ∧ logged ctx `prefix_of` logged ctx'
    ∧ findings ctx'
      = findings ctx ++ ((λ hit, "[Fuzzer] Found endpoint " +:+ hit) <$> found)
    ∧ new_endpoints ctx'
      = new_endpoints ctx ++ first_occurrences (list_to_set (new_endpoints ctx)) found
    ∧ (NoDup (new_endpoints ctx) → NoDup (new_endpoints ctx'))
    ∧ (∀ h, h ∈ found →
         ∃ line token,
           line ∈ printed which tmp_name popen target
           ∧ first_token (strip line) = Some token
           ∧ ((startswith token "http" = true ∧ h = token)
              ∨ (startswith token "http" = false ∧ startswith token "::" = false
                 ∧ lstrip_slash token ≠ ""
                 ∧ h = rstrip_slash target +:+ "/" +:+ lstrip_slash token))).
Proof.
  intros found. subst found.
  remember (printed which tmp_name popen target) as out eqn:Hout.
  set (found := hits (rstrip_slash target) out).
  assert (∀ ctx' : TaskContext,
    new_endpoints ctx'
    = new_endpoints ctx ++ first_occurrences (list_to_set (new_endpoints ctx)) found →
    NoDup (new_endpoints ctx) → NoDup (new_endpoints ctx')) as Hkeep.
  { intros ctx' -> Hnd. apply NoDup_app. split; [done|].
    split; [|apply TaskQueueTheory.first_occurrences_NoDup].
    intros h Hh Hh'. apply TaskQueueTheory.first_occurrences_elem in Hh' as [_ Hh'].
    apply Hh'. by apply elem_of_list_to_set. }
  assert (∀ c : TaskContext,
    out = [] → findings c = findings ctx → new_endpoints c = new_endpoints ctx →
    logged ctx `prefix_of` logged c →
    ∃ ctx', Value c = Value ctx'
      ∧ logged ctx `prefix_of` logged ctx'
      ∧ findings ctx'
        = findings ctx ++ ((λ hit, "[Fuzzer] Found endpoint " +:+ hit) <$> found)
      ∧ new_endpoints ctx'
        = new_endpoints ctx ++ first_occurrences (list_to_set (new_endpoints ctx)) found
      ∧ (NoDup (new_endpoints ctx) → NoDup (new_endpoints ctx'))
      ∧ (∀ h, h ∈ found →
           ∃ line token,
             line ∈ out
             ∧ first_token (strip line) = Some token
             ∧ ((startswith token "http" = true ∧ h = token)
                ∨ (startswith token "http" = false ∧ startswith token "::" = false
                   ∧ lstrip_slash token ≠ ""
                   ∧ h = rstrip_slash target +:+ "/" +:+ lstrip_slash token)))) as Hnone.
  { intros c Hempty Hf He Hl. exists c. subst found. rewrite Hempty. simpl.
    rewrite !app_nil_r.
    split; [done|]. split; [done|]. split; [done|]. split; [done|].
    split; [by rewrite He|]. intros h Hh. by apply elem_of_nil in Hh. }
  unfold printed in Hout. unfold fuzzer_run.
  destruct (bool_decide (rstrip_slash target = "")); [by apply Hnone|].
  destruct (_build_command which) as [tool [cmd|]].
  2: { apply Hnone; try done. by apply prefix_app_r. }
  set (cmd' := (λ c, replace "{URL}" (rstrip_slash target)
                       (replace "{WORDLIST}" tmp_name c)) <$> cmd) in *.
  set (ctx1 := log ctx ("[Fuzzer] Running " +:+ tool +:+ ": " +:+ join " " cmd')).
  assert (logged ctx `prefix_of` logged ctx1) as Hp1 by (by apply prefix_app_r).
  destruct (popen cmd') as [text|lines in_time].
  { apply Hnone; try done. etrans; [done|]. by apply prefix_app_r. }
  subst out.
  destruct (read_lines_spec (rstrip_slash target) lines ctx1 [])
    as (ctx2 & -> & Hf & He & Hl).
  simpl. fold found.
  set (ctx3 := if in_time then ctx2
               else log ctx2 ("[Fuzzer] " +:+ tool +:+ " timed out and was terminated.")).
  assert (findings ctx3 = findings ctx ∧ new_endpoints ctx3 = new_endpoints ctx
          ∧ logged ctx `prefix_of` logged ctx3) as (Hf3 & He3 & Hl3).
  { subst ctx3. destruct in_time; simpl; (split; [done|split; [done|]]).
    - by etrans.
    - etrans; [done|]. etrans; [done|]. by apply prefix_app_r. }
  destruct (report_spec found ctx3) as (Hrl & Hrf & Hre).
  exists (report found ctx3).
  split; [done|]. split; [by rewrite Hrl|]. split; [by rewrite Hrf, Hf3|].
  split; [by rewrite Hre, He3|]. split; [apply Hkeep; by rewrite Hre, He3|].
  intros h Hh. by apply hits_shape.
Qed.

End Fuzzer.

End TaskModulesTheory.

(** ** Rounding to the nearest [float] *)

Module PyFloatTheory.

Import PyFloat.

Local Open Scope Q_scope.

(** *** Powers of two *)

Lemma pow2_pos (e : Z) : 0 < pow2 e.
Proof. by apply Qpower_0_lt. Qed.

Lemma pow2_add (a b : Z) : pow2 (a + b) == pow2 a * pow2 b.
Proof. apply Qpower_plus. by intros H. Qed.

Lemma pow2_le (a b : Z) : (a ≤ b)%Z → pow2 a <= pow2 b.
Proof. intros H. by apply Qpower_le_compat_l. Qed.

Lemma pow2_lt (a b : Z) : (a < b)%Z → pow2 a < pow2 b.
Proof. intros H. by apply Qpower_lt_compat_l. Qed.

Lemma pow2_lt_inv (a b : Z) : pow2 a < pow2 b → (a < b)%Z.
Proof. intros H. by apply (Qpower_lt_compat_l_inv 2). Qed.

Lemma pow2_Z (n : Z) : (0 ≤ n)%Z → pow2 n == inject_Z (2 ^ n).
Proof. intros H. unfold pow2. by rewrite Zpower_Qpower. Qed.

Lemma pow2_sub (a b : Z) : pow2 (a - b) == pow2 a / pow2 b.
Proof.
  unfold Z.sub. rewrite pow2_add. unfold pow2. by rewrite Qpower_opp.
Qed.

Lemma pow2_div_cancel (x : Q) (e : Z) : x / pow2 e * pow2 e == x.
Proof. pose proof (pow2_pos e). field. lra. Qed.

(** *** The binary exponent *)

Lemma Qmake_lt_frac (n : Z) (d : positive) (u v : Z) :
  (0 < v)%Z → (n * v < u * Z.pos d)%Z → n # d < inject_Z u / inject_Z v.
Proof.
  intros Hv H. apply Qlt_shift_div_l; [unfold Qlt; simpl; lia|].
  unfold Qlt. simpl. lia.
Qed.

Lemma Qmake_le_frac (n : Z) (d : positive) (u v : Z) :
  (0 < v)%Z → (u * Z.pos d ≤ n * v)%Z → inject_Z u / inject_Z v <= n # d.
Proof.
  intros Hv H. apply Qle_shift_div_r; [unfold Qlt; simpl; lia|].
  unfold Qle. simpl. lia.
Qed.

Lemma ilog2_spec (x : Q) : 0 < x → pow2 (ilog2 x) <= x ∧ x < pow2 (ilog2 x + 1).
Proof.
  intros Hx. destruct x as [n d]. unfold ilog2. cbn [Qnum Qden].
  assert (0 < n)%Z as Hn by (unfold Qlt in Hx; simpl in Hx; lia).
  set (a := Z.log2 n). set (b := Z.log2 (Z.pos d)).
  destruct (Z.log2_spec n Hn) as [Ha1 Ha2]. fold a in Ha1, Ha2.
  destruct (Z.log2_spec (Z.pos d)) as [Hb1 Hb2]; [done|]. fold b in Hb1, Hb2.
  assert (0 ≤ a)%Z as Ha0 by apply Z.log2_nonneg.
  assert (0 ≤ b)%Z as Hb0 by apply Z.log2_nonneg.
  assert (0 < 2 ^ a)%Z by (by apply Z.pow_pos_nonneg).
  assert (0 < 2 ^ b)%Z by (by apply Z.pow_pos_nonneg).
  rewrite Z.pow_succ_r in Ha2, Hb2 by done.
  assert (n # d < pow2 (a - b + 1)) as Hup.
  { replace (a - b + 1)%Z with (a + 1 - b)%Z by lia.
    rewrite pow2_sub, !pow2_Z by lia. apply Qmake_lt_frac; [done|].
    rewrite Z.pow_add_r by lia. nia. }
  assert (pow2 (a - b - 1) <= n # d) as Hlow.
  { replace (a - b - 1)%Z with (a - (b + 1))%Z by lia.
    rewrite pow2_sub, !pow2_Z by lia. apply Qmake_le_frac; [lia|].
    rewrite Z.pow_add_r by lia. nia. }
  destruct (Qle_bool (pow2 (a - b)) (n # d)) eqn:E.
  - apply Qle_bool_iff in E. by split.
  - split; [done|]. replace (a - b - 1 + 1)%Z with (a - b)%Z by lia.
    apply Qnot_le_lt. intros Hle. apply Qle_bool_iff in Hle. congruence.
Qed.

Lemma ilog2_unique (x : Q) (k : Z) : pow2 k <= x → x < pow2 (k + 1) → ilog2 x = k.
Proof.
  intros H1 H2.
  assert (0 < x) as Hx by (pose proof (pow2_pos k); lra).
  destruct (ilog2_spec x Hx) as [H3 H4].
  assert (ilog2 x < k + 1)%Z by (apply pow2_lt_inv; lra).
  assert (k < ilog2 x + 1)%Z by (apply pow2_lt_inv; lra).
  lia.
Qed.

Lemma ilog2_comp (x y : Q) : 0 < x → x == y → ilog2 x = ilog2 y.
Proof.
  intros Hx E. symmetry. destruct (ilog2_spec x Hx).
  apply ilog2_unique; by rewrite <- E.
Qed.

Lemma ilog2_mono (x y : Q) : 0 < x → x <= y → (ilog2 x ≤ ilog2 y)%Z.
Proof.
  intros Hx Hxy.
  destruct (ilog2_spec x Hx) as [H1 _].
  destruct (ilog2_spec y) as [_ H2]; [lra|].
  assert (ilog2 x < ilog2 y + 1)%Z by (apply pow2_lt_inv; lra). lia.
Qed.

Lemma ilog2_scale (x : Q) (n : Z) : 0 < x → ilog2 (x * pow2 n) = (ilog2 x + n)%Z.
Proof.
  intros Hx. destruct (ilog2_spec x Hx) as [H1 H2]. pose proof (pow2_pos n).
  apply ilog2_unique.
  - rewrite pow2_add. by apply Qmult_le_compat_r; [|lra].
  - replace (ilog2 x + n + 1)%Z with (ilog2 x + 1 + n)%Z by lia.
    rewrite pow2_add. by apply Qmult_lt_compat_r.
Qed.

Lemma ilog2_pow2 (n : Z) : ilog2 (pow2 n) = n.
Proof. apply ilog2_unique; [lra|]. apply pow2_lt. lia. Qed.

(** *** Rounding to an integer *)

Lemma rne_cases (x : Q) :
  let f := Qfloor x in
  (x - inject_Z f < 1 # 2 ∧ rne x = f)
  ∨ (1 # 2 < x - inject_Z f ∧ rne x = (f + 1)%Z)
  ∨ (x - inject_Z f == 1 # 2 ∧ (rne x = f ∨ rne x = (f + 1)%Z)).
Proof.
  intros f. unfold rne. fold f.
  destruct (Qcompare_spec (x - inject_Z f) (1 # 2)) as [H|H|H]; [|by left|by right; left].
  right. right. split; [done|]. destruct (Z.even f); [by left|by right].
Qed.

Lemma rne_mono (x y : Q) : x <= y → (rne x ≤ rne y)%Z.
Proof.
  intros Hxy. pose proof (Qfloor_resp_le x y Hxy) as Hf.
  pose proof (Qfloor_le x) as Hx1. pose proof (Qlt_floor x) as Hx2.
  pose proof (Qfloor_le y) as Hy1. pose proof (Qlt_floor y) as Hy2.
  destruct (decide (Qfloor x = Qfloor y)) as [E|E].
  - unfold rne. rewrite <- E.
    destruct (Qcompare_spec (x - inject_Z (Qfloor x)) (1 # 2)) as [H1|H1|H1];
      destruct (Qcompare_spec (y - inject_Z (Qfloor x)) (1 # 2)) as [H2|H2|H2];
      try destruct (Z.even (Qfloor x)); try lia; lra.
  - destruct (rne_cases x) as [[_ ->]|[[_ ->]|[_ [->| ->]]]];
      destruct (rne_cases y) as [[_ ->]|[[_ ->]|[_ [->| ->]]]]; lia.
Qed.

Lemma rne_Z (n : Z) : rne (inject_Z n) = n.
Proof.
  unfold rne. rewrite Qfloor_Z.
  destruct (Qcompare_spec (inject_Z n - inject_Z n) (1 # 2)) as [H|H|H]; [lra|done|lra].
Qed.

Lemma rne_comp (x y : Q) : x == y → rne x = rne y.
Proof.
  intros E. unfold rne. rewrite (Qfloor_comp x y E).
  by rewrite (Qcompare_comp _ _ (Qminus_comp _ _ E _ _ (reflexivity _)) _ _ (reflexivity _)).
Qed.

Lemma rne_ge (x : Q) (n : Z) : inject_Z n <= x → (n ≤ rne x)%Z.
Proof. intros H. rewrite <- (rne_Z n). by apply rne_mono. Qed.

Lemma rne_le (x : Q) (n : Z) : x <= inject_Z n → (rne x ≤ n)%Z.
Proof. intros H. rewrite <- (rne_Z n). by apply rne_mono. Qed.

(** *** Rounding a positive number *)

Lemma fexp_ge (x : Q) : (-1074 ≤ fexp x)%Z.
Proof. unfold fexp. lia. Qed.

Lemma fexp_mono (x y : Q) : 0 < x → x <= y → (fexp x ≤ fexp y)%Z.
Proof. intros Hx Hxy. unfold fexp. pose proof (ilog2_mono x y Hx Hxy). lia. Qed.

Lemma fexp_comp (x y : Q) : 0 < x → x == y → fexp x = fexp y.
Proof. intros Hx E. unfold fexp. by rewrite (ilog2_comp x y Hx E). Qed.

Lemma round_pos_comp (x y : Q) : 0 < x → x == y → round_pos x == round_pos y.
Proof.
  intros Hx E. unfold round_pos. rewrite (fexp_comp x y Hx E).
  rewrite (rne_comp (x / pow2 (fexp y)) (y / pow2 (fexp y))); [done|]. by rewrite E.
Qed.

(** The digits kept: at most 53. *)
Lemma mantissa_bounds (x : Q) :
  0 < x → (0 ≤ rne (x / pow2 (fexp x)) ≤ 2 ^ 53)%Z.
Proof.
  intros Hx. pose proof (pow2_pos (fexp x)) as Hp.
  destruct (ilog2_spec x Hx) as [_ Hup]. split.
  - apply rne_ge. apply Qle_shift_div_l; [done|]. change (inject_Z 0) with 0. lra.
  - apply rne_le. apply Qle_shift_div_r; [done|]. rewrite <- pow2_Z by done.
    rewrite <- pow2_add. apply Qlt_le_weak. eapply Qlt_le_trans; [done|].
    apply pow2_le. unfold fexp. lia.
Qed.

Lemma round_pos_nonneg (x : Q) : 0 < x → 0 <= round_pos x.
Proof.
  intros Hx. unfold round_pos. pose proof (pow2_pos (fexp x)).
  apply Qmult_le_0_compat; [|lra].
  destruct (mantissa_bounds x Hx) as [H0 _]. by apply (Qle_trans _ (inject_Z 0));
    [|rewrite <- Zle_Qle].
Qed.

Lemma round_pos_mono (x y : Q) : 0 < x → x <= y → round_pos x <= round_pos y.
Proof.
  intros Hx Hxy. assert (0 < y) as Hy by lra.
  pose proof (fexp_mono x y Hx Hxy) as He.
  pose proof (pow2_pos (fexp x)) as Hpx. pose proof (pow2_pos (fexp y)) as Hpy.
  unfold round_pos. destruct (decide (fexp x = fexp y)) as [E|E].
  - rewrite E. apply Qmult_le_compat_r; [|lra]. rewrite <- Zle_Qle.
    apply rne_mono. apply Qmult_le_compat_r; [done|]. apply Qlt_le_weak.
    by apply Qinv_lt_0_compat.
  - destruct (mantissa_bounds x Hx) as [_ Hm].
    apply (Qle_trans _ (pow2 (fexp y + 52))).
    + apply (Qle_trans _ (inject_Z (2 ^ 53) * pow2 (fexp x))).
      * apply Qmult_le_compat_r; [|lra]. by rewrite <- Zle_Qle.
      * rewrite <- pow2_Z, <- pow2_add by done. apply pow2_le. lia.
    + assert (fexp y = ilog2 y - 52)%Z as Ey.
      { pose proof (fexp_ge x). unfold fexp in *. lia. }
      destruct (ilog2_spec y Hy) as [Hlow _].
      rewrite Z.add_comm, pow2_add, pow2_Z by done.
      apply Qmult_le_compat_r; [|lra]. rewrite <- Zle_Qle. apply rne_ge.
      apply Qle_shift_div_l; [done|]. rewrite <- pow2_Z, <- pow2_add by done.
      replace (52 + fexp y)%Z with (ilog2 y) by lia. done.
Qed.

(** A number that fits the format is its own rounding. *)
Lemma round_pos_exact (x : Q) (m e : Z) :
  0 < x → x == inject_Z m * pow2 e → (fexp x ≤ e)%Z → round_pos x == x.
Proof.
  intros Hx E He. unfold round_pos. pose proof (pow2_pos (fexp x)) as Hp.
  assert (x / pow2 (fexp x) == inject_Z (m * 2 ^ (e - fexp x))) as Hm.
  { rewrite inject_Z_mult, <- pow2_Z, pow2_sub by lia.
    rewrite (Qdiv_comp _ _ E _ _ (reflexivity (pow2 (fexp x)))). field. lra. }
  rewrite (rne_comp _ _ Hm), rne_Z, <- Hm. apply pow2_div_cancel.
Qed.

(** The rounding of a number fits the format. *)
Lemma round_pos_format (x : Q) :
  0 < x → 0 < round_pos x →
  ∃ m e, round_pos x == inject_Z m * pow2 e ∧ (fexp (round_pos x) ≤ e)%Z.
Proof.
  intros Hx Hv. destruct (mantissa_bounds x Hx) as [Hm0 Hm].
  pose proof (pow2_pos (fexp x)) as Hp. pose proof (fexp_ge x) as Hge.
  destruct (decide (rne (x / pow2 (fexp x)) = 2 ^ 53)%Z) as [E|E].
  - exists (2 ^ 52)%Z, (fexp x + 1)%Z.
    assert (round_pos x == pow2 (fexp x + 53)) as Ev.
    { unfold round_pos. rewrite E, <- pow2_Z, <- pow2_add by done.
      by rewrite Z.add_comm. }
    split.
    + rewrite Ev, <- pow2_Z, <- pow2_add by done.
      by replace (52 + (fexp x + 1))%Z with (fexp x + 53)%Z by lia.
    + rewrite (fexp_comp _ _ Hv Ev). unfold fexp at 1. rewrite ilog2_pow2. lia.
  - exists (rne (x / pow2 (fexp x))), (fexp x). split; [done|].
    assert (round_pos x < pow2 (fexp x + 53)) as Hlt.
    { unfold round_pos. rewrite Z.add_comm, pow2_add, (pow2_Z 53) by done.
      apply Qmult_lt_compat_r; [done|]. rewrite <- Zlt_Qlt. lia. }
    destruct (ilog2_spec (round_pos x) Hv) as [Hlow _].
    assert (ilog2 (round_pos x) < fexp x + 53)%Z by (apply pow2_lt_inv; lra).
    unfold fexp at 1. lia.
Qed.

Lemma round_pos_idempotent (x : Q) :
  0 < x → 0 < round_pos x → round_pos (round_pos x) == round_pos x.
Proof.
  intros Hx Hv. destruct (round_pos_format x Hx Hv) as (m & e & E & He).
  by apply (round_pos_exact _ m e).
Qed.

(** *** Rounding *)

Lemma round_comp (x y : Q) : x == y → round x = round y.
Proof. intros E. unfold round. by rewrite (Qred_complete x y E). Qed.

Lemma round_zero (x : Q) : x == 0 → round x = Fin 0.
Proof. intros E. by rewrite (round_comp x 0 E). Qed.

Lemma round_positive (x : Q) :
  0 < x →
  round x = if Qle_bool (pow2 1024) (round_pos x) then Inf false
            else Fin (Qred (round_pos x)).
Proof.
  intros Hx. unfold round.
  assert (0 < Qred x) as Hr by (by rewrite Qred_correct).
  rewrite (proj1 (Qgt_alt _ _) Hr).
  pose proof (round_pos_comp (Qred x) x Hr (Qred_correct x)) as E.
  by rewrite (Qleb_comp _ _ (reflexivity (pow2 1024)) _ _ E), (Qred_complete _ _ E).
Qed.

Lemma round_negative (x : Q) :
  x < 0 →
  round x = if Qle_bool (pow2 1024) (round_pos (- x)) then Inf true
            else Fin (Qred (- round_pos (- x))).
Proof.
  intros Hx. unfold round.
  assert (Qred x < 0) as Hr by (by rewrite Qred_correct).
  rewrite (proj1 (Qlt_alt _ _) Hr).
  assert (0 < - Qred x) as Hr' by lra.
  assert (- Qred x == - x) as Eo by (by rewrite Qred_correct).
  pose proof (round_pos_comp (- Qred x) (- x) Hr' Eo) as E.
  rewrite (Qleb_comp _ _ (reflexivity (pow2 1024)) _ _ E).
  by rewrite (Qred_complete _ _ (Qopp_comp _ _ E)).
Qed.

Lemma round_cases (x : Q) :
  (x == 0 ∧ round x = Fin 0)
  ∨ (0 < x ∧ pow2 1024 <= round_pos x ∧ round x = Inf false)
  ∨ (0 < x ∧ round_pos x < pow2 1024 ∧ round x = Fin (Qred (round_pos x)))
  ∨ (x < 0 ∧ pow2 1024 <= round_pos (- x) ∧ round x = Inf true)
  ∨ (x < 0 ∧ round_pos (- x) < pow2 1024 ∧ round x = Fin (Qred (- round_pos (- x)))).
Proof.
  destruct (Q_dec x 0) as [[Hx|Hx]|Hx].
  - right. right. right. rewrite (round_negative x Hx).
    destruct (Qle_bool (pow2 1024) (round_pos (- x))) eqn:E.
    + left. apply Qle_bool_iff in E. done.
    + right. split; [done|]. split; [|done]. apply Qnot_le_lt. intros H.
      apply Qle_bool_iff in H. congruence.
  - right. rewrite (round_positive x Hx).
    destruct (Qle_bool (pow2 1024) (round_pos x)) eqn:E.
    + left. apply Qle_bool_iff in E. done.
    + right. left. split; [done|]. split; [|done]. apply Qnot_le_lt. intros H.
      apply Qle_bool_iff in H. congruence.
  - left. split; [done|]. by apply round_zero.
Qed.

Lemma round_not_nan (x : Q) : round x ≠ NaN.
Proof.
  destruct (round_cases x) as [[_ ->]|[(_ & _ & ->)|[(_ & _ & ->)|[(_ & _ & ->)|(_ & _ & ->)]]]];
    done.
Qed.

Lemma le_Fin (a b : Q) : le (Fin a) (Fin b) = true ↔ a <= b.
Proof. apply Qle_bool_iff. Qed.

Lemma lt_Fin (a b : Q) : lt (Fin a) (Fin b) = true ↔ a < b.
Proof.
  simpl. rewrite negb_true_iff. split.
  - intros H. apply Qnot_le_lt. intros Hle. apply Qle_bool_iff in Hle. congruence.
  - intros H. destruct (Qle_bool b a) eqn:E; [|done]. apply Qle_bool_iff in E. lra.
Qed.

(** Rounding keeps the order. *)
Lemma round_mono (x y : Q) : x <= y → le (round x) (round y) = true.
Proof.
  intros Hxy.
  assert (0 < x → 0 <= round_pos x) as N1 by apply round_pos_nonneg.
  assert (0 < y → 0 <= round_pos y) as N2 by apply round_pos_nonneg.
  assert (x < 0 → 0 <= round_pos (- x)) as N3 by (intros; apply round_pos_nonneg; lra).
  assert (y < 0 → 0 <= round_pos (- y)) as N4 by (intros; apply round_pos_nonneg; lra).
  assert (0 < x → round_pos x <= round_pos y) as M1 by (intros; by apply round_pos_mono).
  assert (y < 0 → round_pos (- y) <= round_pos (- x)) as M2
    by (intros; apply round_pos_mono; lra).
  destruct (round_cases x) as [[Hx ->]|[(Hx & Hvx & ->)|[(Hx & Hvx & ->)|[(Hx & Hvx & ->)|(Hx & Hvx & ->)]]]];
    destruct (round_cases y) as [[Hy ->]|[(Hy & Hvy & ->)|[(Hy & Hvy & ->)|[(Hy & Hvy & ->)|(Hy & Hvy & ->)]]]];
    repeat match goal with
           | H : ?P → _, H' : ?P |- _ => specialize (H H')
           end;
    try done; try (apply le_Fin; rewrite ?Qred_correct); lra.
Qed.

(** A result of rounding is its own rounding. *)
Lemma round_idempotent (x q : Q) : round x = Fin q → round q = Fin q.
Proof.
  destruct (round_cases x) as [[Hx ->]|[(Hx & Hvx & ->)|[(Hx & Hvx & ->)|[(Hx & Hvx & ->)|(Hx & Hvx & ->)]]]];
    try done; intros [= <-].
  - done.
  - pose proof (round_pos_nonneg x Hx) as H0.
    destruct (Qle_lt_or_eq _ _ H0) as [Hpos|Hz].
    + assert (0 < Qred (round_pos x)) as Hr by (by rewrite Qred_correct).
      rewrite (round_positive _ Hr).
      assert (round_pos (Qred (round_pos x)) == round_pos x) as E.
      { rewrite (round_pos_comp _ _ Hr (Qred_correct _)).
        by apply round_pos_idempotent. }
      rewrite (Qleb_comp _ _ (reflexivity (pow2 1024)) _ _ E), (Qred_complete _ _ E).
      destruct (Qle_bool (pow2 1024) (round_pos x)) eqn:Eb; [|done].
      apply Qle_bool_iff in Eb. lra.
    + rewrite <- (Qred_complete _ _ Hz). done.
  - assert (0 < - x) as Hx' by lra.
    pose proof (round_pos_nonneg (- x) Hx') as H0.
    destruct (Qle_lt_or_eq _ _ H0) as [Hpos|Hz].
    + assert (Qred (- round_pos (- x)) < 0) as Hr by (rewrite Qred_correct; lra).
      rewrite (round_negative _ Hr).
      assert (- Qred (- round_pos (- x)) == round_pos (- x)) as Eo
        by (rewrite Qred_correct; ring).
      assert (0 < - Qred (- round_pos (- x))) as Hr' by lra.
      assert (round_pos (- Qred (- round_pos (- x))) == round_pos (- x)) as E.
      { rewrite (round_pos_comp _ _ Hr' Eo). by apply round_pos_idempotent. }
      rewrite (Qleb_comp _ _ (reflexivity (pow2 1024)) _ _ E).
      rewrite (Qred_complete _ _ (Qopp_comp _ _ E)).
      destruct (Qle_bool (pow2 1024) (round_pos (- x))) eqn:Eb; [|done].
      apply Qle_bool_iff in Eb. lra.
    + assert (- round_pos (- x) == 0) as Hz' by (rewrite <- Hz; ring).
      rewrite (Qred_complete _ _ Hz'). done.
Qed.

Lemma round_is_float (x : Q) : is_float (round x).
Proof. destruct (round x) as [| |q] eqn:E; [done|done|]. by apply (round_idempotent x). Qed.

(** *** Numbers that fit the format *)

Lemma is_float_pos (b : Q) :
  is_float (Fin b) → 0 < b →
  b == round_pos b ∧ b < pow2 1024.
Proof.
  simpl. intros Hb Hpos. rewrite (round_positive b Hpos) in Hb.
  destruct (Qle_bool (pow2 1024) (round_pos b)) eqn:E; [done|].
  injection Hb as Hb. assert (b == round_pos b) as Eb.
  { rewrite <- Hb at 1. apply Qred_correct. }
  split; [done|]. apply Qnot_le_lt. intros H.
  assert (pow2 1024 <= round_pos b) as H' by lra.
  apply Qle_bool_iff in H'. congruence.
Qed.

Lemma is_float_neg (b : Q) :
  is_float (Fin b) → b < 0 →
  - b == round_pos (- b) ∧ - b < pow2 1024.
Proof.
  simpl. intros Hb Hneg. rewrite (round_negative b Hneg) in Hb.
  destruct (Qle_bool (pow2 1024) (round_pos (- b))) eqn:E; [done|].
  injection Hb as Hb. assert (b == - round_pos (- b)) as Eb.
  { rewrite <- Hb at 1. apply Qred_correct. }
  split; [lra|]. apply Qnot_le_lt. intros H.
  assert (pow2 1024 <= round_pos (- b)) as H' by lra.
  apply Qle_bool_iff in H'. congruence.
Qed.

Lemma is_float_Qred (b : Q) : is_float (Fin b) → Qred b = b.
Proof.
  simpl. intros Hb.
  destruct (round_cases b) as [[Hx E]|[(Hx & Hvx & E)|[(Hx & Hvx & E)|[(Hx & Hvx & E)|(Hx & Hvx & E)]]]];
    rewrite E in Hb; try done; injection Hb as <-.
  - done.
  - apply Qred_complete, Qred_correct.
  - apply Qred_complete, Qred_correct.
Qed.

(** Scaling by a power of two takes no rounding. *)
Lemma round_pos_scale (b : Q) (n : Z) :
  0 < b → b == round_pos b → (0 ≤ n)%Z → round_pos (b * pow2 n) == b * pow2 n.
Proof.
  intros Hpos Eb Hn. pose proof (pow2_pos n) as Hp.
  assert (0 < round_pos b) as Hv by lra.
  destruct (round_pos_format b Hpos Hv) as (m & e & E & He).
  assert (0 < b * pow2 n) as Hs by (by apply Qmult_lt_0_compat).
  apply (round_pos_exact _ m (e + n)); [done| |].
  - rewrite pow2_add, Eb at 1. rewrite E. ring.
  - rewrite <- (fexp_comp b _ Hpos Eb) in He. unfold fexp in *.
    rewrite ilog2_scale by done. lia.
Qed.

Lemma round_scale (b : Q) (n : Z) :
  is_float (Fin b) → (0 ≤ n)%Z →
  round (b * pow2 n) = Fin (Qred (b * pow2 n))
  ∨ ∃ s, round (b * pow2 n) = Inf s.
Proof.
  intros Hb Hn. pose proof (pow2_pos n) as Hp.
  destruct (Q_dec b 0) as [[Hneg|Hpos]|Hz].
  - destruct (is_float_neg b Hb Hneg) as [Eb _].
    assert (b * pow2 n < 0) as Hs.
    { assert (0 < (- b) * pow2 n) by (apply Qmult_lt_0_compat; lra). lra. }
    assert (0 < - b) as Hpos by lra.
    assert (round_pos (- (b * pow2 n)) == - (b * pow2 n)) as E.
    { assert (- (b * pow2 n) == (- b) * pow2 n) as Eo by ring.
      assert (0 < - (b * pow2 n)) as Hs' by lra.
      transitivity (round_pos (- b * pow2 n)); [by apply round_pos_comp|].
      transitivity (- b * pow2 n); [by apply round_pos_scale|by symmetry]. }
    rewrite (round_negative _ Hs).
    destruct (Qle_bool _ _); [right; by eexists|left].
    f_equal. apply Qred_complete. rewrite E. ring.
  - destruct (is_float_pos b Hb Hpos) as [Eb _].
    assert (0 < b * pow2 n) as Hs by (by apply Qmult_lt_0_compat).
    rewrite (round_positive _ Hs).
    destruct (Qle_bool _ _); [right; by eexists|left].
    f_equal. apply Qred_complete. by apply round_pos_scale.
  - left. assert (b * pow2 n == 0) as E by (rewrite Hz; ring).
    rewrite (round_zero _ E). f_equal. symmetry. by apply (Qred_complete _ 0).
Qed.

(** The powers of two: floats up to [2^1023], infinite from [2^1024]
    on. *)
Lemma round_pow2 (n : Z) :
  (0 ≤ n)%Z →
  round (pow2 n) = if (n <? 1024)%Z then Fin (Qred (pow2 n)) else Inf false.
Proof.
  intros Hn. pose proof (pow2_pos n) as Hp.
  assert (round_pos (pow2 n) == pow2 n) as E.
  { apply (round_pos_exact _ 1 n); [done|ring|].
    unfold fexp. rewrite ilog2_pow2. lia. }
  rewrite (round_positive _ Hp).
  rewrite (Qleb_comp _ _ (reflexivity (pow2 1024)) _ _ E), (Qred_complete _ _ E).
  destruct (Z.ltb_spec n 1024) as [Hlt|Hge].
  - destruct (Qle_bool (pow2 1024) (pow2 n)) eqn:Eb; [|done].
    apply Qle_bool_iff in Eb. pose proof (pow2_lt n 1024 Hlt). lra.
  - destruct (Qle_bool (pow2 1024) (pow2 n)) eqn:Eb; [done|].
    pose proof (pow2_le 1024 n Hge) as Hle. apply Qle_bool_iff in Hle. congruence.
Qed.

Lemma of_int_pow2 (n : Z) :
  (0 ≤ n)%Z →
  of_int (2 ^ n) = if (n <? 1024)%Z then inl (Fin (Qred (pow2 n))) else inr ().
Proof.
  intros Hn. unfold of_int. rewrite <- (round_comp _ _ (pow2_Z n Hn)), round_pow2 by done.
  by destruct (n <? 1024)%Z.
Qed.

(** *** The operations *)

Lemma le_refl (x : float) : is_nan x = false → le x x = true.
Proof.
  destruct x as [|s|q]; [done| |]; intros _.
  - by destruct s.
  - apply le_Fin. lra.
Qed.

Lemma le_trans (x y z : float) : le x y = true → le y z = true → le x z = true.
Proof.
  destruct x as [|[]|a], y as [|[]|b], z as [|[]|c]; try done.
  rewrite !le_Fin. lra.
Qed.

Lemma lt_false_le (x y : float) :
  is_nan x = false → is_nan y = false → lt x y = false → le y x = true.
Proof.
  destruct x as [|[]|a], y as [|[]|b]; try done. intros _ _. simpl.
  by rewrite negb_false_iff.
Qed.

Lemma lt_le (x y : float) : lt x y = true → le x y = true.
Proof.
  destruct x as [|[]|a], y as [|[]|b]; try done.
  rewrite lt_Fin, le_Fin. lra.
Qed.

Lemma add_comp_r (x : float) (u v : Q) : u == v → add x (Fin u) = add x (Fin v).
Proof.
  intros E. destruct x as [|s|a]; [done|done|]. simpl. apply round_comp. by rewrite E.
Qed.

Lemma add_zero_r (x : float) : is_float x → add x zero = x.
Proof.
  destruct x as [|s|a]; [done|done|]. simpl. intros Ha.
  rewrite <- Ha. apply round_comp. ring.
Qed.

Lemma add_zero_l (y : float) : is_float y → add zero y = y.
Proof.
  destruct y as [|s|a]; [done|done|]. simpl. intros Ha.
  rewrite <- Ha. apply round_comp. ring.
Qed.

Lemma sub_zero (x : float) : is_float x → sub x zero = x.
Proof. apply add_zero_r. Qed.

Lemma add_mono_r (x : float) (u v : Q) :
  is_nan x = false → u <= v → le (add x (Fin u)) (add x (Fin v)) = true.
Proof.
  intros Hx Huv. destruct x as [|s|a]; [done|by destruct s|]. simpl.
  apply round_mono. lra.
Qed.

Lemma add_is_float (x y : float) : is_float (add x y).
Proof.
  destruct x as [|s|a], y as [|s'|b]; simpl; try done.
  - by destruct (Bool.eqb s s').
  - apply round_is_float.
Qed.

Lemma mul_is_float (x y : float) : is_float (mul x y).
Proof.
  destruct x as [|s|a], y as [|s'|b]; simpl; try done.
  - unfold inf_times. by destruct (b ?= 0).
  - unfold inf_times. by destruct (a ?= 0).
  - apply round_is_float.
Qed.

(** A product with a number between 0 and 1 lies between 0 and the
    other factor. *)
Lemma mul_unit_range (b r : Q) :
  is_float (Fin b) → 0 <= b → 0 <= r → r <= 1 →
  ∃ q, mul (Fin b) (Fin r) = Fin q ∧ 0 <= q ∧ q <= b.
Proof.
  intros Hb Hb0 Hr0 Hr1. simpl.
  assert (0 <= b * r) as H0 by (by apply Qmult_le_0_compat).
  assert (b * r <= b) as H1.
  { assert (0 <= b * (1 - r)) by (apply Qmult_le_0_compat; lra). lra. }
  pose proof (round_mono _ _ H0) as M0. pose proof (round_mono _ _ H1) as M1.
  simpl in Hb. rewrite Hb in M1. rewrite (round_zero 0) in M0 by done.
  destruct (round (b * r)) as [|s|q]; [done|by destruct s|].
  exists q. by rewrite <- !le_Fin.
Qed.

(** [max(0.0, j)] is [0.0] or [j], and not negative. *)
Lemma max_zero (j : Q) :
  (0 < j ∧ max zero (Fin j) = Fin j) ∨ (j <= 0 ∧ max zero (Fin j) = zero).
Proof.
  unfold max. destruct (lt zero (Fin j)) eqn:E.
  - left. by apply lt_Fin in E.
  - right. split; [|done]. apply Qnot_lt_le. intros H. apply lt_Fin in H.
    unfold zero in E. congruence.
Qed.

(** [random.uniform(0, b)] lies between [0] and [b]. *)
Lemma uniform_range (b r : Q) :
  is_float (Fin b) → 0 <= b → 0 <= r → r <= 1 →
  ∃ u, uniform zero (Fin b) (Fin r) = Fin u ∧ is_float (Fin u) ∧ 0 <= u ∧ u <= b.
Proof.
  intros Hb Hb0 Hr0 Hr1. unfold uniform. rewrite (sub_zero (Fin b) Hb).
  destruct (mul_unit_range b r Hb Hb0 Hr0 Hr1) as (u & E & Hu0 & Hu1).
  pose proof (mul_is_float (Fin b) (Fin r)) as Hu. rewrite E in *.
  exists u. by rewrite (add_zero_l _ Hu).
Qed.

End PyFloatTheory.

(** ** The two delays, in floating point *)

Module HttpDelaysTheory.

Import Py Config PyFloat PyFloatTheory HttpDelays.

Lemma times_pow2 (b : Q) (attempt : Z) :
  1 ≤ attempt →
  times (Fin b) (two_to_the (attempt - 1))
  = if attempt <=? 1024 then Value (round (b * pow2 (attempt - 1))) else Raises overflow.
Proof.
  intros Hk. unfold two_to_the, times.
  rewrite (proj2 (Z.leb_le 0 (attempt - 1))) by lia.
  rewrite of_int_pow2 by lia.
  destruct (Z.leb_spec attempt 1024) as [H|H].
  - rewrite (proj2 (Z.ltb_lt (attempt - 1) 1024)) by lia. simpl. f_equal.
    apply round_comp. by rewrite Qred_correct.
  - by rewrite (proj2 (Z.ltb_ge (attempt - 1) 1024)) by lia.
Qed.

(** The base is not below a factor that is not negative. *)
Lemma base_at_least (b : Q) (n : Z) :
  is_float (Fin b) → (0 <= b)%Q → 0 ≤ n → le (Fin b) (round (b * pow2 n)) = true.
Proof.
  intros Hb Hb0 Hn. simpl in Hb. rewrite <- Hb at 1. apply round_mono.
  assert (1 <= pow2 n)%Q as Hp by (by apply Qpower_1_le).
  assert (0 <= b * (pow2 n - 1))%Q by (apply Qmult_le_0_compat; lra). lra.
Qed.

(** The delay at an attempt whose power of two is a [float]. *)
Lemma compute_backoff_delay (attempt : Z) (b j r : Q) :
  is_float (Fin j) → (0 <= r)%Q → (r < 1)%Q → 1 ≤ attempt ≤ 1024 →
  let base := round (b * pow2 (attempt - 1)) in
  let delay := add base (uniform zero (max zero (Fin j)) (Fin r)) in
  _compute_backoff attempt (Fin b) (Fin j) (Fin r) = Value delay
  ∧ le base delay = true
  ∧ le delay (add base (max zero (Fin j))) = true
  ∧ ((j <= 0)%Q → delay = base).
Proof.
  intros Hj Hr0 Hr1 [Hk1 Hk2] base delay. subst delay. unfold _compute_backoff.
  rewrite (times_pow2 b attempt Hk1). fold base.
  rewrite (proj2 (Z.leb_le attempt 1024)) by lia. split; [done|].
  assert (is_float base) as Hbase by apply round_is_float.
  assert (is_nan base = false) as Hnn.
  { pose proof (round_not_nan (b * pow2 (attempt - 1))) as H. fold base in H.
    by destruct base. }
  assert (∃ jm, max zero (Fin j) = Fin jm ∧ is_float (Fin jm) ∧ (0 <= jm)%Q
                ∧ ((j <= 0)%Q → (jm == 0)%Q)) as (jm & Ejm & Hjm & Hjm0 & Hjmz).
  { destruct (max_zero j) as [[H ->]|[H ->]].
    - exists j. split; [done|]. split; [done|]. split; lra.
    - exists 0%Q. split; [done|]. split; [done|]. split; [lra|done]. }
  rewrite Ejm.
  destruct (uniform_range jm r Hjm Hjm0 Hr0) as (u & -> & Hu & Hu0 & Hu1); [lra|].
  split; [|split].
  - rewrite <- (add_zero_r base Hbase) at 1. by apply add_mono_r.
  - by apply add_mono_r.
  - intros Hle. rewrite <- (add_zero_r base Hbase) at 2. apply add_comp_r.
    specialize (Hjmz Hle). lra.
Qed.

(** C8 (amended).  For a finite backoff factor [b] and jitter [j], a
    value of [random.random()] in [[0, 1)] and an attempt from 1 to
    1024, [_compute_backoff] returns the [float] sum of the base and of
    the term [uniform(0, max(0.0, j))].  The base is [b * 2^(attempt-1)]
    itself, the scaling taking no rounding, unless that is beyond the
    largest [float], where it is an infinity.  The delay is at least the
    base and at most the [float] sum of the base and [max(0.0, j)], a
    bound it can reach; it is the base when the jitter is zero or
    negative.  From attempt 1025 on the routine raises
    [OverflowError]. *)
Theorem compute_backoff_bounds (attempt : Z) (b j r : Q) :
  is_float (Fin b) → is_float (Fin j) → (0 <= r)%Q → (r < 1)%Q → 1 ≤ attempt →
  let outcome := _compute_backoff attempt (Fin b) (Fin j) (Fin r) in
  let base := round (b * pow2 (attempt - 1)) in
  (attempt ≤ 1024 →
     ∃ delay,
       outcome = Value delay
       ∧ delay = add base (uniform zero (max zero (Fin j)) (Fin r))
       ∧ (base = Fin (Qred (b * pow2 (attempt - 1))) ∨ ∃ s, base = Inf s)
       ∧ le base delay = true
       ∧ le delay (add base (max zero (Fin j))) = true
       ∧ ((j <= 0)%Q → delay = base))
  ∧ (1025 ≤ attempt → outcome = Raises overflow).
Proof.
  intros Hb Hj Hr0 Hr1 Hk outcome base. subst outcome. split.
  - intros Hsmall.
    destruct (compute_backoff_delay attempt b j r Hj Hr0 Hr1) as (E & H1 & H2 & H3); [lia|].
    eexists. split; [done|]. split; [done|].
    split; [apply round_scale; [done|lia]|]. done.
  - intros Hbig. unfold _compute_backoff. rewrite (times_pow2 b attempt Hk).
    by rewrite (proj2 (Z.leb_gt attempt 1024)) by lia.
Qed.

Lemma compute_backoff_bounds_witness :
  let b := (1 # 2)%Q in
  let j := (3602879701896397 # 18014398509481984)%Q in
  let r := (3 # 4)%Q in
  let outcome := _compute_backoff 3 (Fin b) (Fin j) (Fin r) in
  let base := round (b * pow2 (3 - 1)) in
  (3 ≤ 1024 →
     ∃ delay,
       outcome = Value delay
       ∧ delay = add base (uniform zero (max zero (Fin j)) (Fin r))
       ∧ (base = Fin (Qred (b * pow2 (3 - 1))) ∨ ∃ s, base = Inf s)
       ∧ le base delay = true
       ∧ le delay (add base (max zero (Fin j))) = true
       ∧ ((j <= 0)%Q → delay = base))
  ∧ (1025 ≤ 3 → outcome = Raises overflow).
Proof.
  intros b j r.
  apply (compute_backoff_bounds 3 b j r); [by vm_compute|by vm_compute|done|done|done].
Defined.

(** C8, as stated, fails in three ways.  With jitter zero (a value
    [HttpRequest.jitter] can carry) the delay is the base itself, hence
    not below base plus jitter.  With the default factor 0.5 and jitter
    0.2, the draw just below 1 gives the [float] sum of base and jitter
    exactly.  At attempt 55 the base is [2^53], where floats are two
    apart: with jitter 1.5 and the draw 0.75 the delay is [2^53 + 2],
    above base plus jitter. *)
Lemma compute_backoff_reaches_the_bound :
  let half := Fin (1 # 2) in
  let fifth := round (1 # 5) in
  (_compute_backoff 1 half zero (Fin (3 # 4)) = Value half
   ∧ lt half (add half zero) = false)
  ∧ (∃ delay, _compute_backoff 1 half fifth (round (1 - pow2 (-53))) = Value delay
              ∧ delay = add half fifth ∧ lt delay (add half fifth) = false)
  ∧ (∃ d, _compute_backoff 55 half (Fin (3 # 2)) (Fin (3 # 4)) = Value (Fin d)
          ∧ (d == inject_Z (2 ^ 53 + 2))%Q
          ∧ ((1 # 2) * inject_Z (2 ^ 54) + (3 # 2) < d)%Q).
Proof.
  intros half fifth. split; [by vm_compute|]. split.
  - eexists. split; [by vm_compute|]. by vm_compute.
  - eexists. split; [by vm_compute|]. by vm_compute.
Qed.

Section Builtins.

Variable to_float : string → option float.

Lemma max_tenth (x : float) :
  (is_nan x = true → max x tenth = NaN)
  ∧ (is_nan x = false → le tenth (max x tenth) = true).
Proof.
  split.
  - by destruct x.
  - intros Hx. unfold max. destruct (lt x tenth) eqn:E; [by apply le_refl|].
    by apply lt_false_le.
Qed.

(** With a backoff factor that is finite and not negative and a finite
    jitter, the delay after a 429 answer, at an attempt from 1 to 1024,
    is [max(x, 0.1)] when the [Retry-After] header is there, not empty
    and read by [float] as [x]: at least 0.1, unless [x] is not a
    number, and then the delay is not a number either and the floor of
    0.1 is lost.  Otherwise the delay is that of [_compute_backoff],
    which is never below the backoff factor. *)
Theorem retry_after_delay_floor (headers : list (string * string)) (attempt : Z)
    (b j r : Q) :
  is_float (Fin b) → is_float (Fin j) → (0 <= b)%Q → (0 <= r)%Q → (r < 1)%Q →
  1 ≤ attempt ≤ 1024 →
  ∃ delay,
    _retry_after_delay to_float headers attempt (Fin b) (Fin j) (Fin r) = Value delay
    ∧ match retry_after to_float headers with
      | Some x =>
          delay = max x tenth
          ∧ (is_nan x = true → delay = NaN ∧ le tenth delay = false)
          ∧ (is_nan x = false → le tenth delay = true)
      | None =>
          _compute_backoff attempt (Fin b) (Fin j) (Fin r) = Value delay
          ∧ le (Fin b) delay = true
      end.
Proof.
  intros Hb Hj Hb0 Hr0 Hr1 [Hk1 Hk2].
  destruct (compute_backoff_delay attempt b j r Hj Hr0 Hr1) as (Hd & Hle & _); [done|].
  set (d := add (round (b * pow2 (attempt - 1)))
              (uniform zero (max zero (Fin j)) (Fin r))) in *.
  assert (le (Fin b) d = true) as Hfloor.
  { eapply le_trans; [|done]. apply base_at_least; [done|done|lia]. }
  unfold _retry_after_delay, retry_after.
  destruct (HttpClient.dict_get "Retry-After" headers) as [s|]; [|by exists d].
  case_bool_decide; [by exists d|].
  destruct (to_float s) as [x|]; [|by exists d].
  exists (max x tenth). split; [done|]. split; [done|].
  destruct (max_tenth x) as [H1 H2]. split; [|done].
  intros Hx. rewrite (H1 Hx). done.
Qed.

End Builtins.

Lemma retry_after_delay_floor_witness :
  let j := (3602879701896397 # 18014398509481984)%Q in
  let headers := [("Retry-After", "nan")] in
  ∃ delay,
    _retry_after_delay sample_float headers 1 (Fin (1 # 2)) (Fin j) (Fin (3 # 4))
    = Value delay
    ∧ match retry_after sample_float headers with
      | Some x =>
          delay = max x tenth
          ∧ (is_nan x = true → delay = NaN ∧ le tenth delay = false)
          ∧ (is_nan x = false → le tenth delay = true)
      | None =>
          _compute_backoff 1 (Fin (1 # 2)) (Fin j) (Fin (3 # 4)) = Value delay
          ∧ le (Fin (1 # 2)) delay = true
      end.
Proof.
  intros j headers.
  apply (retry_after_delay_floor sample_float headers 1 (1 # 2) j (3 # 4));
    [by vm_compute|by vm_compute|done|done|done|lia].
Defined.

(** The header [Retry-After: nan] of the example: the delay is not a
    number, where the header [2] gives two seconds and the header
    [0.01] the floor. *)
Example retry_after_nan :
  _retry_after_delay sample_float [("Retry-After", "nan")] 1 (Fin (1 # 2)) zero zero
  = Value NaN
  ∧ _retry_after_delay sample_float [("Retry-After", "2")] 1 (Fin (1 # 2)) zero zero
    = Value (Fin 2)
  ∧ _retry_after_delay sample_float [("Retry-After", "0.01")] 1 (Fin (1 # 2)) zero zero
    = Value tenth.
Proof. by vm_compute. Qed.

(** *** Comparison with the machine *)

(** On the operands of the examples, rounding and the operations give
    what the binary64 arithmetic of the machine gives. *)
Example agrees_with_the_machine :
  let m := Binary64.machine in
  let q := Binary64.ratio in
  m (q 1 10) = round (1 # 10)
  ∧ m (q 1 5) = round (1 # 5)
  ∧ m (q 1 3) = round (1 # 3)
  ∧ m (q 9007199254740991 9007199254740992) = round (1 - pow2 (-53))
  ∧ m (PrimFloat.add (q 1 10) (q 1 5)) = add (round (1 # 10)) (round (1 # 5))
  ∧ m (PrimFloat.add (q 1 2) (q 1 5)) = add (Fin (1 # 2)) (round (1 # 5))
  ∧ m (PrimFloat.mul (q 1 5) (q 9007199254740991 9007199254740992))
    = mul (round (1 # 5)) (round (1 - pow2 (-53)))
  ∧ m (PrimFloat.add (q 1 2)
         (PrimFloat.mul (q 1 5) (q 9007199254740991 9007199254740992)))
    = add (Fin (1 # 2)) (mul (round (1 # 5)) (round (1 - pow2 (-53))))
  ∧ m (PrimFloat.add (q 9007199254740992 1) (PrimFloat.mul (q 3 2) (q 3 4)))
    = add (round (pow2 53)) (mul (Fin (3 # 2)) (Fin (3 # 4)))
  ∧ m (PrimFloat.mul (q 1 3) (q 7 10)) = mul (round (1 # 3)) (round (7 # 10))
  ∧ m (PrimFloat.sub (q 1 3) (q 7 10)) = sub (round (1 # 3)) (round (7 # 10))
  ∧ PrimFloat.ltb (q 1 10) (q 1 5) = lt (round (1 # 10)) (round (1 # 5))
  ∧ PrimFloat.leb (q 1 5) (q 1 10) = le (round (1 # 5)) (round (1 # 10)).
Proof. by vm_compute. Qed.

End HttpDelaysTheory.
